(** * BMNS: Bloch-McConnell R1rho fitting engine

    A shallow embedding of the fitting loop of [BMNS.py], of the global
    optimiser of [src/AMPGO.py] and of the command-line checks of
    [src/Errors.py], together with the properties of the specification
    that concern them and further properties of the code.

    Numbers.  The programs compute with numpy [float64] values.  They are
    embedded as Rocq's primitive binary64 floats, so that [NaN], the two
    infinities and division by zero behave as they do at run time and every
    definition can be evaluated.  The transform of the tunnelling phase
    and the vector operations are written once, over a small arithmetic
    interface, whose instance is [float64]. *)

From Stdlib Require Import String List ZArith Bool Lia Floats.
From Stdlib Require Import Permutation Sorted.
Import ListNotations.

#[local] Set Warnings "-inexact-float".

(** ** Arithmetic interface *)

(** The operations [tunnel], [inverse_tunnel], the sums and the Euclidean
    distance use: [+ - * /], [numpy.sqrt] and the literals [0] and [1.0]. *)
Class Arith (A : Type) : Type := {
  nzero : A;
  nunit : A;
  nadd : A -> A -> A;
  nsub : A -> A -> A;
  nmul : A -> A -> A;
  ndiv : A -> A -> A;
  nsqrt : A -> A
}.

(** numpy [float64]. *)
#[export] Instance float_arith : Arith float := {|
  nzero := 0%float;
  nunit := 1%float;
  nadd := PrimFloat.add;
  nsub := PrimFloat.sub;
  nmul := PrimFloat.mul;
  ndiv := PrimFloat.div;
  nsqrt := PrimFloat.sqrt
|}.

(** ** Vectors

    A one-dimensional numpy array is a list.  Binary element-wise operators
    pair the elements up; the arrays the programs combine have the same
    shape (all points are [n]-vectors), where numpy would otherwise raise. *)
Section Vectors.
Context {A : Type} `{Arith A}.

Definition vec_map2 (f : A -> A -> A) (x y : list A) : list A :=
  map (fun p => f (fst p) (snd p)) (combine x y).

(** [x - y] on arrays. *)
Definition vsub (x y : list A) : list A := vec_map2 nsub x y.

(** [x**2] and [x**2.], read as the product [x*x]. *)
Definition sqr (a : A) : A := nmul a a.

(** Accumulation from zero, in index order. *)
Definition vsum (v : list A) : A := fold_left nadd v nzero.

(** *** [numpy.sum] on a [float64] array

    numpy adds the entries of a one-dimensional array up pairwise
    ([pairwise_sum] of its [loops_utils.h]):
<<
  if (n < 8) {
      res = 0.;
      for (i = 0; i < n; i++) res += a[i];
      return res;
  }
  else if (n <= PW_BLOCKSIZE) {          /* 128 */
      r[0] = a[0]; ... r[7] = a[7];
      for (i = 8; i < n - (n % 8); i += 8) {
          r[0] += a[i + 0]; ... r[7] += a[i + 7];
      }
      res = ((r[0] + r[1]) + (r[2] + r[3])) +
            ((r[4] + r[5]) + (r[6] + r[7]));
      for (; i < n; i++) res += a[i];
      return res;
  }
  else {
      n2 = n / 2;
      n2 -= n2 % 8;
      return pairwise_sum(a, n2) + pairwise_sum(a + n2, n - n2);
  }
>>
    and the reduction adds the result to its initial value, zero. *)

(** The eight accumulators, added up. *)
Definition sum8 (r : list A) : A :=
  match r with
  | [r0; r1; r2; r3; r4; r5; r6; r7] =>
      nadd (nadd (nadd r0 r1) (nadd r2 r3))
           (nadd (nadd r4 r5) (nadd r6 r7))
  | _ => nzero
  end.

(** [k] further blocks of eight entries added onto the accumulators [r];
    returns the accumulators and the entries left. *)
Fixpoint blocks (k : nat) (r l : list A) : list A * list A :=
  match k with
  | O => (r, l)
  | S k' => blocks k' (vec_map2 nadd r (firstn 8 l)) (skipn 8 l)
  end.

(** The middle case: [8 <= n <= 128]. *)
Definition block_sum (l : list A) : A :=
  let '(r, rest) :=
    blocks (List.length l / 8 - 1) (firstn 8 l) (skipn 8 l) in
  fold_left nadd rest (sum8 r).

(** [pairwise_sum(a, n)]; the recursion halves the array, so that a fuel
    of its length is never used up. *)
Fixpoint pairwise_sum (fuel : nat) (l : list A) : A :=
  let n := List.length l in
  if (n <? 8)%nat then fold_left nadd l nzero
  else if (n <=? 128)%nat then block_sum l
  else
    match fuel with
    | O => nzero
    | S fuel' =>
        let n2 := (n / 2 - (n / 2) mod 8)%nat in
        nadd (pairwise_sum fuel' (firstn n2 l))
             (pairwise_sum fuel' (skipn n2 l))
    end.

(** [numpy.sum(v)] and [v.sum()]. *)
Definition numpy_sum (v : list A) : A :=
  nadd nzero (pairwise_sum (List.length v) v).

(** [numpy.sqrt(numpy.sum((x - t)**2))]. *)
Definition dist (x t : list A) : A :=
  nsqrt (numpy_sum (map sqr (vsub x t))).

(** [numpy.linalg.norm(x)]: the square root of the dot product of [x] with
    itself, accumulated in index order. *)
Definition norm (x : list A) : A := nsqrt (vsum (map sqr x)).
End Vectors.

(** ** AMPGO.py: the tunnelling transform *)
Module AMPGO.

Section Transform.
Context {A : Type} `{Arith A}.

(** The loop shared by [tunnel] and [inverse_tunnel]:
<<
  denominator = 1.0
  for tabu in tabulist:
      denominator = denominator*numpy.sqrt(numpy.sum((x0 - tabu)**2))
>> *)
Definition denominator (x0 : list A) (tabulist : list (list A)) : A :=
  fold_left (fun den tabu => nmul den (dist x0 tabu)) tabulist nunit.

(** [tunnel(x0, objfun, aspiration, tabulist)]; the extra arguments of
    [objfun] are part of the closure [objfun]. *)
Definition tunnel (x0 : list A) (objfun : list A -> A) (aspiration : A)
    (tabulist : list (list A)) : A :=
  let numerator := sqr (nsub (objfun x0) aspiration) in
  ndiv numerator (denominator x0 tabulist).

(** [inverse_tunnel(xtf, ytf, aspiration, tabulist)]. *)
Definition inverse_tunnel (xtf : list A) (ytf aspiration : A)
    (tabulist : list (list A)) : A :=
  nadd aspiration (nsqrt (nmul ytf (denominator xtf tabulist))).
End Transform.

(** *** Python-level helpers *)

(** [l.pop(index)] for an index within the list. *)
Fixpoint pop {X : Type} (index : nat) (l : list X) : list X :=
  match l, index with
  | [], _ => []
  | _ :: t, O => t
  | h :: t, S j => h :: pop j t
  end.

(** [numpy.argmax] on a [float64] array, as numpy's kernel runs it: the
    maximum so far is replaced by an element [x] when [not (x <= mp)], and
    the scan stops at the first [NaN].  An empty array raises. *)
Fixpoint argmax_from (mp : float) (mi i : nat) (l : list float) : nat :=
  match l with
  | [] => mi
  | x :: l' =>
      if is_nan mp then mi
      else if negb (x <=? mp)%float then argmax_from x i (S i) l'
      else argmax_from mp mi (S i) l'
  end.

Definition argmax (l : list float) : option nat :=
  match l with
  | [] => None
  | x :: l' => Some (argmax_from x 0 1 l')
  end.

(** [drop_tabu_points(xf, tabulist, tabulistsize, tabustrategy)].  [None]
    stands for the exception Python raises when it pops from, or takes the
    [argmax] over, an empty list. *)
Definition drop_tabu_points (xf : list float) (tabulist : list (list float))
    (tabulistsize : Z) (tabustrategy : string) : option (list (list float)) :=
  if (Z.of_nat (List.length tabulist) <? tabulistsize)%Z then Some tabulist
  else if String.eqb tabustrategy "oldest"%string then
    match tabulist with
    | [] => None
    | _ => Some (pop 0 tabulist)
    end
  else
    let distance := map (fun tabu => dist tabu xf) tabulist in
    match argmax distance with
    | None => None
    | Some index => Some (pop index tabulist)
    end.

(** *** The optimiser *)

Definition SCIPY_LOCAL_SOLVERS : list string :=
  ["Nelder-Mead"; "Powell"; "L-BFGS-B"; "TNC"; "SLSQP"]%string.
Definition OPENOPT_LOCAL_SOLVERS : list string :=
  ["bobyqa"; "ptn"; "slmvm2"; "ralg"; "mma"; "auglag"; "sqlcp"]%string.

(** Python's [s in l] for strings. *)
Definition str_in (s : string) (l : list string) : bool :=
  existsb (String.eqb s) l.

(** One entry of [bounds]: [None], or a pair whose ends may be [None]. *)
Definition bound : Type := option (option float * option float).

(** What the local solver hands back: [xf, yf, num_fun]. *)
Definition local_result : Type := (list float * float * Z)%type.

(** The collaborators of [AMPGO] outside the repository: the two solver
    libraries (with the flags set by their imports) and numpy's random
    generator, whose hidden state is threaded as [Rng]. *)
Class Solvers (Opts Rng : Type) : Type := {
  SCIPY : bool;
  OPENOPT : bool;
  (** [NLP(f, x0, lb, ub, maxFunEvals, ftol, iprint)._solve(local)] *)
  NLP__solve : (list float -> float) -> list float -> list float ->
               list float -> Z -> float -> Z -> string -> local_result;
  (** [NLP(f, x0, lb, ub, maxFunEvals, ftol, iprint).solve(local)] *)
  NLP_solve : (list float -> float) -> list float -> list float ->
              list float -> Z -> float -> Z -> string -> local_result;
  (** [minimize(f, x0, method, bounds, tol, options)], the options being
      [maxiter], [disp] and the caller's [local_opts] merged over them. *)
  minimize : (list float -> float) -> list float -> string -> list bound ->
             float -> Z -> Z -> option Opts -> local_result;
  (** [numpy.random.uniform(-1.0, 1.0, size=(n, ))] *)
  uniform : Rng -> nat -> list float * Rng
}.

(** The exceptions [AMPGO] can raise. *)
Inductive exn : Type :=
| InvalidLocalSolver
| NoScipyInstallation
| NoOpenOptInstallation
| BoundsLengthMismatch
| InvalidTabuListSize
| InvalidTabuStrategy
| EmptyTabuList.

Definition msg_success : string := "Optimization terminated successfully".
Definition msg_maxfunevals : string :=
  "Maximum number of function evaluations exceeded".
Definition msg_totaliter : string :=
  "Maximum number of global iterations exceeded".

(** The tuple [AMPGO] returns. *)
Record result : Type := mkResult {
  res_x : list float;
  res_f : float;
  res_evaluations : Z;
  res_msg : string;
  res_tunnel : Z * Z
}.

Section Optimiser.
Context {Opts Rng : Type} `{Solvers Opts Rng}.

(** The keyword arguments of [AMPGO], [args] being part of [objfun]. *)
Record Args : Type := mkArgs {
  objfun : list float -> float;
  x0 : list float;
  local : string;
  local_opts : option Opts;
  bounds : option (list bound);
  maxfunevals : option Z;
  totaliter : Z;
  maxiter : Z;
  glbtol : float;
  eps1 : float;
  eps2 : float;
  tabulistsize : Z;
  tabustrategy : string;
  fmin : float;
  disp : option Z
}.

(** The signature's defaults. *)
Definition default_args (f : list float -> float) (start : list float) : Args :=
  {| objfun := f; x0 := start; local := "L-BFGS-B"; local_opts := None;
     bounds := None; maxfunevals := None; totaliter := 20; maxiter := 5;
     glbtol := 1e-5; eps1 := 0.02; eps2 := 0.1; tabulistsize := 5;
     tabustrategy := "farthest"; fmin := neg_infinity; disp := None |}.

(** The local variables of [AMPGO] that live across loop iterations. *)
Record state : Type := mkState {
  st_x0 : list float;
  st_xf : list float;
  best_x : list float;
  best_f : float;
  st_maxfunevals : Z;
  evaluations : Z;
  tabulist : list (list float);
  global_iter : Z;
  all_tunnel : Z;
  success_tunnel : Z;
  st_i : Z;
  improve : Z;
  st_rng : Rng
}.

(** The two loop heads: [while 1] and [while i < maxiter and improve == 0]. *)
Inductive control : Type := Minimization | Tunnelling.

Inductive step_result : Type :=
| Continue (c : control) (s : state)
| Return (r : result) (g : Rng)
| Raise (e : exn).

Variable a : Args.

(** [bounds], after [if bounds is None: bounds = [(None, None)] * n]. *)
Definition the_bounds : list bound :=
  match bounds a with
  | None => repeat (Some (None, None)) (List.length (x0 a))
  | Some b => b
  end.

(** [low] and [up].  Both start as [[0]*n]; an entry of [bounds] that is
    [None] leaves the zeros in place. *)
Definition low_of (b : bound) : float :=
  match b with
  | None => 0
  | Some (None, _) => neg_infinity
  | Some (Some l, _) => l
  end.

Definition up_of (b : bound) : float :=
  match b with
  | None => 0
  | Some (_, None) => infinity
  | Some (_, Some u) => u
  end.

Definition low : list float := map low_of the_bounds.
Definition up : list float := map up_of the_bounds.

Definition the_disp : Z :=
  match disp a with
  | None => 0
  | Some d => if (d <=? 0)%Z then 0%Z else d
  end.

Definition iprint : Z :=
  match disp a with
  | None => (-1)%Z
  | Some d => if (d <=? 0)%Z then (-1)%Z else 50%Z
  end.

Definition local_tol : float :=
  if (glbtol a <? 1e-8)%float then glbtol a else 1e-8%float.

(** [maxfunevals], after [if maxfunevals is None: ...]. *)
Definition initial_maxfunevals : Z :=
  match maxfunevals a with
  | None => Z.max 100 (10 * Z.of_nat (List.length (x0 a)))
  | Some m => m
  end.

(** The call of the local solver; [first] tells the minimisation phase
    (which calls [_solve]) from the tunnelling phase (which calls [solve]). *)
Definition local_solve (first : bool) (f : list float -> float)
    (start : list float) (budget : Z) : local_result :=
  if str_in (local a) OPENOPT_LOCAL_SOLVERS then
    (if first then NLP__solve else NLP_solve)
      f start low up (Z.max 1 budget) local_tol iprint (local a)
  else
    minimize f start (local a) the_bounds local_tol (Z.max 1 budget)
      the_disp (local_opts a).

(** [x0 = numpy.where(x0 < low, low, x0)] and its twin for [up]. *)
Definition clip_low (x lo : list float) : list float :=
  vec_map2 (fun xi li => if (xi <? li)%float then li else xi) x lo.
Definition clip_up (x hi : list float) : list float :=
  vec_map2 (fun xi ui => if (ui <? xi)%float then ui else xi) x hi.

(** The step scale of a tunnelling phase:
<<
  beta = eps2*numpy.linalg.norm(xf)/numpy.linalg.norm(r)
  if numpy.abs(beta) < 1e-8:
      beta = eps2
>> *)
Definition step_scale (xf r : list float) : float :=
  let beta := (eps2 a * norm xf / norm r)%float in
  if (abs beta <? 1e-8)%float then eps2 a else beta.

(** The start point of a tunnelling phase: [xf + beta*r], clipped. *)
Definition perturb (xf r : list float) : list float :=
  let beta := step_scale xf r in
  let x := vec_map2 PrimFloat.add xf (map (PrimFloat.mul beta) r) in
  clip_up (clip_low x low) up.

Definition reached (bf : float) : bool := (bf <? fmin a + glbtol a)%float.

Definition finish (s : state) (msg : string) : step_result :=
  Return {| res_x := best_x s; res_f := best_f s;
            res_evaluations := evaluations s; res_msg := msg;
            res_tunnel := (all_tunnel s, success_tunnel s) |}
         (st_rng s).

(** One pass through the body of [while 1] up to the inner loop: the
    minimisation phase. *)
Definition minimization (s : state) : step_result :=
  let '(xf, yf, num_fun) :=
    local_solve true (objfun a) (st_x0 s) (st_maxfunevals s) in
  let budget := (st_maxfunevals s - num_fun)%Z in
  let evals := (evaluations s + num_fun)%Z in
  let improved := (yf <? best_f s)%float in
  let bf := if improved then yf else best_f s in
  let bx := if improved then xf else best_x s in
  let s1 := {| st_x0 := st_x0 s; st_xf := xf; best_x := bx; best_f := bf;
               st_maxfunevals := budget; evaluations := evals;
               tabulist := tabulist s; global_iter := global_iter s;
               all_tunnel := all_tunnel s;
               success_tunnel := success_tunnel s;
               st_i := st_i s; improve := improve s; st_rng := st_rng s |} in
  if reached bf then finish s1 msg_success
  else if (budget <=? 0)%Z then finish s1 msg_maxfunevals
  else
    match drop_tabu_points xf (tabulist s) (tabulistsize a) (tabustrategy a) with
    | None => Raise EmptyTabuList
    | Some tl =>
        Continue Tunnelling
          {| st_x0 := st_x0 s; st_xf := xf; best_x := bx; best_f := bf;
             st_maxfunevals := budget; evaluations := evals;
             tabulist := tl ++ [xf]; global_iter := global_iter s;
             all_tunnel := all_tunnel s;
             success_tunnel := success_tunnel s;
             st_i := 0; improve := 0; st_rng := st_rng s |}
    end.

(** One test of [while i < maxiter and improve == 0]: either one
    tunnelling phase, or the rest of the body of [while 1]. *)
Definition tunnelling (s : state) : step_result :=
  if ((st_i s <? maxiter a)%Z && (improve s =? 0)%Z)%bool then
    let all := (all_tunnel s + 1)%Z in
    let '(r, rng') := uniform (st_rng s) (List.length (x0 a)) in
    let start := perturb (st_xf s) r in
    let aspiration :=
      (best_f s - eps1 a * (1.0 + abs (best_f s)))%float in
    let '(xf, ytf, num_fun) :=
      local_solve false
        (fun x => tunnel x (objfun a) aspiration (tabulist s))
        start (st_maxfunevals s) in
    let budget := (st_maxfunevals s - num_fun)%Z in
    let evals := (evaluations s + num_fun)%Z in
    let yf := inverse_tunnel xf ytf aspiration (tabulist s) in
    let accepted := (yf <=? best_f s + glbtol a)%float in
    let bf := if accepted then yf else best_f s in
    let bx := if accepted then xf else best_x s in
    let imp := if accepted then 1%Z else improve s in
    let succ := if accepted then (success_tunnel s + 1)%Z
                else success_tunnel s in
    let s1 := {| st_x0 := start; st_xf := xf; best_x := bx; best_f := bf;
                 st_maxfunevals := budget; evaluations := evals;
                 tabulist := tabulist s; global_iter := global_iter s;
                 all_tunnel := all; success_tunnel := succ;
                 st_i := st_i s; improve := imp; st_rng := rng' |} in
    if reached bf then finish s1 msg_success
    else if (budget <=? 0)%Z then finish s1 msg_maxfunevals
    else
      match drop_tabu_points xf (tabulist s) (tabulistsize a) (tabustrategy a) with
      | None => Raise EmptyTabuList
      | Some tl =>
          Continue Tunnelling
            {| st_x0 := start; st_xf := xf; best_x := bx; best_f := bf;
               st_maxfunevals := budget; evaluations := evals;
               tabulist := tl ++ [xf]; global_iter := global_iter s;
               all_tunnel := all; success_tunnel := succ;
               st_i := st_i s + 1; improve := imp; st_rng := rng' |}
      end
  else
    let s1 := {| st_x0 := st_xf s; st_xf := st_xf s; best_x := best_x s;
                 best_f := best_f s; st_maxfunevals := st_maxfunevals s;
                 evaluations := evaluations s; tabulist := tabulist s;
                 global_iter := global_iter s + 1;
                 all_tunnel := all_tunnel s;
                 success_tunnel := success_tunnel s;
                 st_i := st_i s; improve := improve s;
                 st_rng := st_rng s |} in
    if (totaliter a <=? global_iter s1)%Z then finish s1 msg_totaliter
    else if reached (best_f s1) then finish s1 msg_success
    else Continue Minimization s1.

Definition step (c : control) (s : state) : step_result :=
  match c with
  | Minimization => minimization s
  | Tunnelling => tunnelling s
  end.

(** What a call ends with: the returned tuple and the state the random
    generator is left in, or an exception. *)
Inductive outcome : Type :=
| Returned (r : result) (g : Rng)
| Raised (e : exn).

(** The loops, run for at most [fuel] passes through a loop head; [None]
    when the fuel does not suffice. *)
Fixpoint run (fuel : nat) (c : control) (s : state) : option outcome :=
  match fuel with
  | O => None
  | S fuel' =>
      match step c s with
      | Continue c' s' => run fuel' c' s'
      | Return r g => Some (Returned r g)
      | Raise e => Some (Raised e)
      end
  end.

(** The checks [AMPGO] makes on its arguments before the loops, in order. *)
Definition check_args : option exn :=
  if negb (str_in (local a) (SCIPY_LOCAL_SOLVERS ++ OPENOPT_LOCAL_SOLVERS))
  then Some InvalidLocalSolver
  else if (str_in (local a) SCIPY_LOCAL_SOLVERS && negb SCIPY)%bool
  then Some NoScipyInstallation
  else if (str_in (local a) OPENOPT_LOCAL_SOLVERS && negb OPENOPT)%bool
  then Some NoOpenOptInstallation
  else if negb (List.length the_bounds =? List.length (x0 a))%nat
  then Some BoundsLengthMismatch
  else if (tabulistsize a <? 1)%Z then Some InvalidTabuListSize
  else if negb (str_in (tabustrategy a) ["oldest"; "farthest"]%string)
  then Some InvalidTabuStrategy
  else None.

(** The variables as they stand when [while 1] is first entered. *)
Definition initial (g : Rng) : state :=
  {| st_x0 := x0 a; st_xf := x0 a; best_x := x0 a; best_f := infinity;
     st_maxfunevals := initial_maxfunevals; evaluations := 0;
     tabulist := []; global_iter := 0; all_tunnel := 0;
     success_tunnel := 0; st_i := 0; improve := 0; st_rng := g |}.

(** Passes through a loop head that any run can make: [while 1] is left
    after [totaliter] rounds (one, if [totaliter] is smaller), each made of
    the minimisation phase, at most [maxiter] tunnelling phases and the
    test that ends the inner loop. *)
Definition loop_bound : nat :=
  (Z.to_nat (Z.max 1 (totaliter a)) * (Z.to_nat (Z.max 0 (maxiter a)) + 2))%nat.

(** A bound on the passes still to come from a loop head: at [while 1]
    whole rounds, inside the inner loop the rest of the round and the
    rounds after it. *)
Definition rounds_left (s : state) : nat :=
  Z.to_nat (Z.max 1 (totaliter a - global_iter s)).

Definition round_bound : nat := (Z.to_nat (Z.max 0 (maxiter a)) + 2)%nat.

Definition passes_left (c : control) (s : state) : nat :=
  match c with
  | Minimization => (rounds_left s * round_bound)%nat
  | Tunnelling =>
      (Z.to_nat (Z.max 0 (maxiter a - st_i s)) + 1
       + (rounds_left s - 1) * round_bound)%nat
  end.

(** [AMPGO(objfun, x0, ...)], started with the random generator in state
    [g]. *)
Definition AMPGO (fuel : nat) (g : Rng) : option outcome :=
  match check_args with
  | Some e => Some (Raised e)
  | None => run fuel Minimization (initial g)
  end.

(** The three ways a [return] of [AMPGO] is worded, success being tied
    to its test [best_f < fmin + glbtol]. *)
Definition return_reason (r : result) : Prop :=
  res_msg r = msg_success /\ reached (res_f r) = true \/
  res_msg r = msg_maxfunevals \/ res_msg r = msg_totaliter.

(** The states a run passes through at its loop heads. *)
Inductive reachable (g : Rng) : control -> state -> Prop :=
| reach_init : reachable g Minimization (initial g)
| reach_step c s c' s' :
    reachable g c s -> step c s = Continue c' s' -> reachable g c' s'.

(** What a pass through a loop head finds: the point its local search
    ends at, with its value, which in a tunnelling phase is the one
    [inverse_tunnel] gives; the flag tells the tunnelling phases.  The
    pass that closes a round finds nothing. *)
Definition find : Type := (bool * list float * float)%type.

Definition found (c : control) (s : state) : option find :=
  match c with
  | Minimization =>
      let '(xf, yf, _) :=
        local_solve true (objfun a) (st_x0 s) (st_maxfunevals s) in
      Some (false, xf, yf)
  | Tunnelling =>
      if ((st_i s <? maxiter a)%Z && (improve s =? 0)%Z)%bool then
        let '(r, _) := uniform (st_rng s) (List.length (x0 a)) in
        let start := perturb (st_xf s) r in
        let aspiration :=
          (best_f s - eps1 a * (1.0 + abs (best_f s)))%float in
        let '(xf, ytf, _) :=
          local_solve false
            (fun x => tunnel x (objfun a) aspiration (tabulist s))
            start (st_maxfunevals s) in
        Some (true, xf, inverse_tunnel xf ytf aspiration (tabulist s))
      else None
  end.

(** The finds of a run, in order. *)
Fixpoint finds (fuel : nat) (c : control) (s : state) : list find :=
  match fuel with
  | O => []
  | S fuel' =>
      let here := match found c s with Some f => [f] | None => [] end in
      match step c s with
      | Continue c' s' => here ++ finds fuel' c' s'
      | _ => here
      end
  end.

(** [best_x] and [best_f] after a find: the minimisation phase takes a
    find over when [yf < best_f], a tunnelling phase when
    [yf <= best_f + glbtol]. *)
Definition keep (best : list float * float) (f : find)
    : list float * float :=
  let '(tunnelled, xf, yf) := f in
  if (if tunnelled then yf <=? snd best + glbtol a else yf <? snd best)%float
  then (xf, yf)
  else best.
End Optimiser.

End AMPGO.

(** ** BMNS.py: objective functions and the fitting loop *)
Module BMNS.

Local Open Scope float_scope.

(** *** Data *)

(** One row of a dataset's [R1pD] array in R1rho mode: columns 0 to 3. *)
Record R1p_row : Type := mkRow {
  Offs : float;
  Spinlock : float;
  R1p : float;
  R1p_e : float
}.

(** One row of a decay in intensity mode: columns 1 to 5.  (Column 0 is
    not read.) *)
Record Int_row : Type := mkIntRow {
  iOffs : float;
  iSLPs : float;
  Dlys : float;
  Ints : float;
  Ints_e : float
}.

(** One decay [d] of [ob.R1pD] in intensity mode.  The code reads
    [SLPs[0]] and [Offs[0]], so a decay has a first row. *)
Record Decay : Type := mkDecay {
  d_first : Int_row;
  d_rest : list Int_row
}.

Definition d_rows (d : Decay) : list Int_row := d_first d :: d_rest d.

(** A [Fits] object.  Its attribute [R1pD] is a 2-D array in R1rho mode
    and a stack of decays in intensity mode; the two shapes are the fields
    [R1pD] and [R1pD_ints].  [R1p_MC] and [R1pD_MC] are the attributes the
    Monte-Carlo loops attach. *)
Record Fits : Type := mkFits {
  FitNum : nat;
  lf : float;
  time : list float;
  AlignMag : string;
  R1pD : list R1p_row;
  R1pD_ints : list Decay;
  R1p_MC : list float;
  R1pD_MC : list Decay
}.

(** What [least_squares] returns, as far as the program reads it. *)
Record OptimizeResult : Type := mkOpt {
  opt_x : list float;
  opt_fun : list float;
  opt_jac : list (list float);
  opt_nfev : Z
}.

(** *** numpy and Python primitives *)

Definition isnan (x : float) : bool := is_nan x.
Definition isinf (x : float) : bool := is_infinity x.

(** The largest finite [float64], [numpy.finfo(float64).max]. *)
Definition float_max : float := 0x1.fffffffffffffp+1023.

(** [numpy.nan_to_num] on one element: [NaN] to [0.0], the infinities to
    the largest finite values of their sign. *)
Definition nan_to_num (x : float) : float :=
  if isnan x then 0
  else if isinf x then (if x <? 0 then - float_max else float_max)
  else x.

(** Python's built-in [sum]: [0 + l[0] + l[1] + ...]. *)
Definition py_sum (l : list float) : float := fold_left PrimFloat.add l 0.

(** [absolute]. *)
Definition absolute (x : float) : float := abs x.

(** [resid = reshape(resid, resid.shape[0] * resid.shape[1])] on the array
    made from a list of rows: it needs a second axis, so at least one row
    and rows of one length. *)
Definition reshape_flat (rows : list (list float)) : option (list float) :=
  match rows with
  | [] => None
  | r :: rs =>
      if forallb (fun r' => (List.length r' =? List.length r)%nat) rs
      then Some (concat rows)
      else None
  end.

(** *** Collaborators

    The modules [FitData], [SimR1p] and [Stats] are outside the core, and
    [least_squares] and the samplers belong to scipy and numpy. *)
Class Collaborators (Rng : Type) : Type := {
  (** [gl.UnpackgP0(Params, ob)] *)
  UnpackgP0 : list float -> Fits -> list float;
  (** [gl.UnpackErr(fiterr, ob)] *)
  UnpackErr : list float -> Fits -> list float;
  (** [sim.BMFitFunc(tPars, SL, OF, lf, time, AlignMag, 0, kR1p)] *)
  BMFitFunc : list float -> float -> float -> float -> list float ->
              string -> Z -> float -> float;
  (** [sim.LagFitFunc], same arguments *)
  LagFitFunc : list float -> float -> float -> float -> list float ->
               string -> Z -> float -> float;
  (** [sim.BMFitFunc_ints(tPars, SLP, OF, lf, Dlys, AlignMag)] *)
  BMFitFunc_ints : list float -> float -> float -> float -> list float ->
                   string -> list float;
  (** [least_squares(fun, x0, bounds, max_nfev)]; [None] when an exception
      leaves it. *)
  least_squares : (list float -> option (list float)) -> list float ->
                  list float * list float -> Z -> option OptimizeResult;
  (** First component of [sf.cStdErr(x, fun, jac, dof)] *)
  cStdErr : list float -> list float -> list (list float) -> float ->
            list float;
  (** [MCpars.std(axis=0)] *)
  std_axis0 : list (list float) -> list float;
  (** [gl.RandomgP0()] *)
  RandomgP0 : Rng -> list float * Rng;
  (** [numpy.random.normal(mu, sigma)] *)
  normal : float -> float -> Rng -> float * Rng
}.

Section Objectives.
Context {Rng : Type} `{Collaborators Rng}.

(** The attributes of the [Global] object the fitting loop reads. *)
Record Global : Type := mkGlobal {
  gObs : list Fits;
  FitType : string;
  FitLoops : Z;
  rndStart : bool;
  gP0 : list float;
  gBnds : list float * list float;
  dof : float;
  gFitEqn : string;
  brutegP0 : list (list float)
}.

Variable gl : Global.

(** The simulated rate for one row. *)
Definition predicted (fit : list float -> float -> float -> float ->
      list float -> string -> Z -> float -> float)
    (tPars : list float) (ob : Fits) (SL OF kR1p : float) : float :=
  fit tPars SL (-1 * OF) (lf ob) (time ob) (AlignMag ob) 0%Z kR1p.

(** The simulated decay for one stack entry [d]. *)
Definition decay_residual (tPars : list float) (ob : Fits) (d : Decay)
    : list float :=
  let pv := BMFitFunc_ints tPars (iSLPs (d_first d)) (- iOffs (d_first d))
              (lf ob) (map Dlys (d_rows d)) (AlignMag ob) in
  vec_map2 PrimFloat.div
    (vec_map2 PrimFloat.sub pv (map Ints (d_rows d)))
    (map Ints_e (d_rows d)).

(** The body of [for ob in gl.gObs] in [chi2]. *)
Definition chi2_ob (Params : list float) (DataType : string)
    (chisq : float) (ob : Fits) : float :=
  if String.eqb DataType "R1p" then
    let tPars := UnpackgP0 Params ob in
    if (1 <? List.length (map R1p_e (R1pD ob)))%nat then
      chisq + py_sum (map (fun row =>
        sqr ((predicted BMFitFunc tPars ob (Spinlock row) (Offs row) (R1p row)
              - R1p row) / R1p_e row)) (R1pD ob))
    else
      chisq + py_sum (map (fun row =>
        sqr (predicted BMFitFunc tPars ob (Spinlock row) (Offs row) (R1p row)
             - R1p row) / R1p row) (R1pD ob))
  else if String.eqb DataType "Ints" then
    let tPars := UnpackgP0 Params ob in
    fold_left (fun acc d =>
      acc + numpy_sum (map sqr (decay_residual tPars ob d)))
      (R1pD_ints ob) chisq
  else chisq.

(** [chi2(Params, DataType)] *)
Definition chi2 (Params : list float) (DataType : string) : float :=
  let chisq := fold_left (chi2_ob Params DataType) (gObs gl) 0 in
  if (isnan chisq || isinf chisq)%bool then 1e4 else chisq.

(** The chi-square of the specification for R1rho data: the sum over the
    datasets, and over the points of each, of [((predicted -
    observed)/error)^2] where per-point errors are available for the
    dataset and of [(predicted - observed)^2/observed] where they are not.

    Every row of the data holds an uncertainty, which is zero throughout
    where the data come without errors.  Per-point errors are available
    where the uncertainties do not add up to zero, as the specification
    has it for the standard errors and as the fitting loop tests it
    ([ob.R1pD[:,3].sum() != 0.]). *)
Definition error_available (ob : Fits) : bool :=
  negb (numpy_sum (map R1p_e (R1pD ob)) =? 0).

Definition point_term (Params : list float) (ob : Fits) (row : R1p_row)
    : float :=
  let prediction :=
    predicted BMFitFunc (UnpackgP0 Params ob) ob (Spinlock row) (Offs row)
      (R1p row) in
  if error_available ob
  then sqr ((prediction - R1p row) / R1p_e row)
  else sqr (prediction - R1p row) / R1p row.

Definition dataset_sum (Params : list float) (ob : Fits) : float :=
  py_sum (map (point_term Params ob) (R1pD ob)).

Definition chi2_as_specified (Params : list float) : float :=
  fold_left (fun total ob => total + dataset_sum Params ob) (gObs gl) 0.

(** The entries one dataset appends to [resid] in R1rho mode. *)
Definition residual_R1p (Params : list float) (R1p_MC : option bool)
    (ob : Fits) : list float :=
  let R1p_e_col := map R1p_e (R1pD ob) in
  let R1p_col :=
    match R1p_MC with
    | Some _ => BMNS.R1p_MC ob
    | None => map R1p (R1pD ob)
    end in
  let tPars := UnpackgP0 Params ob in
  let weighted :=
    ((1 <? List.length R1p_e_col)%nat
     && match R1p_MC with None => true | Some _ => false end)%bool in
  if String.eqb (gFitEqn gl) "bm" then
    if weighted then
      map (fun '(row, kR1p) =>
        absolute (predicted BMFitFunc tPars ob (Spinlock row) (Offs row) kR1p
                  - kR1p) / R1p_e row)
        (combine (R1pD ob) R1p_col)
    else
      map (fun '(row, kR1p) =>
        predicted BMFitFunc tPars ob (Spinlock row) (Offs row) kR1p - kR1p)
        (combine (R1pD ob) R1p_col)
  else if String.eqb (gFitEqn gl) "lag" then
    if weighted then
      map (fun '(row, kR1p) =>
        (predicted LagFitFunc tPars ob (Spinlock row) (Offs row) kR1p
         - kR1p) / R1p_e row)
        (combine (R1pD ob) R1p_col)
    else
      map (fun '(row, kR1p) =>
        predicted LagFitFunc tPars ob (Spinlock row) (Offs row) kR1p - kR1p)
        (combine (R1pD ob) R1p_col)
  else [].

(** The rows one dataset appends to [resid] in intensity mode. *)
Definition residual_Ints (Params : list float) (R1p_MC : option bool)
    (ob : Fits) : list (list float) :=
  let tPars := UnpackgP0 Params ob in
  let decays :=
    match R1p_MC with
    | Some _ => R1pD_MC ob
    | None => R1pD_ints ob
    end in
  map (fun d => map absolute (decay_residual tPars ob d)) decays.

(** [resid] as it stands before the check for [NaN] and [inf]: the
    entries of all datasets, made an array and, in intensity mode,
    flattened.  [DataType] is the same for every dataset, so the test on
    it is made once. *)
Definition raw_residual (Params : list float) (R1p_MC : option bool)
    (DataType : string) : option (list float) :=
  if String.eqb DataType "R1p" then
    Some (flat_map (residual_R1p Params R1p_MC) (gObs gl))
  else if String.eqb DataType "Ints" then
    reshape_flat (flat_map (residual_Ints Params R1p_MC) (gObs gl))
  else Some [].

(** The closing lines of [residual]. *)
Definition replace_bad (resid : list float) : list float :=
  if (existsb isnan resid || existsb isinf resid)%bool
  then map nan_to_num resid
  else resid.

(** [residual(Params, R1p_MC, DataType)]; [None] when [reshape] raises. *)
Definition residual (Params : list float) (R1p_MC : option bool)
    (DataType : string) : option (list float) :=
  option_map replace_bad (raw_residual Params R1p_MC DataType).
End Objectives.

(** *** The fitting loop of [Main] *)

(** A call [gl.UnPackFits(idx, pars, redChiSq, nfev, stage, ob, errPars)]:
    one fit record. *)
Record FitRecord : Type := mkRecord {
  rec_idx : Z;
  rec_pars : list float;
  rec_redChiSq : float;
  rec_nfev : Z;
  rec_stage : string;
  rec_ob : nat;
  rec_errPars : option (list float)
}.

(** What the loop prints. *)
Inductive output : Type :=
| Banner (stage : string) (lp : Z)
| MCNotice
| MCProgress (i n : Z)
| Text (line : string).

Section Fitting.
Context {Opts Rng : Type} `{AMPGO.Solvers Opts Rng} `{Collaborators Rng}.

(** What the loop changes: the datasets (their Monte-Carlo attributes),
    the records unpacked into the [Global] object, the calls of
    [gl.WriteFits], the terminal, and numpy's random generator.  Graphs
    and statistics files are the excluded collaborators' business. *)
Record session : Type := mkSession {
  s_gl : Global;
  fits : list FitRecord;
  written : list (nat * Z * string);
  stdout : list output;
  rng : Rng
}.

Definition set_gObs (gl : Global) (obs : list Fits) : Global :=
  {| gObs := obs; FitType := FitType gl; FitLoops := FitLoops gl;
     rndStart := rndStart gl; gP0 := gP0 gl; gBnds := gBnds gl;
     dof := dof gl; gFitEqn := gFitEqn gl; brutegP0 := brutegP0 gl |}.

Definition with_gObs (obs : list Fits) (s : session) : session :=
  {| s_gl := set_gObs (s_gl s) obs; fits := fits s; written := written s;
     stdout := stdout s; rng := rng s |}.

Definition with_rng (g : Rng) (s : session) : session :=
  {| s_gl := s_gl s; fits := fits s; written := written s;
     stdout := stdout s; rng := g |}.

Definition print (o : output) (s : session) : session :=
  {| s_gl := s_gl s; fits := fits s; written := written s;
     stdout := stdout s ++ [o]; rng := rng s |}.

(** [gl.UnPackFits(...)] followed by [gl.WriteFits(outPath, ob, idx, stage)]. *)
Definition store (r : FitRecord) (s : session) : session :=
  {| s_gl := s_gl s; fits := fits s ++ [r];
     written := written s ++ [(rec_ob r, rec_idx r, rec_stage r)];
     stdout := stdout s; rng := rng s |}.

Definition store_all (rs : list FitRecord) (s : session) : session :=
  fold_left (fun acc r => store r acc) rs s.

(** What a run leaves behind besides its lines on the terminal. *)
Definition effects (s : session)
    : Global * list FitRecord * list (nat * Z * string) * Rng :=
  (s_gl s, fits s, written s, rng s).

(** A computation that an exception may cut short. *)
Definition bind {X Y : Type} (m : option X) (k : X -> option Y) : option Y :=
  match m with
  | Some x => k x
  | None => None
  end.

Notation "x <- m ;; k" := (bind m (fun x => k))
  (at level 61, m at next level, right associativity).

(** A loop whose body draws from the random generator. *)
Fixpoint for_rng {X Y : Type} (body : X -> Rng -> Y * Rng) (l : list X)
    (g : Rng) : list Y * Rng :=
  match l with
  | [] => ([], g)
  | x :: l' =>
      let '(y, g1) := body x g in
      let '(ys, g2) := for_rng body l' g1 in
      (y :: ys, g2)
  end.

(** [range(n)] *)
Definition range (n : Z) : list Z := map Z.of_nat (seq 0 (Z.to_nat n)).

(** [tP0]: the random or the given initial guess. *)
Definition initial_guess (s : session) : list float * Rng :=
  if rndStart (s_gl s) then RandomgP0 (rng s) else (gP0 (s_gl s), rng s).

(** [numpy.zeros(x.shape)] *)
Definition zeros (x : list float) : list float := repeat 0 (List.length x).

(** [dataType], set once from the fit type. *)
Definition dataType (gl : Global) : string :=
  match String.index 0 "int" (FitType gl) with
  | Some _ => "Ints"
  | None => "R1p"
  end.

(** **** Global fit with polish *)

(** The call [ampgo.AMPGO(chi2, tP0, local='L-BFGS-B', bounds=bnds,
    maxiter=5, tabulistsize=8, totaliter=10, disp=0, maxfunevals=2000)]. *)
Definition ampgo_args (gl : Global) (tP0 : list float) : @AMPGO.Args Opts :=
  {| AMPGO.objfun := fun Params => chi2 gl Params "R1p";
     AMPGO.x0 := tP0;
     AMPGO.local := "L-BFGS-B";
     AMPGO.local_opts := None;
     AMPGO.bounds :=
       Some (map (fun '(x, y) => Some (Some x, Some y))
                 (combine (fst (gBnds gl)) (snd (gBnds gl))));
     AMPGO.maxfunevals := Some 2000%Z;
     AMPGO.totaliter := 10;
     AMPGO.maxiter := 5;
     AMPGO.glbtol := 1e-5;
     AMPGO.eps1 := 0.02;
     AMPGO.eps2 := 0.1;
     AMPGO.tabulistsize := 8;
     AMPGO.tabustrategy := "farthest";
     AMPGO.fmin := neg_infinity;
     AMPGO.disp := Some 0%Z |}.

(** The global fit and its polish.  [AMPGO] is given the passes through
    its loop heads that any call ends within, [AMPGO.loop_bound]. *)
Definition fit_global (mcerr : bool) (lp : Z) (s0 : session)
    : option session :=
  let gl := s_gl s0 in
  let s1 := print (Banner "global" (lp + 1)) s0 in
  let s2 := if mcerr then print MCNotice s1 else s1 in
  let '(tP0, g1) := initial_guess s2 in
  let a := ampgo_args gl tP0 in
  match AMPGO.AMPGO a (AMPGO.loop_bound a) g1 with
  | Some (AMPGO.Returned fitted g2) =>
      let s3 := with_rng g2 s2 in
      let s4 :=
        store_all
          (map (fun ob =>
             {| rec_idx := lp + 1;
                rec_pars := UnpackgP0 (AMPGO.res_x fitted) ob;
                rec_redChiSq := AMPGO.res_f fitted / dof gl;
                rec_nfev := AMPGO.res_evaluations fitted;
                rec_stage := "global"; rec_ob := FitNum ob;
                rec_errPars := None |}) (gObs gl)) s3 in
      let s5 := print (Text "Polish Global Fit with Levenberg-Marquardt") s4 in
      polished <- least_squares (fun x => residual gl x None "R1p")
                    (AMPGO.res_x fitted) (gBnds gl) 10000 ;;
      Some (store_all
        (map (fun ob =>
           let chisq := chi2 gl (opt_x polished) "R1p" in
           let fiterr := cStdErr (opt_x polished) (opt_fun polished)
                           (opt_jac polished) (dof gl) in
           {| rec_idx := lp + 1;
              rec_pars := UnpackgP0 (opt_x polished) ob;
              rec_redChiSq := chisq / dof gl;
              rec_nfev := opt_nfev polished;
              rec_stage := "polish"; rec_ob := FitNum ob;
              rec_errPars := Some (UnpackErr fiterr ob) |}) (gObs gl)) s5)
  | _ => None
  end.

(** **** Local fit *)

(** [ob.R1p_MC = array([normal(y, ye) for y, ye in zip(R1p, R1p_e)])] *)
Definition corrupt_R1p (ob : Fits) (g : Rng) : Fits * Rng :=
  let '(mc, g') :=
    for_rng (fun row => normal (R1p row) (R1p_e row)) (R1pD ob) g in
  ({| FitNum := FitNum ob; lf := lf ob; time := time ob;
      AlignMag := AlignMag ob; R1pD := R1pD ob;
      R1pD_ints := R1pD_ints ob; R1p_MC := mc;
      R1pD_MC := R1pD_MC ob |}, g').

(** One round of the Monte-Carlo loop of the local fit: corrupt every
    dataset, refit from [start], keep the fitted vector. *)
Definition mc_round_local (start : list float) (s : session)
    : option (list float * session) :=
  let '(obs, g) := for_rng corrupt_R1p (gObs (s_gl s)) (rng s) in
  let s' := with_rng g (with_gObs obs s) in
  refit <- least_squares (fun x => residual (s_gl s') x (Some true) "R1p")
             start (gBnds (s_gl s')) 10000 ;;
  Some (opt_x refit, s').

(** [for i in range(fitMC)] around a round; yields [tpars]. *)
Fixpoint mc_loop (round : session -> option (list float * session))
    (fitMC : Z) (todo : list Z) (tpars : list (list float)) (s : session)
    : option (list (list float) * session) :=
  match todo with
  | [] => Some (tpars, s)
  | i :: todo' =>
      r <- round (print (MCProgress (i + 1) fitMC) s) ;;
      mc_loop round fitMC todo' (tpars ++ [fst r]) (snd r)
  end.

(** [fiterr] of the local fit without Monte-Carlo estimation. *)
Definition local_fiterr (gl : Global) (ob : Fits) (fitted : OptimizeResult)
    : list float :=
  if negb (numpy_sum (map R1p_e (R1pD ob)) =? 0) then
    cStdErr (opt_x fitted) (opt_fun fitted) (opt_jac fitted) (dof gl)
  else zeros (opt_x fitted).

(** The records of the Monte-Carlo refits for one dataset. *)
Definition mc_records (gl : Global) (ob : Fits) (fitted : OptimizeResult)
    (MCpars : list (list float)) (RCS_list : list float)
    (fiterr : list float) : list FitRecord :=
  map (fun '(idx, (f, r)) =>
    {| rec_idx := Z.of_nat idx + 1;
       rec_pars := UnpackgP0 f ob;
       rec_redChiSq := r;
       rec_nfev := opt_nfev fitted;
       rec_stage := "mcerr"; rec_ob := FitNum ob;
       rec_errPars := Some (UnpackErr fiterr ob) |})
    (combine (seq 0 (List.length MCpars)) (combine MCpars RCS_list)).

(** The records one dataset adds at the end of a local fit. *)
Definition local_records (gl : Global) (mcerr : bool) (lp : Z)
    (fitted : OptimizeResult) (MCpars : list (list float)) (ob : Fits)
    : list FitRecord :=
  let chisq := chi2 gl (opt_x fitted) "R1p" in
  let redChiSq := chisq / dof gl in
  let fiterr :=
    if negb mcerr then local_fiterr gl ob fitted else std_axis0 MCpars in
  let mc :=
    if negb mcerr then []
    else
      let RCS_list := map (fun x => chi2 gl x "R1p" / dof gl) MCpars in
      mc_records gl ob fitted MCpars RCS_list fiterr in
  mc ++
  [{| rec_idx := lp + 1;
      rec_pars := UnpackgP0 (opt_x fitted) ob;
      rec_redChiSq := redChiSq;
      rec_nfev := opt_nfev fitted;
      rec_stage := "local"; rec_ob := FitNum ob;
      rec_errPars := Some (UnpackErr fiterr ob) |}].

Definition fit_local (mcerr : bool) (fitMC : Z) (lp : Z) (s0 : session)
    : option session :=
  let s1 := print (Banner "local" (lp + 1)) s0 in
  let '(tP0, g1) := initial_guess s1 in
  let s2 := with_rng g1 s1 in
  fitted <- least_squares (fun x => residual (s_gl s2) x None "R1p")
              tP0 (gBnds (s_gl s2)) 10000 ;;
  mc <- (if mcerr
         then mc_loop (mc_round_local (opt_x fitted)) fitMC (range fitMC) [] s2
         else Some ([], s2)) ;;
  let '(MCpars, s3) := mc in
  let gl := s_gl s3 in
  Some (store_all
          (flat_map (local_records gl mcerr lp fitted MCpars) (gObs gl)) s3).

(** **** Local fit of intensities *)

(** [c[:,4] = array([normal(y, ye) for y, ye in zip(d[:,4], d[:,5])])] *)
Definition corrupt_row (row : Int_row) (g : Rng) : Int_row * Rng :=
  let '(v, g') := normal (Ints row) (Ints_e row) g in
  ({| iOffs := iOffs row; iSLPs := iSLPs row; Dlys := Dlys row;
      Ints := v; Ints_e := Ints_e row |}, g').

Definition corrupt_decay (d : Decay) (g : Rng) : Decay * Rng :=
  let '(r0, g1) := corrupt_row (d_first d) g in
  let '(rs, g2) := for_rng corrupt_row (d_rest d) g1 in
  ({| d_first := r0; d_rest := rs |}, g2).

(** [ob.R1pD_MC = ob.R1pD.copy()], then the corruption of every decay. *)
Definition corrupt_Ints (ob : Fits) (g : Rng) : Fits * Rng :=
  let '(mc, g') := for_rng corrupt_decay (R1pD_ints ob) g in
  ({| FitNum := FitNum ob; lf := lf ob; time := time ob;
      AlignMag := AlignMag ob; R1pD := R1pD ob;
      R1pD_ints := R1pD_ints ob; R1p_MC := R1p_MC ob;
      R1pD_MC := mc |}, g').

Definition mc_round_localint (start : list float) (s : session)
    : option (list float * session) :=
  let '(obs, g) := for_rng corrupt_Ints (gObs (s_gl s)) (rng s) in
  let s' := with_rng g (with_gObs obs s) in
  refit <- least_squares (fun x => residual (s_gl s') x (Some true) "Ints")
             start (gBnds (s_gl s')) 10000 ;;
  Some (opt_x refit, s').

(** [fiterr] of the intensity fit without Monte-Carlo estimation; the
    test reads [ob.R1pD[:,0][:,5].sum()]. *)
Definition localint_fiterr (gl : Global) (ob : Fits)
    (fitted : OptimizeResult) : list float :=
  if negb (numpy_sum (map (fun d => Ints_e (d_first d)) (R1pD_ints ob)) =? 0)
  then
    cStdErr (opt_x fitted) (opt_fun fitted) (opt_jac fitted) (dof gl)
  else zeros (opt_x fitted).

Definition localint_records (gl : Global) (mcerr : bool) (lp : Z)
    (fitted : OptimizeResult) (MCpars : list (list float)) (ob : Fits)
    : list FitRecord :=
  let chisq := chi2 gl (opt_x fitted) (dataType gl) in
  let redChiSq := chisq / dof gl in
  let fiterr :=
    if negb mcerr then localint_fiterr gl ob fitted else std_axis0 MCpars in
  let mc :=
    if negb mcerr then []
    else
      let RCS_list :=
        map (fun _ => chi2 gl (opt_x fitted) (dataType gl) / dof gl) MCpars in
      mc_records gl ob fitted MCpars RCS_list fiterr in
  mc ++
  [{| rec_idx := lp + 1;
      rec_pars := UnpackgP0 (opt_x fitted) ob;
      rec_redChiSq := redChiSq;
      rec_nfev := opt_nfev fitted;
      rec_stage := "local"; rec_ob := FitNum ob;
      rec_errPars := Some (UnpackErr fiterr ob) |}].

Definition fit_localint (mcerr : bool) (fitMC : Z) (lp : Z) (s0 : session)
    : option session :=
  let s1 := print (Banner "localint" (lp + 1)) s0 in
  let '(tP0, g1) := initial_guess s1 in
  let s2 := with_rng g1 s1 in
  _ <- hd_error (gObs (s_gl s2)) ;;
  fitted <- least_squares (fun x => residual (s_gl s2) x None "Ints")
              tP0 (gBnds (s_gl s2)) 10000 ;;
  mc <- (if mcerr
         then mc_loop (mc_round_localint (opt_x fitted)) fitMC (range fitMC) [] s2
         else Some ([], s2)) ;;
  let '(MCpars, s3) := mc in
  let gl := s_gl s3 in
  Some (store_all
          (flat_map (localint_records gl mcerr lp fitted MCpars) (gObs gl)) s3).

(** **** Brute-force search *)

(** A Python [dict] with [float] keys, in insertion order. *)
Definition dict : Type := list (float * list float).

(** [d[k] = v]: the entry with an equal key is overwritten, a new key is
    added at the end. *)
Fixpoint dict_set (d : dict) (k : float) (v : list float) : dict :=
  match d with
  | [] => [(k, v)]
  | (k', v') :: d' =>
      if k' =? k then (k', v) :: d' else (k', v') :: dict_set d' k v
  end.

(** [d[min(d.keys())]]: the value under the least key, the first of them
    if several are least; [None] for the [ValueError] of an empty [min]. *)
Fixpoint least_entry (best : float * list float) (d : dict)
    : float * list float :=
  match d with
  | [] => best
  | e :: d' =>
      if fst e <? fst best then least_entry e d' else least_entry best d'
  end.

Definition dict_min_value (d : dict) : option (list float) :=
  match d with
  | [] => None
  | e :: d' => Some (snd (least_entry e d'))
  end.

(** [sorted(res)] on pairs with distinct indices: insertion by index. *)
Fixpoint insert_by_index {Y : Type} (p : nat * Y) (l : list (nat * Y))
    : list (nat * Y) :=
  match l with
  | [] => [p]
  | q :: l' =>
      if (fst p <=? fst q)%nat then p :: l else q :: insert_by_index p l'
  end.

Definition sorted {Y : Type} (res : list (nat * Y)) : list (nat * Y) :=
  fold_right insert_by_index [] res.

(** The results a pool of workers puts on [q_out]: the pairs
    [(i, f(x))] in the order [arrival] in which the workers finish;
    [None] if a worker dies of an exception. *)
Fixpoint collect {X Y : Type} (f : X -> option Y) (X_ : list X)
    (arrival : list nat) : option (list (nat * Y)) :=
  match arrival with
  | [] => Some []
  | i :: rest =>
      x <- nth_error X_ i ;;
      y <- f x ;;
      res <- collect f X_ rest ;;
      Some ((i, y) :: res)
  end.

(** [parmap(f, X)]: [[x for i,x in sorted(res)]]. *)
Definition parmap {X Y : Type} (f : X -> option Y) (X_ : list X)
    (arrival : list nat) : option (list Y) :=
  res <- collect f X_ arrival ;;
  Some (map snd (sorted res)).

(** The value [Brute_loop(idx)] sends back: the dictionary [allfits].
    (The records it unpacks stay in the worker process.) *)
Definition Brute_loop (gl : Global) (idx : nat) : option dict :=
  gf <- nth_error (brutegP0 gl) idx ;;
  fitted <- least_squares (fun x => residual gl x None "R1p")
              gf (gBnds gl) 1 ;;
  Some (fold_left (fun allfits ob =>
          let chisq := chi2 gl (opt_x fitted) "R1p" in
          let redChiSq := chisq / dof gl in
          dict_set allfits redChiSq gf) (gObs gl) []).

(** [tP0] of the last fit:
<<
  allfits = parmap(Brute_loop, list(range(len(gl.brutegP0))))
  allfits = dict(allfits[0])
  tP0 = allfits[min(allfits.keys())]
>> *)
Definition brute_seed (gl : Global) (arrival : list nat)
    : option (list float) :=
  allfits <- parmap (Brute_loop gl) (seq 0 (List.length (brutegP0 gl)))
               arrival ;;
  allfits0 <- hd_error allfits ;;
  dict_min_value allfits0.

(** The seed the specification asks for: every grid point scored by a
    fit of one evaluation, and the point of lowest reduced chi-square over
    the whole grid taken. *)
Definition grid_score (gl : Global) (gf : list float)
    : option (float * list float) :=
  fitted <- least_squares (fun x => residual gl x None "R1p")
              gf (gBnds gl) 1 ;;
  Some (chi2 gl (opt_x fitted) "R1p" / dof gl, gf).

Fixpoint all_scores (gl : Global) (grid : list (list float))
    : option (list (float * list float)) :=
  match grid with
  | [] => Some []
  | gf :: grid' =>
      sc <- grid_score gl gf ;;
      rest <- all_scores gl grid' ;;
      Some (sc :: rest)
  end.

Definition seed_as_specified (gl : Global) : option (list float) :=
  scored <- all_scores gl (brutegP0 gl) ;;
  dict_min_value scored.

Definition fit_brute (arrival : list nat) (lp : Z) (s0 : session)
    : option session :=
  let gl := s_gl s0 in
  let s1 := print (Text "--- BRUTE FORCE PARAMETER SPACE ---") s0 in
  tP0 <- brute_seed gl arrival ;;
  let s2 := print (Text "Lowest red. chi-square found. Minimizing within bounds.") s1 in
  let lastval := (Z.of_nat (List.length (brutegP0 gl)) + 1)%Z in
  fitted <- least_squares (fun x => residual gl x None "R1p")
              tP0 (gBnds gl) 10000 ;;
  Some (store_all
    (map (fun ob =>
       let chisq := chi2 gl (opt_x fitted) "R1p" in
       let fiterr := cStdErr (opt_x fitted) (opt_fun fitted)
                       (opt_jac fitted) (dof gl) in
       {| rec_idx := lastval;
          rec_pars := UnpackgP0 (opt_x fitted) ob;
          rec_redChiSq := chisq / dof gl;
          rec_nfev := opt_nfev fitted;
          rec_stage := "local"; rec_ob := FitNum ob;
          rec_errPars := Some (UnpackErr fiterr ob) |}) (gObs gl)) s2).

(** **** The primary fitting loop *)

(** What the command line and the scheduler contribute to a run:
    [mcerr] and [fitMC] (from [-fitmc] and its count), and the order in
    which the workers of each brute-force pass finish. *)
Record run_inputs : Type := mkInputs {
  mcerr : bool;
  fitMC : Z;
  arrival : Z -> list nat
}.

(** The body of [for lp in range(gl.FitLoops)]. *)
Definition fit_iteration (inp : run_inputs) (lp : Z) (s : session)
    : option session :=
  let ft := FitType (s_gl s) in
  if String.eqb ft "global" then fit_global (mcerr inp) lp s
  else if String.eqb ft "local" then fit_local (mcerr inp) (fitMC inp) lp s
  else if String.eqb ft "localint" then
    fit_localint (mcerr inp) (fitMC inp) lp s
  else if (String.eqb ft "bruteint" || String.eqb ft "bruteintp")%bool then
    Some s
  else if (String.eqb ft "brute" || String.eqb ft "brutep")%bool then
    fit_brute (arrival inp lp) lp s
  else
    Some (print (Text "Fit Type not declared properly (global or local)") s).

Fixpoint fit_loops (inp : run_inputs) (lps : list Z) (s : session)
    : option session :=
  match lps with
  | [] => Some s
  | lp :: lps' =>
      s' <- fit_iteration inp lp s ;;
      fit_loops inp lps' s'
  end.

(** The fitting loop of [Main], from the state the set-up leaves. *)
Definition Main_fit (inp : run_inputs) (gl : Global) (g : Rng)
    : option session :=
  fit_loops inp (range (FitLoops gl))
    {| s_gl := gl; fits := []; written := []; stdout := []; rng := g |}.
End Fitting.

End BMNS.

(** ** src/Errors.py: the checks on the command line *)
Module Errors.

(** The part of [os.path] the checks call. *)
Class FileSystem : Type := {
  (** [os.path.join(a, b)] *)
  join : string -> string -> string;
  (** [os.path.isfile(path)] *)
  isfile : string -> bool;
  (** [os.path.isdir(path)] *)
  isdir : string -> bool
}.

(** What the checks print, one constructor for each text; the paths and
    words filled in by [%s] are arguments. *)
Inductive message : Type :=
| WrongArgumentCount (how : string)
| FitFileMissing (path : string)
| DataFileMissing (path : string)
| OutputPathIsFile (path : string)
| TooFewArguments
| ParameterFileMissing
| DataDirectoryMissing
| EmptyLine
| Given (text : string).

(** How a call ends: it returns, [sys.exit(code)] is called, or an
    exception leaves it. *)
Inductive exn : Type :=
| IndexError
| UnboundLocalError.

Inductive ending : Type :=
| Returns
| Exits (code : Z)
| Raises (e : exn).

(** What was printed, in order, and how the call ended. *)
Definition outcome : Type := (list message * ending)%type.

Section Checks.
Context `{FileSystem}.

(** [sys.argv]: both checks index it, not their parameter [argv]. *)
Variable sys_argv : list string.

(** [CheckErrArgs(curDir, argc, argv)].  [tstr] is assigned only where
    [argc != 6]; the closing [print(tstr)] after a failed check of the
    files finds it unbound. *)
Definition CheckErrArgs (curDir : string) (argc : Z) (argv : list string)
    : outcome :=
  if negb (argc =? 6)%Z then
    let tstr :=
      WrongArgumentCount
        (if (argc <? 6)%Z then "Too few" else "Too many")%string in
    ([tstr], Exits (-1))
  else
    match nth_error sys_argv 2 with
    | None => ([], Raises IndexError)
    | Some fit =>
        let no_fit := negb (isfile (join curDir fit)) in
        let out1 :=
          if no_fit then [FitFileMissing (join curDir fit)] else [] in
        match nth_error sys_argv 3 with
        | None => (out1, Raises IndexError)
        | Some data =>
            let no_data := negb (isfile (join curDir data)) in
            let out2 :=
              out1 ++
              (if no_data then [DataFileMissing (join curDir data)] else []) in
            match nth_error sys_argv 4 with
            | None => (out2, Raises IndexError)
            | Some out =>
                let out_is_file := isfile (join curDir out) in
                let out3 :=
                  out2 ++
                  (if out_is_file then [OutputPathIsFile (join curDir out)]
                   else []) in
                let exitBool := (no_fit || no_data || out_is_file)%bool in
                if exitBool then (out3, Raises UnboundLocalError)
                else (out3, Returns)
            end
        end
    end.

(** [CheckArgs(curDir, argc, argv)] *)
Definition CheckArgs (curDir : string) (argc : Z) (argv : list string)
    : outcome :=
  if ((2 <=? argc)%Z && (argc <=? 3)%Z)%bool then
    ([TooFewArguments; EmptyLine], Exits (-1))
  else
    match nth_error sys_argv 2 with
    | None => ([], Raises IndexError)
    | Some par =>
        let no_par := negb (isfile (join curDir par)) in
        let out1 := if no_par then [ParameterFileMissing] else [] in
        match nth_error sys_argv 3 with
        | None => (out1, Raises IndexError)
        | Some data =>
            let no_data := negb (isdir (join curDir data)) in
            let out2 :=
              out1 ++ (if no_data then [DataDirectoryMissing] else []) in
            let exitBool := (no_par || no_data)%bool in
            if exitBool then (out2 ++ [EmptyLine], Exits (-1))
            else (out2, Returns)
        end
    end.

(** [HandleErrors(exitBool, message)] *)
Definition HandleErrors (exitBool : bool) (text : string) : outcome :=
  if exitBool then ([Given text], Exits (-1)) else ([], Returns).
End Checks.

End Errors.

(** ** Stand-ins for the collaborators

    Concrete solvers, simulator and data on which the definitions above can
    be run. *)
Module Examples.
Import BMNS.
Local Open Scope float_scope.

(** A local solver that evaluates its objective once and stays where it
    starts; every random draw is [0.5] in each coordinate. *)
#[export] Instance stay_put : AMPGO.Solvers unit nat := {|
  AMPGO.SCIPY := true;
  AMPGO.OPENOPT := false;
  AMPGO.NLP__solve := fun f x _ _ _ _ _ _ => (x, f x, 1%Z);
  AMPGO.NLP_solve := fun f x _ _ _ _ _ _ => (x, f x, 1%Z);
  AMPGO.minimize := fun f x _ _ _ _ _ _ => (x, f x, 1%Z);
  AMPGO.uniform := fun g n => (repeat 0.5 n, S g)
|}.

(** A simulator whose predicted rate is the square root of the first
    parameter, hence [NaN] for a negative one, as a logarithm of a
    magnetisation that has crossed zero would be; parameters are unpacked
    unchanged; [least_squares] evaluates the residual at the start point
    and returns it. *)
#[export] Instance root_model : Collaborators nat := {|
  UnpackgP0 := fun Params _ => Params;
  UnpackErr := fun fiterr _ => fiterr;
  BMFitFunc := fun tPars _ _ _ _ _ _ _ => PrimFloat.sqrt (hd 0 tPars);
  LagFitFunc := fun tPars _ _ _ _ _ _ _ => PrimFloat.sqrt (hd 0 tPars);
  BMFitFunc_ints := fun tPars _ _ _ Dlys _ =>
    map (fun _ => PrimFloat.sqrt (hd 0 tPars)) Dlys;
  least_squares := fun f start _ _ =>
    match f start with
    | Some r => Some {| opt_x := start; opt_fun := r; opt_jac := [];
                        opt_nfev := 1 |}
    | None => None
    end;
  cStdErr := fun x _ _ _ => map (fun _ => 1) x;
  std_axis0 := fun M => map (fun _ => 0) (hd [] M);
  RandomgP0 := fun g => ([1], S g);
  normal := fun mu _ g => (mu, S g)
|}.

(** One dataset of two points, both with rate [1.0] and uncertainty [1.0]. *)
Definition two_points : Fits :=
  {| FitNum := 0; lf := 600; time := [0.1]; AlignMag := "auto";
     R1pD := [ {| Offs := 100; Spinlock := 500; R1p := 1; R1p_e := 1 |};
               {| Offs := 200; Spinlock := 500; R1p := 1; R1p_e := 1 |} ];
     R1pD_ints := []; R1p_MC := []; R1pD_MC := [] |}.

(** A single point of rate [1.0] and uncertainty [2.0]. *)
Definition one_point : Fits :=
  {| FitNum := 0; lf := 600; time := [0.1]; AlignMag := "auto";
     R1pD := [ {| Offs := 100; Spinlock := 500; R1p := 1; R1p_e := 2 |} ];
     R1pD_ints := []; R1p_MC := []; R1pD_MC := [] |}.

(** Eight points whose uncertainties, one of them negative as no measured
    one is, add up to zero the way numpy adds and to [-1.0] in index
    order. *)
Definition cancelling_errors : Fits :=
  {| FitNum := 0; lf := 600; time := [0.1]; AlignMag := "auto";
     R1pD := map (fun e => {| Offs := 100; Spinlock := 500; R1p := 1;
                              R1p_e := e |})
               [1; 1e16; -1e16; -1; 0; 0; 0; 0];
     R1pD_ints := []; R1p_MC := []; R1pD_MC := [] |}.

(** The same points without uncertainties. *)
Definition two_points_no_error : Fits :=
  {| FitNum := 0; lf := 600; time := [0.1]; AlignMag := "auto";
     R1pD := [ {| Offs := 100; Spinlock := 500; R1p := 1; R1p_e := 0 |};
               {| Offs := 200; Spinlock := 500; R1p := 1; R1p_e := 0 |} ];
     R1pD_ints := []; R1p_MC := []; R1pD_MC := [] |}.

(** A set-up with one free parameter between [0] and [100], and a
    brute-force grid of two points: the first predicts [3.0] at both points
    of the data, the second is the planted optimum, predicting [1.0]. *)
Definition setup (fit_type : string) (obs : list Fits) : Global :=
  {| gObs := obs; FitType := fit_type; FitLoops := 1; rndStart := false;
     gP0 := [4]; gBnds := ([0], [100]); dof := 1; gFitEqn := "bm";
     brutegP0 := [[9]; [1]] |}.

(** A command line without and with [-fitmc]. *)
Definition plain_run : run_inputs :=
  {| mcerr := false; fitMC := 1; arrival := fun _ => [0; 1]%nat |}.
Definition fitmc_run : run_inputs :=
  {| mcerr := true; fitMC := 100; arrival := fun _ => [1; 0]%nat |}.

(** A call of [AMPGO] on the sum of squares with [bounds] given. *)
Definition bounded_args (b : list AMPGO.bound) (start : list float)
    : @AMPGO.Args unit :=
  {| AMPGO.objfun := fun x => vsum (map sqr x); AMPGO.x0 := start;
     AMPGO.local := "L-BFGS-B"; AMPGO.local_opts := None;
     AMPGO.bounds := Some b; AMPGO.maxfunevals := None;
     AMPGO.totaliter := 20; AMPGO.maxiter := 5; AMPGO.glbtol := 1e-5;
     AMPGO.eps1 := 0.02; AMPGO.eps2 := 0.1; AMPGO.tabulistsize := 5;
     AMPGO.tabustrategy := "farthest"; AMPGO.fmin := neg_infinity;
     AMPGO.disp := None |}.

(** An objective of one variable that rises slowly from its value [1.0]
    at [1.0]. *)
Definition slope (x : list float) : float := 1 + 1e-5 * (hd 0 x - 1).

(** One dataset of intensities: one decay of two delays, both of
    intensity [3.0] and uncertainty [1.0]. *)
Definition one_decay : Fits :=
  {| FitNum := 0; lf := 600; time := [0.1]; AlignMag := "auto"; R1pD := [];
     R1pD_ints :=
       [ {| d_first := {| iOffs := 100; iSLPs := 500; Dlys := 0.01;
                          Ints := 3; Ints_e := 1 |};
            d_rest := [ {| iOffs := 100; iSLPs := 500; Dlys := 0.02;
                           Ints := 3; Ints_e := 1 |} ] |} ];
     R1p_MC := []; R1pD_MC := [] |}.

(** The session the fitting loop starts from. *)
Definition fresh (gl : Global) : @session nat :=
  {| s_gl := gl; fits := []; written := []; stdout := []; rng := 0%nat |}.

(** A directory that holds the parameter file [pars.txt] and the data
    directory [data]; paths are joined with a slash. *)
#[export] Instance small_disk : Errors.FileSystem := {|
  Errors.join := fun a b => (a ++ "/" ++ b)%string;
  Errors.isfile := fun p => String.eqb p "/home/pars.txt";
  Errors.isdir := fun p => String.eqb p "/home/data"
|}.

End Examples.

(** ** Proof automation

    Case analysis on specified binary64 values and on the comparisons of
    their exponents and mantissas. *)
Ltac sf_cases :=
  repeat match goal with
  | s : spec_float |- _ => destruct s as [[|]|[|]| |[|] ? ?]
  end;
  cbn [SFcompare SFltb SFleb SFeqb].

Ltac cmp_cases :=
  repeat match goal with
  | |- context [PosDef.Pos.compare_cont Eq ?a ?b] =>
      change (PosDef.Pos.compare_cont Eq a b) with (Pos.compare a b)
  | |- context [Z.compare ?a ?b] =>
      let H := fresh in
      pose proof (Z.compare_spec a b) as H;
      destruct (Z.compare a b); inversion H; clear H
  | |- context [Pos.compare ?a ?b] =>
      let H := fresh in
      pose proof (Pos.compare_spec a b) as H;
      destruct (Pos.compare a b); inversion H; clear H
  end;
  cbn [CompOpp]; intros; try reflexivity; try discriminate; try lia.

(** The specified values that are an infinity or [NaN]. *)
Definition SFnot_finite (s : spec_float) : bool :=
  match s with
  | S754_nan | S754_infinity _ => true
  | _ => false
  end.

(** * Properties *)

(** ** Order of binary64 values *)
Module FloatFacts.

Lemma SFltb_irrefl (a : spec_float) : SFltb a a = false.
Proof.
  sf_cases; try reflexivity; cmp_cases.
Qed.

Lemma SFleb_SFltb (a b : spec_float) :
  SFleb a b = true -> SFltb b a = false.
Proof.
  sf_cases; try (intros; reflexivity); try discriminate; cmp_cases.
Qed.

Lemma SFleb_false_SFltb (a b c : spec_float) :
  SFleb a b = false -> SFeqb b b = true -> SFltb b c = false ->
  SFltb a c = false.
Proof.
  sf_cases; try (intros; reflexivity); try discriminate; cmp_cases.
Qed.

Lemma ltb_irrefl (x : float) : (x <? x)%float = false.
Proof. rewrite ltb_spec. apply SFltb_irrefl. Qed.

Lemma leb_ltb (x m : float) :
  (x <=? m)%float = true -> (m <? x)%float = false.
Proof. rewrite leb_spec, ltb_spec. apply SFleb_SFltb. Qed.

Lemma is_nan_false (m : float) :
  is_nan m = false -> SFeqb (Prim2SF m) (Prim2SF m) = true.
Proof.
  unfold is_nan. rewrite eqb_spec. intros E.
  apply negb_false_iff in E. exact E.
Qed.

Lemma is_nan_ltb (m y : float) :
  is_nan m = true -> (m <? y)%float = false.
Proof.
  unfold is_nan. rewrite eqb_spec, ltb_spec. intros E.
  apply negb_true_iff in E. revert E.
  generalize (Prim2SF m) (Prim2SF y). intros a b.
  sf_cases; try (intros; reflexivity); try discriminate; cmp_cases.
Qed.

(** If [x] takes the place of the maximum [m], whatever [m] was not below
    is not above [x]. *)
Lemma leb_false_ltb (x m y : float) :
  (x <=? m)%float = false -> is_nan m = false -> (m <? y)%float = false ->
  (x <? y)%float = false.
Proof.
  intros A B C. apply is_nan_false in B.
  rewrite leb_spec in A. rewrite ltb_spec in C. rewrite ltb_spec.
  exact (SFleb_false_SFltb _ _ _ A B C).
Qed.

Lemma SFltb_false_SFleb (a b : spec_float) :
  SFeqb a a = true -> SFeqb b b = true -> SFltb a b = false ->
  SFleb b a = true.
Proof.
  sf_cases; try (intros; reflexivity); try discriminate; cmp_cases.
Qed.

(** Among numbers, not below means at least. *)
Lemma ltb_false_leb (x y : float) :
  is_nan x = false -> is_nan y = false -> (x <? y)%float = false ->
  (y <=? x)%float = true.
Proof.
  intros A B C. apply is_nan_false in A. apply is_nan_false in B.
  rewrite ltb_spec in C. rewrite leb_spec.
  exact (SFltb_false_SFleb _ _ A B C).
Qed.

(** Nothing is below [-inf + g], whatever [g] is. *)
Lemma ltb_neg_infinity_plus (x g : float) :
  (x <? neg_infinity + g)%float = false.
Proof.
  rewrite ltb_spec, add_spec.
  change (Prim2SF neg_infinity) with (S754_infinity true).
  generalize (Prim2SF x) (Prim2SF g). intros a b.
  unfold SF64add.
  destruct b as [[|]|[|]| |[|] ? ?]; cbn [SFadd];
    destruct a as [[|]|[|]| |[|] ? ?]; reflexivity.
Qed.

End FloatFacts.

(** ** Sums of arrays *)
Module SumFacts.
Local Open Scope float_scope.

Section Sums.
Context {A : Type} `{Arith A}.

(** The recursion of [pairwise_sum] never runs out of a fuel of the length
    of the array. *)
Lemma pairwise_sum_fuel (fuel fuel' : nat) (l : list A) :
  (List.length l <= fuel)%nat -> (List.length l <= fuel')%nat ->
  pairwise_sum fuel l = pairwise_sum fuel' l.
Proof.
  revert fuel' l. induction fuel as [|fuel IH]; intros fuel' l L L'.
  - destruct l; [|simpl in L; lia]. destruct fuel'; reflexivity.
  - destruct fuel' as [|fuel'].
    + destruct l; [|simpl in L'; lia]. reflexivity.
    + cbn [pairwise_sum].
      destruct (List.length l <? 8)%nat; [reflexivity|].
      destruct (Nat.leb_spec (List.length l) 128) as [S|B]; [reflexivity|].
      set (n := List.length l) in *.
      pose proof (Nat.div_mod_eq n 2) as D.
      pose proof (Nat.mod_upper_bound n 2) as U.
      pose proof (Nat.mod_upper_bound (n / 2) 8) as V.
      pose proof (Nat.Div0.mod_le (n / 2) 8) as W.
      assert (P : (0 < n / 2 - (n / 2) mod 8 < n)%nat) by lia.
      rewrite (IH fuel' (firstn _ l)), (IH fuel' (skipn _ l));
        rewrite ?length_firstn, ?length_skipn; fold n; try lia.
      reflexivity.
Qed.

(** Up to seven entries are added up in index order. *)
Lemma numpy_sum_short (l : list A) :
  (List.length l < 8)%nat -> numpy_sum l = nadd nzero (vsum l).
Proof.
  intros L. unfold numpy_sum, vsum.
  destruct l as [|x l]; [reflexivity|].
  cbn [List.length pairwise_sum].
  apply Nat.ltb_lt in L. cbn [List.length] in L. rewrite L. reflexivity.
Qed.
End Sums.

(** From eight entries on the order is another, and so can the sum be:
    added in pairs, the entries [1] and [-1] are both absorbed by their
    large neighbours; added in index order, the entry [-1] comes after
    the large ones have cancelled. *)
Example numpy_sum_pairs_up :
  numpy_sum [1; 1e16; -1e16; -1; 0; 0; 0; 0] = 0 /\
  vsum [1; 1e16; -1e16; -1; 0; 0; 0; 0] = -1.
Proof. split; reflexivity. Qed.

End SumFacts.

(** ** The tunnelling transform in binary64 *)
Module TunnelFacts.
Import AMPGO.
Local Open Scope float_scope.

(** The round trip through [tunnel] and [inverse_tunnel] gives the
    objective back on some inputs. *)
Example inverse_tunnel_binary64 :
  inverse_tunnel [1] (tunnel [1] (fun _ => 3) 1 [[0]]) 1 [[0]] = 3.
Proof. reflexivity. Qed.

(** On others it is off in the last place: the quotient, the product and
    the square root are each rounded. *)
Example inverse_tunnel_binary64_rounds :
  (inverse_tunnel [3] (tunnel [3] (fun _ => 2.5) 0.1 [[0.3]]) 0.1 [[0.3]]
   =? 2.5) = false /\
  (abs (inverse_tunnel [3] (tunnel [3] (fun _ => 2.5) 0.1 [[0.3]])
          0.1 [[0.3]] - 2.5)
   <? 1e-15) = true.
Proof. split; reflexivity. Qed.

(** A gap to the aspiration value whose square underflows is lost. *)
Example inverse_tunnel_binary64_underflows :
  tunnel [1] (fun _ => 1e-170) 0 [[0]] = 0 /\
  inverse_tunnel [1] (tunnel [1] (fun _ => 1e-170) 0 [[0]]) 0 [[0]] = 0.
Proof. split; reflexivity. Qed.

(** With such a gap the transformed objective is the same at distance 1
    and at distance 2 of the tabu point. *)
Example tunnel_binary64_flat :
  (dist [1] [0] <? dist [2] [0]) = true /\
  (1e-170 =? 0) = false /\
  tunnel [2] (fun _ => 1e-170) 0 [[0]] = tunnel [1] (fun _ => 1e-170) 0 [[0]].
Proof. repeat split; reflexivity. Qed.

(** Two distances that differ give the same quotient, not zero, once it
    is rounded. *)
Example tunnel_binary64_ties :
  (dist [1] [0] <? dist [1.0000000000000002] [0]) = true /\
  (tunnel [1] (fun _ => 1e-155) 0 [[0]] =? 0) = false /\
  tunnel [1.0000000000000002] (fun _ => 1e-155) 0 [[0]]
  = tunnel [1] (fun _ => 1e-155) 0 [[0]].
Proof. repeat split; reflexivity. Qed.

End TunnelFacts.

(** ** The tabu list *)
Module TabuFacts.
Import AMPGO FloatFacts.

Lemma pop_length {X : Type} (k : nat) (l : list X) :
  (k < List.length l)%nat -> S (List.length (pop k l)) = List.length l.
Proof.
  revert k; induction l as [|h t IH]; intros k L; simpl in L; [lia|].
  destruct k as [|k]; simpl; [reflexivity|].
  rewrite IH by lia. reflexivity.
Qed.

Lemma pop_firstn_skipn {X : Type} (k : nat) (l : list X) :
  pop k l = firstn k l ++ skipn (S k) l.
Proof.
  revert k; induction l as [|h t IH]; intros [|k]; simpl; try reflexivity.
  rewrite IH. reflexivity.
Qed.

(** The index [argmax_from] ends with holds a value no scanned value is
    strictly above. *)
Lemma argmax_from_max (l pre : list float) (mp : float) (mi : nat) :
  (mi < List.length pre)%nat ->
  nth mi pre 0%float = mp ->
  (forall y, In y pre -> (mp <? y)%float = false) ->
  let k := argmax_from mp mi (List.length pre) l in
  (k < List.length (pre ++ l))%nat /\
  forall y, In y (pre ++ l) -> (nth k (pre ++ l) 0 <? y)%float = false.
Proof.
  revert pre mp mi; induction l as [|x l IH]; intros pre mp mi L E M; cbn zeta.
  - simpl. rewrite app_nil_r. split; [exact L|]. rewrite E. exact M.
  - simpl argmax_from.
    destruct (is_nan mp) eqn:N.
    + split; [rewrite length_app; lia|].
      intros y _. rewrite app_nth1 by exact L. rewrite E.
      apply is_nan_ltb; exact N.
    + replace (pre ++ x :: l) with ((pre ++ [x]) ++ l)
        by (rewrite <- app_assoc; reflexivity).
      replace (S (List.length pre)) with (List.length (pre ++ [x]))
        by (rewrite length_app; simpl; lia).
      destruct (x <=? mp)%float eqn:C; cbn [negb].
      * apply IH.
        -- rewrite length_app; lia.
        -- rewrite app_nth1 by exact L. exact E.
        -- intros y I. apply in_app_or in I. destruct I as [I|[I|[]]].
           ++ apply M; exact I.
           ++ subst y. apply leb_ltb; exact C.
      * apply IH.
        -- rewrite length_app; simpl; lia.
        -- rewrite app_nth2 by lia. rewrite Nat.sub_diag. reflexivity.
        -- intros y I. apply in_app_or in I. destruct I as [I|[I|[]]].
           ++ apply (leb_false_ltb x mp y C N). apply M; exact I.
           ++ subst y. apply ltb_irrefl.
Qed.

Lemma argmax_max (l : list float) :
  l <> [] ->
  exists k, argmax l = Some k /\ (k < List.length l)%nat /\
    forall y, In y l -> (nth k l 0 <? y)%float = false.
Proof.
  destruct l as [|x l]; intros NE; [congruence|].
  exists (argmax_from x 0 1 l). split; [reflexivity|].
  apply (argmax_from_max l [x] x 0).
  - simpl; lia.
  - reflexivity.
  - intros y [I|[]]. subst y. apply ltb_irrefl.
Qed.

(** What [drop_tabu_points] does to a list that is not shorter than
    [tabulistsize]. *)
Lemma drop_full (xf : list float) (T : list (list float)) (size : Z)
    (strategy : string) :
  (1 <= size)%Z -> (size <= Z.of_nat (List.length T))%Z ->
  exists k,
    (k < List.length T)%nat /\
    drop_tabu_points xf T size strategy = Some (pop k T) /\
    (strategy = "oldest"%string -> k = 0%nat) /\
    (strategy <> "oldest"%string ->
     forall tabu, In tabu T ->
       (dist (nth k T []) xf <? dist tabu xf)%float = false) /\
    (strategy <> "oldest"%string ->
     (forall tabu, In tabu T -> is_nan (dist tabu xf) = false) ->
     forall tabu, In tabu T ->
       (dist tabu xf <=? dist (nth k T []) xf)%float = true).
Proof.
  intros S1 Full.
  cut (exists k,
    (k < List.length T)%nat /\
    drop_tabu_points xf T size strategy = Some (pop k T) /\
    (strategy = "oldest"%string -> k = 0%nat) /\
    (strategy <> "oldest"%string ->
     forall tabu, In tabu T ->
       (dist (nth k T []) xf <? dist tabu xf)%float = false)).
  { intros (k & L & D & O & F). exists k. repeat split; try assumption.
    intros New Num tabu I. apply ltb_false_leb.
    - apply Num. apply nth_In. exact L.
    - apply Num. exact I.
    - apply F; assumption. }
  unfold drop_tabu_points.
  destruct (Z.ltb_spec (Z.of_nat (List.length T)) size) as [Lt|_]; [lia|].
  assert (NE : T <> []) by (intros ->; simpl in Full; lia).
  destruct (String.eqb_spec strategy "oldest") as [Old|New].
  - exists 0%nat. destruct T as [|t T]; [congruence|].
    repeat split; simpl; try lia. intros; contradiction.
  - destruct (argmax_max (map (fun tabu => dist tabu xf) T)) as (k & A & L & M).
    { destruct T; [congruence|discriminate]. }
    rewrite length_map in L.
    exists k. cbn zeta. rewrite A. repeat split; try assumption.
    + intros; contradiction.
    + intros _ tabu I.
      specialize (M (dist tabu xf) (in_map _ _ _ I)).
      rewrite (nth_indep _ 0%float (dist [] xf)) in M
        by (rewrite length_map; exact L).
      rewrite (map_nth (fun tabu => dist tabu xf)) in M. exact M.
Qed.

Lemma drop_short (xf : list float) (T : list (list float)) (size : Z)
    (strategy : string) :
  (Z.of_nat (List.length T) < size)%Z ->
  drop_tabu_points xf T size strategy = Some T.
Proof.
  intros Lt. unfold drop_tabu_points.
  destruct (Z.ltb_spec (Z.of_nat (List.length T)) size); [reflexivity|lia].
Qed.

(** A drop followed by an append keeps the list within [tabulistsize]. *)
Lemma drop_append_bounded (xf : list float) (T : list (list float))
    (size : Z) (strategy : string) :
  (1 <= size)%Z -> (Z.of_nat (List.length T) <= size)%Z ->
  exists T', drop_tabu_points xf T size strategy = Some T' /\
    (Z.of_nat (List.length (T' ++ [xf])) <= size)%Z.
Proof.
  intros S1 B.
  destruct (Z.lt_ge_cases (Z.of_nat (List.length T)) size) as [Lt|Ge].
  - exists T. split; [apply drop_short; exact Lt|].
    rewrite length_app; simpl. lia.
  - destruct (drop_full xf T size strategy S1 Ge) as (k & L & D & _).
    exists (pop k T). split; [exact D|].
    pose proof (pop_length k T L) as P.
    rewrite length_app; simpl. lia.
Qed.

End TabuFacts.

(** ** Runs of the optimiser *)
Module RunFacts.
Import AMPGO FloatFacts TabuFacts Examples.

Section Runs.
Context {Opts Rng : Type} `{Solvers Opts Rng}.
Variable a : @Args Opts.

(** *** What a step can do *)

(** Every way out of [minimization], spelt out. *)
Lemma minimization_cases (s : state) :
  (exists r g, minimization a s = Return r g /\
     (res_msg r = msg_success /\ reached a (res_f r) = true \/
      res_msg r = msg_maxfunevals)) \/
  (exists s', minimization a s = Continue Tunnelling s' /\
     global_iter s' = global_iter s /\ st_i s' = 0%Z /\
     exists xf tl,
       drop_tabu_points xf (tabulist s) (tabulistsize a) (tabustrategy a)
         = Some tl /\ tabulist s' = tl ++ [xf]) \/
  (minimization a s = Raise EmptyTabuList /\
   exists xf,
     drop_tabu_points xf (tabulist s) (tabulistsize a) (tabustrategy a)
       = None).
Proof.
  unfold minimization.
  destruct (local_solve a true (objfun a) (st_x0 s) (st_maxfunevals s))
    as [[xf yf] num_fun].
  destruct (reached a (if (yf <? best_f s)%float then yf else best_f s))
    eqn:R.
  { left. eexists; eexists. split; [reflexivity|]. left. simpl. auto. }
  destruct (st_maxfunevals s - num_fun <=? 0)%Z.
  { left. eexists; eexists. split; [reflexivity|]. right. reflexivity. }
  destruct (drop_tabu_points xf (tabulist s) (tabulistsize a)
              (tabustrategy a)) as [tl|] eqn:D.
  - right; left. eexists. split; [reflexivity|]. simpl.
    repeat split. exists xf, tl. auto.
  - right; right. split; [reflexivity|]. exists xf. exact D.
Qed.

(** Every way out of [tunnelling], spelt out. *)
Lemma tunnelling_cases (s : state) :
  (exists r g, tunnelling a s = Return r g /\
     (res_msg r = msg_success /\ reached a (res_f r) = true \/
      res_msg r = msg_maxfunevals \/ res_msg r = msg_totaliter)) \/
  (exists s', tunnelling a s = Continue Tunnelling s' /\
     (st_i s < maxiter a)%Z /\
     global_iter s' = global_iter s /\ st_i s' = (st_i s + 1)%Z /\
     exists xf tl,
       drop_tabu_points xf (tabulist s) (tabulistsize a) (tabustrategy a)
         = Some tl /\ tabulist s' = tl ++ [xf]) \/
  (exists s', tunnelling a s = Continue Minimization s' /\
     global_iter s' = (global_iter s + 1)%Z /\
     (global_iter s + 1 < totaliter a)%Z /\
     tabulist s' = tabulist s) \/
  (tunnelling a s = Raise EmptyTabuList /\
   exists xf,
     drop_tabu_points xf (tabulist s) (tabulistsize a) (tabustrategy a)
       = None).
Proof.
  unfold tunnelling.
  destruct ((st_i s <? maxiter a)%Z && (improve s =? 0)%Z)%bool eqn:C.
  - apply andb_true_iff in C. destruct C as [C _].
    apply Z.ltb_lt in C.
    destruct (uniform (st_rng s) (List.length (x0 a))) as [r rng'].
    match goal with
    | |- context [local_solve a false ?f ?x ?b] =>
        destruct (local_solve a false f x b) as [[xf ytf] num_fun]
    end.
    match goal with
    | |- context [if reached a ?bf then _ else _] =>
        destruct (reached a bf) eqn:R
    end.
    { left. eexists; eexists. split; [reflexivity|]. left. simpl. auto. }
    destruct (st_maxfunevals s - num_fun <=? 0)%Z.
    { left. eexists; eexists. split; [reflexivity|]. right; left.
      reflexivity. }
    destruct (drop_tabu_points xf (tabulist s) (tabulistsize a)
                (tabustrategy a)) as [tl|] eqn:D.
    + right; left. eexists. split; [reflexivity|]. simpl.
      repeat split; try assumption. exists xf, tl. auto.
    + right; right; right. split; [reflexivity|]. exists xf. exact D.
  - cbn [global_iter best_f].
    destruct (Z.leb_spec (totaliter a) (global_iter s + 1)) as [Le|Gt].
    { left. eexists; eexists. split; [reflexivity|]. right; right.
      reflexivity. }
    destruct (reached a (best_f s)) eqn:R.
    { left. eexists; eexists. split; [reflexivity|]. left. simpl. auto. }
    right; right; left. eexists. split; [reflexivity|]. simpl. auto.
Qed.

(** *** The tabu list stays within its size *)

Lemma step_tabu_bounded (c c' : control) (s s' : state) :
  (1 <= tabulistsize a)%Z ->
  (Z.of_nat (List.length (tabulist s)) <= tabulistsize a)%Z ->
  step a c s = Continue c' s' ->
  (Z.of_nat (List.length (tabulist s')) <= tabulistsize a)%Z.
Proof.
  intros S1 B E.
  assert (K : forall xf tl,
    drop_tabu_points xf (tabulist s) (tabulistsize a) (tabustrategy a)
      = Some tl ->
    (Z.of_nat (List.length (tl ++ [xf])) <= tabulistsize a)%Z).
  { intros xf tl D.
    destruct (drop_append_bounded xf (tabulist s) (tabulistsize a)
                (tabustrategy a) S1 B) as (T' & D' & L).
    rewrite D in D'. injection D' as ->. exact L. }
  destruct c; simpl in E.
  - destruct (minimization_cases s)
      as [(r & g & R & _)|[(s1 & C & _ & _ & xf & tl & D & T)|[R _]]];
      rewrite E in *; try discriminate.
    injection C as _ <-. rewrite T. apply K; exact D.
  - destruct (tunnelling_cases s)
      as [(r & g & R & _)
         |[(s1 & C & _ & _ & _ & xf & tl & D & T)
          |[(s1 & C & _ & _ & T)|[R _]]]];
      rewrite E in *; try discriminate.
    + injection C as _ <-. rewrite T. apply K; exact D.
    + injection C as _ <-. rewrite T. exact B.
Qed.

Lemma reachable_tabu_bounded (g : Rng) (c : control) (s : state) :
  (1 <= tabulistsize a)%Z ->
  reachable a g c s ->
  (Z.of_nat (List.length (tabulist s)) <= tabulistsize a)%Z.
Proof.
  intros S1 R. induction R as [|c s c' s' R IH E].
  - simpl. lia.
  - exact (step_tabu_bounded c c' s s' S1 IH E).
Qed.

Lemma drop_some (xf : list float) (T : list (list float)) (size : Z)
    (strategy : string) :
  (1 <= size)%Z -> drop_tabu_points xf T size strategy <> None.
Proof.
  intros S1.
  destruct (Z.lt_ge_cases (Z.of_nat (List.length T)) size) as [Lt|Ge].
  - rewrite drop_short by exact Lt. discriminate.
  - destruct (drop_full xf T size strategy S1 Ge) as (k & _ & D & _).
    rewrite D. discriminate.
Qed.

(** *** Termination *)

Lemma step_decreases (c c' : control) (s s' : state) :
  step a c s = Continue c' s' ->
  (passes_left a c' s' < passes_left a c s)%nat.
Proof.
  intros E. destruct c; simpl in E.
  - destruct (minimization_cases s)
      as [(r & g & R & _)|[(s1 & C & G & I & _)|[R _]]];
      rewrite E in *; try discriminate.
    injection C as -> ->.
    unfold passes_left, rounds_left, round_bound. rewrite G, I.
    replace (maxiter a - 0)%Z with (maxiter a) by lia.
    remember (Z.to_nat (Z.max 1 (totaliter a - global_iter s))) as R eqn:HR.
    assert (1 <= R)%nat by lia.
    destruct R as [|R']; [lia|]. simpl. lia.
  - destruct (tunnelling_cases s)
      as [(r & g & R & _)
         |[(s1 & C & Lt & G & I & _)
          |[(s1 & C & G & Lt & _)|[R _]]]];
      rewrite E in *; try discriminate.
    + injection C as -> ->.
      unfold passes_left, rounds_left. rewrite G, I. lia.
    + injection C as -> ->.
      unfold passes_left, rounds_left, round_bound. rewrite G.
      replace (Z.to_nat (Z.max 1 (totaliter a - global_iter s)))
        with (S (Z.to_nat (Z.max 1 (totaliter a - (global_iter s + 1)))))
        by lia.
      simpl. lia.
Qed.

Lemma passes_left_pos (c : control) (s : @state Rng) :
  (1 <= passes_left a c s)%nat.
Proof.
  destruct c; unfold passes_left, rounds_left, round_bound.
  - remember (Z.to_nat (Z.max 1 (totaliter a - global_iter s))) as R eqn:HR.
    destruct R as [|R']; [lia|]. simpl. lia.
  - apply Nat.le_trans with (Z.to_nat (Z.max 0 (maxiter a - st_i s)) + 1)%nat;
      [lia | apply Nat.le_add_r].
Qed.

(** With enough fuel the loops are left by a [return]. *)
Lemma run_returns (fuel : nat) (c : control) (s : state) :
  (1 <= tabulistsize a)%Z ->
  (passes_left a c s <= fuel)%nat ->
  exists r g, run a fuel c s = Some (Returned r g) /\ return_reason a r.
Proof.
  intros S1. revert c s.
  induction fuel as [|fuel IH]; intros c s B.
  { pose proof (passes_left_pos c s). lia. }
  simpl. destruct (step a c s) as [c' s'|r g|e] eqn:E.
  - apply IH. pose proof (step_decreases c c' s s' E). lia.
  - exists r, g. split; [reflexivity|]. unfold return_reason.
    destruct c; simpl in E.
    + destruct (minimization_cases s)
        as [(r1 & g1 & R & P)|[(s1 & C & _)|[R _]]];
        rewrite E in *; try discriminate.
      injection R as <- <-. tauto.
    + destruct (tunnelling_cases s)
        as [(r1 & g1 & R & P)|[(s1 & C & _)|[(s1 & C & _)|[R _]]]];
        rewrite E in *; try discriminate.
      injection R as <- <-. tauto.
  - exfalso. destruct c; simpl in E.
    + destruct (minimization_cases s)
        as [(r1 & g1 & R & _)|[(s1 & C & _)|[_ (xf & D)]]];
        try (rewrite E in *; discriminate).
      exact (drop_some xf _ _ _ S1 D).
    + destruct (tunnelling_cases s)
        as [(r1 & g1 & R & _)|[(s1 & C & _)
           |[(s1 & C & _)|[_ (xf & D)]]]];
        try (rewrite E in *; discriminate).
      exact (drop_some xf _ _ _ S1 D).
Qed.

Lemma check_args_size :
  check_args a = None -> (1 <= tabulistsize a)%Z.
Proof.
  unfold check_args.
  repeat match goal with
  | |- context [if ?b then Some _ else _] => destruct b eqn:?
  end; try discriminate.
  intros _.
  match goal with
  | H : (tabulistsize a <? 1)%Z = false |- _ => apply Z.ltb_ge in H; exact H
  end.
Qed.

Lemma passes_left_initial (g : Rng) :
  passes_left a Minimization (initial a g) = loop_bound a.
Proof.
  unfold passes_left, rounds_left, round_bound, loop_bound. simpl.
  replace (totaliter a - 0)%Z with (totaliter a) by lia. reflexivity.
Qed.

(** [loop_bound] passes are enough for every call, as [Main] relies on
    when it runs the global fit. *)
Lemma AMPGO_ends (g : Rng) (fuel : nat) :
  (loop_bound a <= fuel)%nat -> AMPGO a fuel g <> None.
Proof.
  intros B. unfold AMPGO.
  destruct (check_args a) as [e|] eqn:C; [discriminate|].
  destruct (run_returns fuel Minimization (initial a g) (check_args_size C))
    as (r & g' & R & _).
  { rewrite passes_left_initial. exact B. }
  rewrite R. discriminate.
Qed.

(** What a pass finds is what [best_x] and [best_f] are updated with. *)
Lemma step_keeps (c : control) (s : state) :
  let kept :=
    fold_left (keep a)
      (match found a c s with Some f => [f] | None => [] end)
      (best_x s, best_f s) in
  match step a c s with
  | Continue _ s' => (best_x s', best_f s') = kept
  | Return r _ => (res_x r, res_f r) = kept
  | Raise _ => True
  end.
Proof.
  destruct c; cbn [step found].
  - unfold minimization.
    destruct (local_solve a true (objfun a) (st_x0 s) (st_maxfunevals s))
      as [[xf yf] num_fun].
    cbn [fold_left keep snd].
    destruct (yf <? best_f s)%float;
      match goal with
      | |- context [if reached a ?bf then _ else _] => destruct (reached a bf)
      end; try reflexivity;
      destruct (st_maxfunevals s - num_fun <=? 0)%Z; try reflexivity;
      destruct (drop_tabu_points xf (tabulist s) (tabulistsize a)
                  (tabustrategy a)); (reflexivity || exact I).
  - unfold tunnelling.
    destruct ((st_i s <? maxiter a)%Z && (improve s =? 0)%Z)%bool.
    + destruct (uniform (st_rng s) (List.length (x0 a))) as [r rng'].
      match goal with
      | |- context [local_solve a false ?f ?x ?b] =>
          destruct (local_solve a false f x b) as [[xf ytf] num_fun]
      end.
      cbn [fold_left keep snd].
      match goal with
      | |- context [(?yf <=? best_f s + glbtol a)%float] =>
          destruct (yf <=? best_f s + glbtol a)%float
      end;
        match goal with
        | |- context [if reached a ?bf then _ else _] =>
            destruct (reached a bf)
        end; try reflexivity;
        destruct (st_maxfunevals s - num_fun <=? 0)%Z; try reflexivity;
        destruct (drop_tabu_points xf (tabulist s) (tabulistsize a)
                    (tabustrategy a)); (reflexivity || exact I).
    + cbn [fold_left global_iter best_f best_x].
      destruct (totaliter a <=? global_iter s + 1)%Z; [reflexivity|].
      destruct (reached a (best_f s)); reflexivity.
Qed.

(** The point and value a run returns are the ones kept last. *)
Lemma run_keeps (fuel : nat) (c : control) (s : state) (r : result)
    (g : Rng) :
  run a fuel c s = Some (Returned r g) ->
  (res_x r, res_f r)
  = fold_left (keep a) (finds a fuel c s) (best_x s, best_f s).
Proof.
  revert c s. induction fuel as [|fuel IH]; intros c s R; [discriminate|].
  cbn [run finds] in *. pose proof (step_keeps c s) as K. cbv zeta in K.
  destruct (step a c s) as [c' s'|r' g'|e].
  - rewrite fold_left_app, <- K. apply IH. exact R.
  - injection R as <- <-. exact K.
  - discriminate.
Qed.

(** C4, as the code has it.  Called with [fmin] at its default of minus
    infinity, [AMPGO] ends, whatever the local solver and the random draws
    do, within [loop_bound] passes through its loop heads: either its
    arguments are rejected before the loops start, or it returns with one
    of the two messages that tell of an exhausted budget, never with the
    message of success.  The point and value it returns are the ones it
    then keeps as best: starting from [x0] with the value infinity, every
    find of a minimisation phase of strictly lower value than the one
    kept, and every find of a tunnelling phase of a value at most [glbtol]
    above the one kept, has taken their place in turn. *)
Theorem C4_no_success_without_known_optimum (g : Rng) (fuel : nat) :
  fmin a = neg_infinity ->
  (loop_bound a <= fuel)%nat ->
  exists o, AMPGO a fuel g = Some o /\
    match o with
    | Raised e => check_args a = Some e
    | Returned r _ =>
        check_args a = None /\
        (res_msg r = msg_maxfunevals \/ res_msg r = msg_totaliter) /\
        res_msg r <> msg_success /\
        (res_x r, res_f r)
        = fold_left (keep a) (finds a fuel Minimization (initial a g))
            (x0 a, infinity)
    end.
Proof.
  intros F B. unfold AMPGO.
  destruct (check_args a) as [e|] eqn:C.
  - exists (Raised e). split; reflexivity.
  - assert (S1 := check_args_size C).
    destruct (run_returns fuel Minimization (initial a g) S1)
      as (r & g' & R & P).
    { rewrite passes_left_initial. exact B. }
    exists (Returned r g'). split; [exact R|]. split; [reflexivity|].
    assert (M : res_msg r = msg_maxfunevals \/ res_msg r = msg_totaliter).
    { destruct P as [[_ P]|P]; [|exact P].
      unfold reached in P. rewrite F, ltb_neg_infinity_plus in P.
      discriminate. }
    split; [exact M|]. split.
    + destruct M as [M|M]; rewrite M; discriminate.
    + exact (run_keeps fuel Minimization (initial a g) r g' R).
Qed.

(** C7.  With [tabulistsize >= 1]: [drop_tabu_points] returns a list
    shorter than [tabulistsize] as it is; from any other it removes
    exactly one element, the one at index 0 under the strategy [oldest]
    and otherwise one than which no point of the list is strictly farther
    from the latest local minimum, in Euclidean distance (so, the
    distances being numbers, one at maximal distance); a drop followed by
    an append keeps a list of at most [tabulistsize] points within that
    size; and at every loop head of a run of [AMPGO] the tabu list holds at
    most [tabulistsize] points. *)
Theorem C7_tabu_list_never_exceeds_its_size (g : Rng) :
  (1 <= tabulistsize a)%Z ->
  (forall xf T size strategy, (1 <= size)%Z ->
     ((Z.of_nat (List.length T) < size)%Z ->
      drop_tabu_points xf T size strategy = Some T) /\
     ((size <= Z.of_nat (List.length T))%Z ->
      exists k, (k < List.length T)%nat /\
        drop_tabu_points xf T size strategy
          = Some (firstn k T ++ skipn (S k) T) /\
        S (List.length (firstn k T ++ skipn (S k) T)) = List.length T /\
        (strategy = "oldest"%string -> k = 0%nat) /\
        (strategy <> "oldest"%string ->
         forall tabu, In tabu T ->
           (dist (nth k T []) xf <? dist tabu xf)%float = false) /\
        (strategy <> "oldest"%string ->
         (forall tabu, In tabu T -> is_nan (dist tabu xf) = false) ->
         forall tabu, In tabu T ->
           (dist tabu xf <=? dist (nth k T []) xf)%float = true)) /\
     ((Z.of_nat (List.length T) <= size)%Z ->
      exists T', drop_tabu_points xf T size strategy = Some T' /\
        (Z.of_nat (List.length (T' ++ [xf])) <= size)%Z)) /\
  (forall c s, reachable a g c s ->
     (Z.of_nat (List.length (tabulist s)) <= tabulistsize a)%Z).
Proof.
  intros S1. split.
  - intros xf T size strategy Sz. repeat split.
    + apply drop_short.
    + intros Full.
      destruct (drop_full xf T size strategy Sz Full)
        as (k & L & D & O & F & M).
      exists k. rewrite <- pop_firstn_skipn.
      split; [exact L|]. split; [exact D|].
      split; [apply pop_length; exact L|]. auto.
    + apply drop_append_bounded; exact Sz.
  - intros c s R. exact (reachable_tabu_bounded g c s S1 R).
Qed.

(** *** The start point of a tunnelling phase *)

(** A tunnelling phase that goes on stores the start point [perturb]
    computes from the last local minimum and the direction drawn. *)
Lemma tunnelling_start (s s' : state) (c' : control) :
  ((st_i s <? maxiter a)%Z && (improve s =? 0)%Z)%bool = true ->
  tunnelling a s = Continue c' s' ->
  st_x0 s' =
    perturb a (st_xf s) (fst (uniform (st_rng s) (List.length (x0 a)))).
Proof.
  intros C. unfold tunnelling. rewrite C.
  destruct (uniform (st_rng s) (List.length (x0 a))) as [r rng'].
  cbn [fst].
  match goal with
  | |- context [local_solve a false ?f ?x ?b] =>
      destruct (local_solve a false f x b) as [[xf ytf] num_fun]
  end.
  match goal with
  | |- context [if reached a ?bf then _ else _] => destruct (reached a bf)
  end; [discriminate|].
  destruct (st_maxfunevals s - num_fun <=? 0)%Z; [discriminate|].
  destruct (drop_tabu_points xf (tabulist s) (tabulistsize a)
              (tabustrategy a)); [|discriminate].
  intros E; injection E as _ <-. reflexivity.
Qed.

(** Division by a zero gives an infinity or [NaN], which is not below
    [1e-8] in magnitude. *)
Lemma zero_divisor_not_small (x d : float) :
  (d =? 0)%float = true -> (abs (x / d) <? 1e-8)%float = false.
Proof.
  rewrite eqb_spec, ltb_spec, abs_spec, div_spec.
  change (Prim2SF 0) with (S754_zero false).
  generalize (Prim2SF x) (Prim2SF d). intros p q.
  unfold SF64div.
  destruct q as [[|]|[|]| |[|] ? ?]; cbn [SFeqb SFcompare];
    try discriminate; intros _;
    destruct p as [[|]|[|]| |[|] ? ?]; reflexivity.
Qed.

(** A direction of zero norm never brings the floor about: the scale
    stays the quotient by zero, an infinity or [NaN]. *)
Lemma zero_norm_direction_not_floored (xf r : list float) :
  (norm r =? 0)%float = true ->
  step_scale a xf r = (eps2 a * norm xf / norm r)%float.
Proof.
  intros Z0. unfold step_scale.
  rewrite (zero_divisor_not_small _ _ Z0). reflexivity.
Qed.

(** C8, as the code has it.  In every tunnelling phase in which
    [eps2*norm(xf)/norm(r)] is below [1e-8] in magnitude, the step scale
    is floored to [eps2] itself, and the start point, which the phase
    stores as [x0], is [xf + eps2*r] clipped to the bounds. *)
Theorem C8_step_scale_floored_when_small (s : state) :
  let xf := st_xf s in
  let r := fst (uniform (st_rng s) (List.length (x0 a))) in
  let stepped :=
    clip_up
      (clip_low (vec_map2 PrimFloat.add xf (map (PrimFloat.mul (eps2 a)) r))
                (low a))
      (up a) in
  (abs (eps2 a * norm xf / norm r) <? 1e-8)%float = true ->
  step_scale a xf r = eps2 a /\
  perturb a xf r = stepped /\
  (forall c' s',
     ((st_i s <? maxiter a)%Z && (improve s =? 0)%Z)%bool = true ->
     tunnelling a s = Continue c' s' -> st_x0 s' = stepped).
Proof.
  cbv zeta. intros Small.
  assert (P : perturb a (st_xf s)
                (fst (uniform (st_rng s) (List.length (x0 a))))
              = clip_up
                  (clip_low
                     (vec_map2 PrimFloat.add (st_xf s)
                        (map (PrimFloat.mul (eps2 a))
                           (fst (uniform (st_rng s) (List.length (x0 a))))))
                     (low a))
                  (up a)).
  { unfold perturb, step_scale. rewrite Small. reflexivity. }
  repeat split.
  - unfold step_scale. rewrite Small. reflexivity.
  - exact P.
  - intros c' s' C E. rewrite <- P. exact (tunnelling_start s s' c' C E).
Qed.
End Runs.

(** The default arguments, for the sum of squares of a two-vector and the
    stand-in solver. *)
Lemma C4_witness :
  exists o,
    AMPGO (default_args (fun x => vsum (map sqr x)) [1; 2]%float) 140 0%nat
      = Some o /\
    match o with
    | Raised e =>
        check_args (default_args (fun x => vsum (map sqr x)) [1; 2]%float)
          = Some e
    | Returned r _ =>
        check_args (default_args (fun x => vsum (map sqr x)) [1; 2]%float)
          = None /\
        (res_msg r = msg_maxfunevals \/ res_msg r = msg_totaliter) /\
        res_msg r <> msg_success /\
        (res_x r, res_f r)
        = fold_left
            (keep (default_args (Opts := unit)
                     (fun x => vsum (map sqr x)) [1; 2]%float))
            (finds (default_args (fun x => vsum (map sqr x)) [1; 2]%float)
               140 Minimization
               (initial
                  (default_args (Opts := unit)
                     (fun x => vsum (map sqr x)) [1; 2]%float)
                  0%nat))
            ([1; 2]%float, infinity)
    end.
Proof.
  apply (C4_no_success_without_known_optimum
           (default_args (fun x => vsum (map sqr x)) [1; 2]%float) 0%nat 140).
  - reflexivity.
  - apply Nat.leb_le. reflexivity.
Defined.

(** The point returned need not be the best one found.  On the objective
    [slope], started at its minimum over the points visited, every
    tunnelling phase of the stand-in solver finds a slightly higher value,
    within [glbtol] of the one kept, which takes its place: the value
    [1.0] found first is lost, and what the run returns is higher. *)
Lemma C4_counterexample :
  fmin (default_args (Opts := unit) slope [1%float]) = neg_infinity /\
  exists r g,
    AMPGO (default_args slope [1%float]) 140 0%nat = Some (Returned r g) /\
    In (false, [1%float], 1%float)
       (finds (default_args slope [1%float]) 140 Minimization
          (initial (default_args (Opts := unit) slope [1%float]) 0%nat)) /\
    (1 <? res_f r)%float = true.
Proof.
  split; [reflexivity|].
  eexists; eexists. split; [vm_compute; reflexivity|].
  split; [left; vm_compute; reflexivity | vm_compute; reflexivity].
Qed.

(** The same call, run: the budget of 100 evaluations is spent after 83
    tunnelling phases, none of them successful. *)
Example AMPGO_default_run :
  AMPGO (default_args (fun x => vsum (map sqr x)) [1; 2]%float) 140 0%nat
  = Some (Returned
            {| res_x := [1; 2]%float; res_f := 5%float;
               res_evaluations := 100; res_msg := msg_maxfunevals;
               res_tunnel := (83%Z, 0%Z) |} 83%nat).
Proof. vm_compute. reflexivity. Qed.

(** The same call: [tabulistsize] is 5. *)
Lemma C7_witness :
  (1 <= tabulistsize
          (default_args (Opts := unit) (fun x => vsum (map sqr x))
             [1; 2]%float))%Z /\
  forall c s,
    reachable (default_args (fun x => vsum (map sqr x)) [1; 2]%float)
      0%nat c s ->
    (Z.of_nat (List.length (tabulist s)) <= 5)%Z.
Proof.
  split.
  - simpl. lia.
  - apply (C7_tabu_list_never_exceeds_its_size
             (default_args (fun x => vsum (map sqr x)) [1; 2]%float) 0%nat).
    simpl. lia.
Defined.

(** A last local minimum at the origin: the quotient is zero, the scale is
    [eps2 = 0.1], and the direction [[0.5]] gives the start point
    [[0.05]]. *)
Lemma C8_witness :
  step_scale (default_args (Opts := unit) (fun _ => 0%float) [0%float])
    [0%float] [0.5%float] = 0.1%float /\
  perturb (default_args (Opts := unit) (fun _ => 0%float) [0%float])
    [0%float] [0.5%float] = [(0 + 0.1 * 0.5)%float].
Proof.
  pose proof (C8_step_scale_floored_when_small
                (default_args (Opts := unit) (fun _ => 0%float) [0%float])
                (initial (default_args (Opts := unit) (fun _ => 0%float)
                            [0%float]) 0%nat))
    as W.
  cbv zeta in W. destruct (W eq_refl) as (A & B & _).
  split; [exact A | exact B].
Defined.

(** At the default [eps2 = 0.1], for the last local minimum [[1.0]] and the
    direction [[0.0]], whose norm is zero, the step scale is not [eps2]
    but infinity, and the start point is not [[1.0]] moved by a step of
    scale [0.1] but [[NaN]]. *)
Lemma C8_counterexample :
  let a := default_args (Opts := unit) (fun _ => 0%float) [1%float] in
  norm [0%float] = 0%float /\
  step_scale a [1%float] [0%float] = infinity /\
  step_scale a [1%float] [0%float] <> eps2 a /\
  perturb a [1%float] [0%float] = [nan] /\
  clip_up (clip_low (vec_map2 PrimFloat.add [1%float]
                       (map (PrimFloat.mul (eps2 a)) [0%float])) (low a))
          (up a) = [1%float].
Proof.
  cbv zeta. repeat split; try reflexivity.
  intros E. apply (f_equal is_infinity) in E. vm_compute in E. discriminate.
Qed.

End RunFacts.

(** ** The objective functions *)
Module ObjectiveFacts.
Import BMNS Examples.
Local Open Scope float_scope.

Lemma nan_to_num_finite (x : float) : is_finite (nan_to_num x) = true.
Proof.
  unfold nan_to_num, isnan, isinf.
  destruct (is_nan x) eqn:N; [reflexivity|].
  destruct (is_infinity x) eqn:I.
  - destruct (x <? 0); reflexivity.
  - unfold is_finite. rewrite N, I. reflexivity.
Qed.

Lemma nan_to_num_id (x : float) : is_finite x = true -> nan_to_num x = x.
Proof.
  unfold is_finite, nan_to_num, isnan, isinf. intros F.
  apply negb_true_iff, orb_false_iff in F. destruct F as [N I].
  rewrite N, I. reflexivity.
Qed.

Lemma existsb_false_finite (r : list float) :
  existsb isnan r = false -> existsb isinf r = false ->
  Forall (fun x => is_finite x = true) r.
Proof.
  induction r as [|x r IH]; simpl; intros N I; constructor.
  - apply orb_false_iff in N. apply orb_false_iff in I.
    unfold is_finite, isnan, isinf in *.
    destruct N as [-> _], I as [-> _]. reflexivity.
  - apply orb_false_iff in N. apply orb_false_iff in I.
    apply IH; tauto.
Qed.

(** The closing test of [residual] amounts to [nan_to_num] on every
    element. *)
Lemma replace_bad_map (r : list float) : replace_bad r = map nan_to_num r.
Proof.
  unfold replace_bad.
  destruct (existsb isnan r || existsb isinf r)%bool eqn:E; [reflexivity|].
  apply orb_false_iff in E. destruct E as [N I].
  pose proof (existsb_false_finite r N I) as F.
  clear N I. induction F as [|x r Fx F IH]; [reflexivity|].
  simpl. rewrite nan_to_num_id by exact Fx. rewrite <- IH. reflexivity.
Qed.

Section Objectives.
Context {Rng : Type} `{Collaborators Rng}.
Variable gl : Global.

(** C2.  For every parameter vector and either data mode, [chi2] returns
    a finite value, the sentinel [1e4] whenever the accumulated
    chi-square is [NaN] or infinite; and every array [residual] returns
    holds finite values only, being the residual array with each [NaN] or
    infinite element replaced by a finite one and the others kept.  In
    R1rho mode [residual] always returns. *)
Theorem C2_objectives_return_finite_values
    (Params : list float) (R1p_MC : option bool) (DataType : string) :
  is_finite (chi2 gl Params DataType) = true /\
  (let chisq := fold_left (chi2_ob Params DataType) (gObs gl) 0 in
   chi2 gl Params DataType =
     if (isnan chisq || isinf chisq)%bool then 1e4 else chisq) /\
  (forall resid, residual gl Params R1p_MC DataType = Some resid ->
     Forall (fun x => is_finite x = true) resid /\
     exists raw, raw_residual gl Params R1p_MC DataType = Some raw /\
       resid = map nan_to_num raw) /\
  (forall x, is_finite (nan_to_num x) = true /\
             (is_finite x = true -> nan_to_num x = x)) /\
  (exists resid, residual gl Params R1p_MC "R1p" = Some resid).
Proof.
  split; [|split; [|split; [|split]]].
  - unfold chi2.
    destruct (isnan _ || isinf _)%bool eqn:E; [reflexivity|].
    unfold is_finite. exact (f_equal negb E).
  - reflexivity.
  - intros resid R. unfold residual in R.
    destruct (raw_residual gl Params R1p_MC DataType) as [raw|];
      [|discriminate].
    injection R as <-. rewrite replace_bad_map. split.
    + apply Forall_forall. intros x I. apply in_map_iff in I.
      destruct I as (y & <- & _). apply nan_to_num_finite.
    + exists raw. split; reflexivity.
  - intros x. split; [apply nan_to_num_finite | apply nan_to_num_id].
  - unfold residual, raw_residual. simpl. eexists. reflexivity.
Qed.

(** *** The chi-square formula *)

Lemma chi2_ob_R1p (Params : list float) (chisq : float) (ob : Fits) :
  (1 <? List.length (R1pD ob))%nat = error_available ob ->
  chi2_ob Params "R1p" chisq ob = chisq + dataset_sum Params ob.
Proof.
  intros E. unfold chi2_ob, dataset_sum, point_term. simpl String.eqb.
  rewrite length_map, E.
  destruct (error_available ob); reflexivity.
Qed.

Lemma chi2_loop_R1p (Params : list float) (obs : list Fits) (acc : float) :
  (forall ob, In ob obs ->
     (1 <? List.length (R1pD ob))%nat = error_available ob) ->
  fold_left (chi2_ob Params "R1p") obs acc
  = fold_left (fun total ob => total + dataset_sum Params ob) obs acc.
Proof.
  revert acc; induction obs as [|ob obs IH]; intros acc E; simpl fold_left.
  - reflexivity.
  - rewrite chi2_ob_R1p by (apply E; left; reflexivity).
    apply IH. intros ob' I. apply E; right; exact I.
Qed.

(** C3, as the code has it.  Take data in which the datasets of more than
    one point are those with per-point errors available.  Then in R1rho
    mode [chi2] returns the sum of the specification when that sum is
    finite, and [1e4] when it is [NaN] or infinite. *)
Theorem C3_chi2_is_the_guarded_sum (Params : list float) :
  (forall ob, In ob (gObs gl) ->
     (1 <? List.length (R1pD ob))%nat = error_available ob) ->
  chi2 gl Params "R1p" =
    if (isnan (chi2_as_specified gl Params)
        || isinf (chi2_as_specified gl Params))%bool
    then 1e4
    else chi2_as_specified gl Params.
Proof.
  intros E. unfold chi2, chi2_as_specified.
  rewrite chi2_loop_R1p by exact E. reflexivity.
Qed.
End Objectives.

(** Two points with errors, and a parameter for which the stand-in
    simulator predicts the rate 2 at both: each point adds
    [((2 - 1)/1)^2]. *)
Lemma C3_witness :
  chi2_as_specified (setup "local" [two_points]) [4] = 2 /\
  chi2 (setup "local" [two_points]) [4] "R1p" = 2.
Proof.
  split; [reflexivity|].
  etransitivity.
  - apply (C3_chi2_is_the_guarded_sum (setup "local" [two_points]) [4]).
    intros ob [<-|[]]. reflexivity.
  - reflexivity.
Defined.

(** The unguarded statement of C3 fails: for the parameter [-1] the
    stand-in simulator predicts [NaN] at the two points of the data, which
    come with errors; the sum of the specification is [NaN], and [chi2]
    returns [1e4]. *)
Lemma C3_counterexample :
  error_available two_points = true /\
  chi2 (setup "local" [two_points]) [-1] "R1p" = 1e4 /\
  chi2_as_specified (setup "local" [two_points]) [-1] = nan /\
  chi2 (setup "local" [two_points]) [-1] "R1p"
    <> chi2_as_specified (setup "local" [two_points]) [-1].
Proof.
  repeat split; try reflexivity.
  intros E. apply (f_equal is_nan) in E. vm_compute in E. discriminate.
Qed.

(** Where the number of points and the errors disagree, [chi2] goes by the
    number of points: a single point with an error is taken as having
    none, and two points without errors are divided by their zero
    uncertainties. *)
Example chi2_goes_by_the_number_of_points :
  (error_available one_point = true /\
   chi2_as_specified (setup "local" [one_point]) [4] = 0.25 /\
   chi2 (setup "local" [one_point]) [4] "R1p" = 1) /\
  (error_available two_points_no_error = false /\
   chi2_as_specified (setup "local" [two_points_no_error]) [4] = 2 /\
   chi2 (setup "local" [two_points_no_error]) [4] "R1p" = 1e4).
Proof. repeat split; reflexivity. Qed.

End ObjectiveFacts.

(** ** Points of uncertainty zero *)
Module WeightFacts.
Import BMNS Examples.
Local Open Scope float_scope.

Lemma is_finite_SF (x : float) :
  is_finite x = negb (SFnot_finite (Prim2SF x)).
Proof.
  unfold is_finite, is_nan, is_infinity.
  rewrite !eqb_spec, abs_spec.
  change (Prim2SF infinity) with (S754_infinity false).
  generalize (Prim2SF x). intros a.
  destruct a as [[|]|[|]| |[|] m e]; try reflexivity;
    cbn [SFabs SFeqb SFcompare negb orb SFnot_finite];
    rewrite Z.compare_refl, Pos.compare_cont_refl; reflexivity.
Qed.

Lemma SFadd_bad_l (a b : spec_float) :
  SFnot_finite a = true -> SFnot_finite (SF64add a b) = true.
Proof.
  destruct a as [[|]|[|]| |[|] ? ?]; try discriminate; intros _;
    destruct b as [[|]|[|]| |[|] ? ?]; reflexivity.
Qed.

Lemma SFadd_bad_r (a b : spec_float) :
  SFnot_finite b = true -> SFnot_finite (SF64add a b) = true.
Proof.
  destruct b as [[|]|[|]| |[|] ? ?]; try discriminate; intros _;
    destruct a as [[|]|[|]| |[|] ? ?]; reflexivity.
Qed.

Lemma SFdiv_zero (p q : spec_float) :
  SFeqb q (S754_zero false) = true -> SFnot_finite (SF64div p q) = true.
Proof.
  unfold SF64div.
  destruct q as [[|]|[|]| |[|] ? ?]; cbn [SFeqb SFcompare];
    try discriminate; intros _;
    destruct p as [[|]|[|]| |[|] ? ?]; reflexivity.
Qed.

Lemma SFmul_bad (q : spec_float) :
  SFnot_finite q = true -> SFnot_finite (SF64mul q q) = true.
Proof.
  destruct q as [[|]|[|]| |[|] ? ?]; try discriminate; reflexivity.
Qed.

Lemma add_not_finite_l (x y : float) :
  is_finite x = false -> is_finite (x + y) = false.
Proof.
  rewrite !is_finite_SF, add_spec. intros B.
  apply negb_false_iff in B. apply negb_false_iff.
  apply SFadd_bad_l. exact B.
Qed.

Lemma add_not_finite_r (x y : float) :
  is_finite y = false -> is_finite (x + y) = false.
Proof.
  rewrite !is_finite_SF, add_spec. intros B.
  apply negb_false_iff in B. apply negb_false_iff.
  apply SFadd_bad_r. exact B.
Qed.

(** The square of a quotient by zero is an infinity or [NaN]. *)
Lemma sqr_div_zero (x d : float) :
  (d =? 0) = true -> is_finite (sqr (x / d)) = false.
Proof.
  rewrite eqb_spec. change (Prim2SF 0) with (S754_zero false). intros Z.
  unfold sqr. cbn [nmul float_arith].
  rewrite is_finite_SF, mul_spec, div_spec.
  apply negb_false_iff. apply SFmul_bad. apply SFdiv_zero. exact Z.
Qed.

Lemma sum_not_finite_acc (l : list float) (acc : float) :
  is_finite acc = false -> is_finite (fold_left PrimFloat.add l acc) = false.
Proof.
  revert acc; induction l as [|x l IH]; intros acc B; [exact B|].
  cbn [fold_left]. apply IH. apply add_not_finite_l. exact B.
Qed.

Lemma sum_not_finite (l : list float) (acc x : float) :
  In x l -> is_finite x = false ->
  is_finite (fold_left PrimFloat.add l acc) = false.
Proof.
  revert acc; induction l as [|y l IH]; intros acc I B; [destruct I|].
  cbn [fold_left]. destruct I as [E|I].
  - subst y. apply sum_not_finite_acc. apply add_not_finite_r. exact B.
  - apply IH; assumption.
Qed.

Section Blind.
Context {Rng : Type} `{Collaborators Rng}.

Lemma chi2_ob_not_finite_acc (Params : list float) (acc : float) (ob : Fits) :
  is_finite acc = false -> is_finite (chi2_ob Params "R1p" acc ob) = false.
Proof.
  intros B. unfold chi2_ob. simpl String.eqb.
  destruct (1 <? _)%nat; apply add_not_finite_l; exact B.
Qed.

Lemma chi2_ob_zero_uncertainty (Params : list float) (acc : float)
    (ob : Fits) (row : R1p_row) :
  (1 < List.length (R1pD ob))%nat -> In row (R1pD ob) ->
  (R1p_e row =? 0) = true ->
  is_finite (chi2_ob Params "R1p" acc ob) = false.
Proof.
  intros L I Z. unfold chi2_ob. simpl String.eqb.
  rewrite length_map. apply Nat.ltb_lt in L. rewrite L.
  apply add_not_finite_r. unfold py_sum.
  apply sum_not_finite with
    (x := sqr ((predicted BMFitFunc (UnpackgP0 Params ob) ob (Spinlock row)
                  (Offs row) (R1p row) - R1p row) / R1p_e row)).
  - apply in_map_iff. exists row. split; [reflexivity | exact I].
  - apply sqr_div_zero. exact Z.
Qed.

Lemma chi2_loop_not_finite_acc (Params : list float) (obs : list Fits)
    (acc : float) :
  is_finite acc = false ->
  is_finite (fold_left (chi2_ob Params "R1p") obs acc) = false.
Proof.
  revert acc; induction obs as [|ob obs IH]; intros acc B; [exact B|].
  cbn [fold_left]. apply IH. apply chi2_ob_not_finite_acc. exact B.
Qed.

(** X23.  In R1rho mode [chi2] is [1e4] at every parameter vector as soon
    as one dataset of more than one point holds a point of uncertainty
    zero: that point is weighted by its uncertainty, the quotient by zero
    is an infinity or [NaN], so is the sum, and the closing test replaces
    it. *)
Theorem chi2_blind_to_zero_uncertainty (gl : Global) (Params : list float)
    (ob : Fits) (row : R1p_row) :
  In ob (gObs gl) ->
  (1 < List.length (R1pD ob))%nat ->
  In row (R1pD ob) ->
  (R1p_e row =? 0) = true ->
  chi2 gl Params "R1p" = 1e4.
Proof.
  intros Iob L Irow Z. unfold chi2.
  assert (B : is_finite (fold_left (chi2_ob Params "R1p") (gObs gl) 0)
              = false).
  { generalize 0 as acc. induction (gObs gl) as [|ob' obs IH]; intros acc;
      [destruct Iob|].
    cbn [fold_left]. destruct Iob as [E|I].
    - subst ob'. apply chi2_loop_not_finite_acc.
      apply (chi2_ob_zero_uncertainty Params acc ob row L Irow Z).
    - apply (IH I). }
  unfold is_finite in B. apply negb_false_iff in B.
  unfold isnan, isinf. rewrite B. reflexivity.
Qed.
End Blind.

(** Two points without errors: whatever the parameter, [1e4]. *)
Lemma chi2_blind_to_zero_uncertainty_witness :
  chi2 (setup "local" [two_points_no_error]) [1] "R1p" = 1e4.
Proof.
  apply (chi2_blind_to_zero_uncertainty (setup "local" [two_points_no_error])
           [1] two_points_no_error
           {| Offs := 100; Spinlock := 500; R1p := 1; R1p_e := 0 |}).
  - left; reflexivity.
  - apply Nat.ltb_lt. reflexivity.
  - left; reflexivity.
  - reflexivity.
Defined.

End WeightFacts.

(** ** The fitting loop *)
Module FitFacts.
Import BMNS Examples.
Local Open Scope float_scope.

Section Fitting.
Context {Opts Rng : Type} `{AMPGO.Solvers Opts Rng} `{Collaborators Rng}.

(** *** Stores and prints *)

Lemma effects_print (o : output) (s : @session Rng) :
  effects (print o s) = effects s.
Proof. reflexivity. Qed.

Lemma store_all_fields (rs : list FitRecord) (s : @session Rng) :
  s_gl (store_all rs s) = s_gl s /\
  fits (store_all rs s) = fits s ++ rs /\
  written (store_all rs s)
    = written s ++ map (fun r => (rec_ob r, rec_idx r, rec_stage r)) rs /\
  stdout (store_all rs s) = stdout s /\
  rng (store_all rs s) = rng s.
Proof.
  unfold store_all. revert s.
  induction rs as [|r rs IH]; intros s; simpl fold_left.
  - simpl. rewrite !app_nil_r. auto.
  - destruct (IH (store r s)) as (A & B & C & D & E).
    rewrite A, B, C, D, E. simpl. rewrite <- !app_assoc. auto.
Qed.

Lemma effects_store_all (rs : list FitRecord) (s1 s2 : @session Rng) :
  effects s1 = effects s2 ->
  effects (store_all rs s1) = effects (store_all rs s2).
Proof.
  unfold effects. intros E. injection E as A B C D.
  destruct (store_all_fields rs s1) as (A1 & B1 & C1 & _ & E1).
  destruct (store_all_fields rs s2) as (A2 & B2 & C2 & _ & E2).
  rewrite A1, B1, C1, E1, A2, B2, C2, E2, A, B, C, D. reflexivity.
Qed.

Lemma effects_with_rng (g : Rng) (s1 s2 : @session Rng) :
  effects s1 = effects s2 ->
  effects (with_rng g s1) = effects (with_rng g s2).
Proof.
  unfold effects. intros E. injection E as A B C D. simpl.
  rewrite A, B, C. reflexivity.
Qed.

Lemma initial_guess_effects (s1 s2 : @session Rng) :
  effects s1 = effects s2 -> initial_guess s1 = initial_guess s2.
Proof.
  unfold effects, initial_guess. intros E. injection E as A B C D.
  rewrite A, D. reflexivity.
Qed.

(** *** The global fit does not read the Monte-Carlo inputs *)

Lemma fit_global_effects (m1 m2 : bool) (lp : Z) (s1 s2 : @session Rng) :
  effects s1 = effects s2 ->
  option_map effects (fit_global m1 lp s1)
  = option_map effects (fit_global m2 lp s2).
Proof.
  intros E. unfold fit_global.
  assert (G : s_gl s1 = s_gl s2) by (unfold effects in E; congruence).
  rewrite G.
  set (b1 := if m1 then _ else _). set (b2 := if m2 then _ else _).
  assert (B : effects b1 = effects b2).
  { unfold b1, b2. destruct m1, m2; rewrite ?effects_print; exact E. }
  clearbody b1 b2.
  rewrite (initial_guess_effects b1 b2 B).
  destruct (initial_guess b2) as [tP0 g1].
  destruct (AMPGO.AMPGO _ _ g1) as [[fitted g2|e]|]; try reflexivity.
  unfold bind.
  destruct (least_squares _ _ _ _) as [polished|]; [|reflexivity].
  simpl option_map. f_equal.
  apply effects_store_all. rewrite !effects_print.
  apply effects_store_all. apply effects_with_rng. exact B.
Qed.

Lemma fit_global_gl (m : bool) (lp : Z) (s s' : @session Rng) :
  fit_global m lp s = Some s' -> s_gl s' = s_gl s.
Proof.
  unfold fit_global.
  set (b := if m then _ else _).
  assert (B : s_gl b = s_gl s) by (unfold b; destruct m; reflexivity).
  clearbody b.
  destruct (initial_guess b) as [tP0 g1].
  destruct (AMPGO.AMPGO _ _ g1) as [[fitted g2|e]|]; try discriminate.
  unfold bind.
  destruct (least_squares _ _ _ _) as [polished|]; [|discriminate].
  intros E. injection E as <-.
  repeat (rewrite (proj1 (store_all_fields _ _));
          cbn [print with_rng s_gl]).
  exact B.
Qed.

Lemma fit_loops_global (inp1 inp2 : run_inputs) (lps : list Z)
    (s1 s2 : @session Rng) :
  FitType (s_gl s1) = "global"%string ->
  effects s1 = effects s2 ->
  option_map effects (fit_loops inp1 lps s1)
  = option_map effects (fit_loops inp2 lps s2).
Proof.
  revert s1 s2. induction lps as [|lp lps IH]; intros s1 s2 T E.
  - simpl. rewrite E. reflexivity.
  - simpl fit_loops. unfold fit_iteration.
    assert (G : s_gl s1 = s_gl s2) by (unfold effects in E; congruence).
    rewrite <- G, T. simpl String.eqb. cbv iota.
    pose proof (fit_global_effects (mcerr inp1) (mcerr inp2) lp s1 s2 E) as F.
    destruct (fit_global (mcerr inp1) lp s1) as [t1|] eqn:F1;
      destruct (fit_global (mcerr inp2) lp s2) as [t2|] eqn:F2;
      simpl in F; try discriminate; [|reflexivity].
    simpl bind. apply IH; [|congruence].
    rewrite (fit_global_gl _ _ _ _ F1). exact T.
Qed.

(** C10.  For the fit type [global], two runs that differ only in the
    Monte-Carlo flag and count (and in the scheduling of brute-force
    workers, which a global fit has none of) end alike, and then with the
    same fit records, in the same order, and the same rows written. *)
Theorem C10_global_fit_ignores_monte_carlo_inputs
    (inp1 inp2 : run_inputs) (gl : Global) (g : Rng) :
  FitType gl = "global"%string ->
  option_map (fun s => (fits s, written s)) (Main_fit inp1 gl g)
  = option_map (fun s => (fits s, written s)) (Main_fit inp2 gl g).
Proof.
  intros T. unfold Main_fit.
  set (s0 := {| s_gl := gl; fits := []; written := []; stdout := [];
                rng := g |}).
  pose proof (fit_loops_global inp1 inp2 (range (FitLoops gl)) s0 s0 T
                eq_refl) as E.
  destruct (fit_loops inp1 _ s0) as [t1|];
    destruct (fit_loops inp2 _ s0) as [t2|];
    simpl in E; try discriminate; [|reflexivity].
  unfold effects in E. simpl. congruence.
Qed.

(** *** Standard errors of the local fit *)

Lemma flat_map_one {X Y : Type} (f : X -> Y) (l : list X) :
  flat_map (fun x => [f x]) l = map f l.
Proof.
  induction l as [|x l IH]; simpl; [reflexivity|]. rewrite IH. reflexivity.
Qed.

(** C9.  A local fit without Monte-Carlo estimation adds one record per
    dataset, in which the standard errors are those unpacked from the
    all-zeros vector of the length of the fitted vector if the
    uncertainty column of the dataset sums to exactly zero, and from the
    vector [cStdErr] computes from the converged residuals and Jacobian
    if the sum is anything else. *)
Theorem C9_local_errors_zero_without_uncertainties
    (fitMC lp : Z) (s : @session Rng) :
  option_map fits (fit_local false fitMC lp s)
  = option_map
      (fun fitted =>
         fits s ++
         map (fun ob =>
           {| rec_idx := lp + 1;
              rec_pars := UnpackgP0 (opt_x fitted) ob;
              rec_redChiSq := chi2 (s_gl s) (opt_x fitted) "R1p"
                              / dof (s_gl s);
              rec_nfev := opt_nfev fitted;
              rec_stage := "local"; rec_ob := FitNum ob;
              rec_errPars :=
                Some (UnpackErr
                  (if numpy_sum (map R1p_e (R1pD ob)) =? 0
                   then repeat 0 (List.length (opt_x fitted))
                   else cStdErr (opt_x fitted) (opt_fun fitted)
                          (opt_jac fitted) (dof (s_gl s))) ob) |})
           (gObs (s_gl s)))
      (least_squares (fun x => residual (s_gl s) x None "R1p")
         (fst (initial_guess s)) (gBnds (s_gl s)) 10000).
Proof.
  unfold fit_local.
  change (initial_guess (print (Banner "local" (lp + 1)) s))
    with (initial_guess s).
  destruct (initial_guess s) as [tP0 g1]. cbn [fst with_rng print s_gl].
  destruct (least_squares _ tP0 _ _) as [fitted|]; [|reflexivity].
  cbn [bind option_map s_gl]. f_equal.
  rewrite (proj1 (proj2 (store_all_fields _ _))). cbn [fits].
  f_equal. unfold local_records. cbn [negb app].
  rewrite flat_map_one. apply map_ext. intros ob.
  unfold local_fiterr, zeros.
  destruct (numpy_sum (map R1p_e (R1pD ob)) =? 0); reflexivity.
Qed.

(** *** The seed of the last brute-force fit *)

Lemma in_insert_by_index {Y : Type} (x p : nat * Y) (l : list (nat * Y)) :
  In x (insert_by_index p l) <-> x = p \/ In x l.
Proof.
  induction l as [|q l IH]; simpl.
  - intuition congruence.
  - destruct (fst p <=? fst q)%nat; simpl; rewrite ?IH;
      intuition congruence.
Qed.

Lemma in_sorted {Y : Type} (x : nat * Y) (res : list (nat * Y)) :
  In x (sorted res) <-> In x res.
Proof.
  induction res as [|r res IH]; [reflexivity|].
  change (sorted (r :: res)) with (insert_by_index r (sorted res)).
  rewrite in_insert_by_index, IH. simpl. intuition congruence.
Qed.

(** The first of the sorted results carries the least index. *)
Lemma sorted_head {Y : Type} (res : list (nat * Y)) (p : nat * Y) :
  hd_error (sorted res) = Some p ->
  In p res /\ forall q, In q res -> (fst p <= fst q)%nat.
Proof.
  revert p. induction res as [|r res IH]; intros p E; [discriminate|].
  change (sorted (r :: res)) with (insert_by_index r (sorted res)) in E.
  destruct (sorted res) as [|h t] eqn:S.
  - injection E as <-. split; [left; reflexivity|].
    intros q [<-|I]; [lia|].
    apply in_sorted in I. rewrite S in I. destruct I.
  - destruct (IH h eq_refl) as [Ih Mh]. simpl in E.
    destruct (Nat.leb_spec (fst r) (fst h)) as [Le|Gt]; injection E as <-.
    + split; [left; reflexivity|].
      intros q [<-|I]; [lia|]. specialize (Mh q I). lia.
    + split; [right; exact Ih|].
      intros q [<-|I]; [lia|]. exact (Mh q I).
Qed.

(** What the workers send is what [f] computes for the index sent with
    it. *)
Lemma collect_in {X Y : Type} (f : X -> option Y) (X_ : list X)
    (arrival : list nat) (res : list (nat * Y)) (i : nat) (y : Y) :
  collect f X_ arrival = Some res -> In (i, y) res ->
  exists x, nth_error X_ i = Some x /\ f x = Some y.
Proof.
  revert res. induction arrival as [|k rest IH]; intros res C I.
  - injection C as <-. destruct I.
  - simpl in C. unfold bind in C.
    destruct (nth_error X_ k) as [x|] eqn:N; [|discriminate].
    destruct (f x) as [y'|] eqn:F; [|discriminate].
    destruct (collect f X_ rest) as [res'|]; [|discriminate].
    injection C as <-. destruct I as [E|I].
    + injection E as <- <-. exists x. auto.
    + exact (IH res' eq_refl I).
Qed.

Lemma collect_indices {X Y : Type} (f : X -> option Y) (X_ : list X)
    (arrival : list nat) (res : list (nat * Y)) :
  collect f X_ arrival = Some res -> map fst res = arrival.
Proof.
  revert res. induction arrival as [|k rest IH]; intros res C.
  - injection C as <-. reflexivity.
  - simpl in C. unfold bind in C.
    destruct (nth_error X_ k) as [x|]; [|discriminate].
    destruct (f x) as [y'|]; [|discriminate].
    destruct (collect f X_ rest) as [res'|]; [|discriminate].
    injection C as <-. simpl. rewrite (IH res' eq_refl). reflexivity.
Qed.

(** A dictionary filled with one value yields that value. *)
Lemma dict_set_values (d : dict) (k : float) (v : list float) :
  Forall (fun e => snd e = v) d ->
  Forall (fun e => snd e = v) (dict_set d k v).
Proof.
  induction 1 as [|[k' v'] d E F IH]; simpl.
  - repeat constructor.
  - destruct (k' =? k); constructor; auto.
Qed.

Lemma least_entry_in (best : float * list float) (d : dict) :
  In (least_entry best d) (best :: d).
Proof.
  revert best. induction d as [|e d IH]; intros best; simpl.
  - left; reflexivity.
  - destruct (fst e <? fst best).
    + specialize (IH e). simpl in IH. tauto.
    + specialize (IH best). simpl in IH. tauto.
Qed.

Lemma dict_min_value_const (d : dict) (v tP0 : list float) :
  Forall (fun e => snd e = v) d -> dict_min_value d = Some tP0 -> tP0 = v.
Proof.
  destruct d as [|e d]; intros F E; [discriminate|].
  injection E as <-.
  pose proof (least_entry_in e d) as I.
  rewrite Forall_forall in F. exact (F _ I).
Qed.

Lemma Brute_loop_values (gl : Global) (idx : nat) (d : dict) :
  Brute_loop gl idx = Some d ->
  exists gf, nth_error (brutegP0 gl) idx = Some gf /\
    Forall (fun e => snd e = gf) d.
Proof.
  unfold Brute_loop, bind.
  destruct (nth_error (brutegP0 gl) idx) as [gf|]; [|discriminate].
  destruct (least_squares _ gf _ _) as [fitted|]; [|discriminate].
  intros E; injection E as <-. exists gf. split; [reflexivity|].
  generalize (@nil (float * list float))
    (Forall_nil (fun e : float * list float => snd e = gf)).
  induction (gObs gl) as [|ob obs IH]; intros d0 F; simpl; [exact F|].
  apply IH. apply dict_set_values. exact F.
Qed.

(** Whatever the scores are, the last fit starts from the first grid
    point: of the workers' dictionaries only the one for index [0] is
    read. *)
Lemma brute_seed_is_first (gl : Global) (arrival : list nat)
    (tP0 : list float) :
  In 0%nat arrival ->
  brute_seed gl arrival = Some tP0 ->
  nth_error (brutegP0 gl) 0 = Some tP0.
Proof.
  intros I0. unfold brute_seed, parmap, bind.
  destruct (collect _ _ arrival) as [res|] eqn:C; [|discriminate].
  destruct (sorted res) as [|[i d] t] eqn:S; [discriminate|].
  simpl hd_error. cbv iota beta. intros E.
  destruct (sorted_head res (i, d)) as [Ip Mp]; [rewrite S; reflexivity|].
  assert (i = 0)%nat.
  { pose proof (collect_indices _ _ _ _ C) as K.
    rewrite <- K in I0. apply in_map_iff in I0.
    destruct I0 as (q & Q & Iq). specialize (Mp q Iq).
    simpl in Mp. lia. }
  subst i.
  destruct (collect_in _ _ _ _ 0%nat d C Ip) as (x & N & B).
  assert (x = 0)%nat.
  { destruct (brutegP0 gl); simpl in N; [discriminate|].
    injection N as <-. reflexivity. }
  subst x.
  destruct (Brute_loop_values gl 0 d B) as (gf & G & F).
  rewrite G. f_equal. symmetry. exact (dict_min_value_const d gf tP0 F E).
Qed.
End Fitting.

(** The stand-in set-up, fitted globally without and with [-fitmc]. *)
Lemma C10_witness :
  option_map (fun s => (fits s, written s))
    (Main_fit plain_run (setup "global" [two_points]) 0%nat)
  = option_map (fun s => (fits s, written s))
      (Main_fit fitmc_run (setup "global" [two_points]) 0%nat).
Proof.
  apply (C10_global_fit_ignores_monte_carlo_inputs plain_run fitmc_run
           (setup "global" [two_points]) 0%nat).
  reflexivity.
Defined.

(** The sum of C9 is numpy's: on an uncertainty column that adds up to
    zero pairwise, though not in index order, the errors reported are
    zeros, where the stand-in [cStdErr] would give [[1]]. *)
Example local_errors_follow_numpy_sum :
  numpy_sum (map R1p_e (R1pD cancelling_errors)) = 0 /\
  vsum (map R1p_e (R1pD cancelling_errors)) = -1 /\
  option_map (fun s => map rec_errPars (fits s))
    (fit_local false 1 0 (fresh (setup "local" [cancelling_errors])))
  = Some [Some [0]].
Proof. repeat split; vm_compute; reflexivity. Qed.

(** A local fit does read them: with [-fitmc] and a count of 100 it adds
    the records of 100 refits to the one it adds without. *)
Example local_fit_reads_monte_carlo_inputs :
  option_map (fun s => List.length (fits s))
    (Main_fit plain_run (setup "local" [two_points]) 0%nat) = Some 1%nat /\
  option_map (fun s => List.length (fits s))
    (Main_fit fitmc_run (setup "local" [two_points]) 0%nat) = Some 101%nat.
Proof. split; vm_compute; reflexivity. Qed.

(** C1, on a grid of two points.  The first grid point scores a reduced
    chi-square of [8.0], the second, the planted optimum, [0.0], and is the
    seed the specification asks for; yet, whichever worker finishes first,
    the last fit is started from the first grid point, and its record is
    what the run reports. *)
Lemma C1_brute_seed_is_first_grid_point :
  brutegP0 (setup "brute" [two_points]) = [[9]; [1]] /\
  chi2 (setup "brute" [two_points]) [9] "R1p"
    / dof (setup "brute" [two_points]) = 8 /\
  chi2 (setup "brute" [two_points]) [1] "R1p"
    / dof (setup "brute" [two_points]) = 0 /\
  seed_as_specified (setup "brute" [two_points]) = Some [1] /\
  brute_seed (setup "brute" [two_points]) [0; 1]%nat = Some [9] /\
  brute_seed (setup "brute" [two_points]) [1; 0]%nat = Some [9] /\
  option_map (fun s => map rec_pars (fits s))
    (Main_fit plain_run (setup "brute" [two_points]) 0%nat) = Some [[9]].
Proof. repeat split; reflexivity. Qed.

End FitFacts.

(** ** Budgets and counters of a run *)
Module CounterFacts.
Import AMPGO FloatFacts RunFacts Examples.

(** Only a number is below, or at most, something. *)
Lemma ltb_number (x y : float) : (x <? y)%float = true -> is_nan x = false.
Proof.
  unfold is_nan. rewrite ltb_spec, eqb_spec.
  generalize (Prim2SF x) (Prim2SF y). intros p q.
  sf_cases; try (intros; reflexivity); try discriminate;
    intros _; cbn [negb]; apply negb_false_iff; cmp_cases.
Qed.

Lemma leb_number (x y : float) : (x <=? y)%float = true -> is_nan x = false.
Proof.
  unfold is_nan. rewrite leb_spec, eqb_spec.
  generalize (Prim2SF x) (Prim2SF y). intros p q.
  sf_cases; try (intros; reflexivity); try discriminate;
    intros _; cbn [negb]; apply negb_false_iff; cmp_cases.
Qed.

Section Counters.
Context {Opts Rng : Type} `{Solvers Opts Rng}.
Variable a : @Args Opts.

(** *** What one pass does to the counters *)

(** The minimisation phase charges the solver's evaluations to the budget,
    leaves the tunnelling counters alone, and goes on only with budget
    left. *)
Lemma minimization_counts (s : state) :
  match minimization a s with
  | Continue c' s' =>
      c' = Tunnelling /\
      (evaluations s' + st_maxfunevals s' = evaluations s + st_maxfunevals s)%Z /\
      (0 < st_maxfunevals s')%Z /\
      all_tunnel s' = all_tunnel s /\
      success_tunnel s' = success_tunnel s /\
      global_iter s' = global_iter s /\
      st_i s' = 0%Z /\
      (is_nan (best_f s) = false -> is_nan (best_f s') = false)
  | Return r _ =>
      (res_msg r = msg_maxfunevals ->
       (evaluations s + st_maxfunevals s <= res_evaluations r)%Z) /\
      res_msg r <> msg_totaliter /\
      res_tunnel r = (all_tunnel s, success_tunnel s) /\
      (is_nan (best_f s) = false -> is_nan (res_f r) = false)
  | Raise _ => True
  end.
Proof.
  unfold minimization.
  destruct (local_solve a true (objfun a) (st_x0 s) (st_maxfunevals s))
    as [[xf yf] num_fun].
  assert (N : is_nan (best_f s) = false ->
              is_nan (if (yf <? best_f s)%float then yf else best_f s) = false).
  { intros B. destruct (yf <? best_f s)%float eqn:L; [|exact B].
    exact (ltb_number _ _ L). }
  destruct (reached a (if (yf <? best_f s)%float then yf else best_f s)).
  { unfold finish. cbn. repeat split; try discriminate. exact N. }
  destruct (Z.leb_spec (st_maxfunevals s - num_fun) 0) as [Le|Gt].
  { unfold finish. cbn. repeat split; try discriminate; [lia | exact N]. }
  destruct (drop_tabu_points xf (tabulist s) (tabulistsize a) (tabustrategy a));
    [|exact I].
  cbn. repeat split; try lia. exact N.
Qed.

(** A test of the inner loop either runs one tunnelling phase, which
    counts as one more phase, at most one more success and charges its
    evaluations, or closes the round without touching budget or counters. *)
Lemma tunnelling_counts (s : state) :
  match tunnelling a s with
  | Continue Tunnelling s' =>
      (st_i s < maxiter a)%Z /\
      (evaluations s' + st_maxfunevals s' = evaluations s + st_maxfunevals s)%Z /\
      (0 < st_maxfunevals s')%Z /\
      all_tunnel s' = (all_tunnel s + 1)%Z /\
      (success_tunnel s <= success_tunnel s' <= success_tunnel s + 1)%Z /\
      global_iter s' = global_iter s /\
      st_i s' = (st_i s + 1)%Z /\
      (is_nan (best_f s) = false -> is_nan (best_f s') = false)
  | Continue Minimization s' =>
      evaluations s' = evaluations s /\
      st_maxfunevals s' = st_maxfunevals s /\
      all_tunnel s' = all_tunnel s /\
      success_tunnel s' = success_tunnel s /\
      global_iter s' = (global_iter s + 1)%Z /\
      (global_iter s + 1 < totaliter a)%Z /\
      best_f s' = best_f s
  | Return r _ =>
      (res_msg r = msg_maxfunevals ->
       (evaluations s + st_maxfunevals s <= res_evaluations r)%Z) /\
      (res_msg r = msg_totaliter -> res_evaluations r = evaluations s) /\
      (res_tunnel r = (all_tunnel s, success_tunnel s) \/
       (st_i s < maxiter a)%Z /\
       exists succ, res_tunnel r = ((all_tunnel s + 1)%Z, succ) /\
         (success_tunnel s <= succ <= success_tunnel s + 1)%Z) /\
      (is_nan (best_f s) = false -> is_nan (res_f r) = false)
  | Raise _ => True
  end.
Proof.
  unfold tunnelling.
  destruct ((st_i s <? maxiter a)%Z && (improve s =? 0)%Z)%bool eqn:C.
  - apply andb_true_iff in C. destruct C as [C _]. apply Z.ltb_lt in C.
    destruct (uniform (st_rng s) (List.length (x0 a))) as [r rng'].
    match goal with
    | |- context [local_solve a false ?f ?x ?b] =>
        destruct (local_solve a false f x b) as [[xf ytf] num_fun]
    end.
    set (yf := inverse_tunnel xf ytf _ (tabulist s)).
    assert (N : is_nan (best_f s) = false ->
                is_nan (if (yf <=? best_f s + glbtol a)%float
                        then yf else best_f s) = false).
    { intros B. destruct (yf <=? best_f s + glbtol a)%float eqn:L; [|exact B].
      exact (leb_number _ _ L). }
    assert (S : (success_tunnel s <=
                 (if (yf <=? best_f s + glbtol a)%float
                  then success_tunnel s + 1 else success_tunnel s)
                 <= success_tunnel s + 1)%Z).
    { destruct (yf <=? best_f s + glbtol a)%float; lia. }
    match goal with
    | |- context [if reached a ?bf then _ else _] => destruct (reached a bf)
    end.
    { unfold finish. cbn. repeat split; try discriminate; try exact N.
      right. split; [exact C|]. eexists. split; [reflexivity | exact S]. }
    destruct (Z.leb_spec (st_maxfunevals s - num_fun) 0) as [Le|Gt].
    { unfold finish. cbn. repeat split; try discriminate; try exact N;
        try lia.
      right. split; [exact C|]. eexists. split; [reflexivity | exact S]. }
    destruct (drop_tabu_points xf (tabulist s) (tabulistsize a)
                (tabustrategy a)); [|exact I].
    cbn. repeat split; try lia; try exact N;
      [exact (proj1 S) | exact (proj2 S)].
  - cbn [global_iter best_f].
    destruct (Z.leb_spec (totaliter a) (global_iter s + 1)) as [Le|Gt].
    { unfold finish. cbn. repeat split; try discriminate; try lia; auto. }
    destruct (reached a (best_f s)).
    { unfold finish. cbn. repeat split; try discriminate; try lia; auto. }
    cbn. repeat split; try lia.
Qed.
(** *** The test for success *)

Lemma minimization_verdict (s : state) :
  match minimization a s with
  | Continue _ s' => reached a (best_f s') = false
  | Return r _ => res_msg r = msg_success <-> reached a (res_f r) = true
  | Raise _ => True
  end.
Proof.
  unfold minimization.
  destruct (local_solve a true (objfun a) (st_x0 s) (st_maxfunevals s))
    as [[xf yf] num_fun].
  destruct (reached a (if (yf <? best_f s)%float then yf else best_f s))
    eqn:R.
  { unfold finish. cbn [res_msg res_f best_f]. rewrite R. split; reflexivity. }
  destruct (st_maxfunevals s - num_fun <=? 0)%Z.
  { unfold finish. cbn [res_msg res_f best_f]. rewrite R. split; discriminate. }
  destruct (drop_tabu_points xf (tabulist s) (tabulistsize a) (tabustrategy a));
    [|exact I].
  cbn [best_f]. exact R.
Qed.

Lemma tunnelling_verdict (s : state) :
  reached a (best_f s) = false ->
  match tunnelling a s with
  | Continue Tunnelling s' => reached a (best_f s') = false
  | Continue Minimization _ => True
  | Return r _ => res_msg r = msg_success <-> reached a (res_f r) = true
  | Raise _ => True
  end.
Proof.
  intros N. unfold tunnelling.
  destruct ((st_i s <? maxiter a)%Z && (improve s =? 0)%Z)%bool.
  - destruct (uniform (st_rng s) (List.length (x0 a))) as [r rng'].
    match goal with
    | |- context [local_solve a false ?f ?x ?b] =>
        destruct (local_solve a false f x b) as [[xf ytf] num_fun]
    end.
    match goal with
    | |- context [if reached a ?bf then _ else _] =>
        destruct (reached a bf) eqn:R
    end.
    { unfold finish. cbn [res_msg res_f best_f]. rewrite R. split; reflexivity. }
    destruct (st_maxfunevals s - num_fun <=? 0)%Z.
    { unfold finish. cbn [res_msg res_f best_f]. rewrite R. split; discriminate. }
    destruct (drop_tabu_points xf (tabulist s) (tabulistsize a)
                (tabustrategy a)); [|exact I].
    cbn [best_f]. exact R.
  - cbn [global_iter best_f].
    destruct (totaliter a <=? global_iter s + 1)%Z.
    { unfold finish. cbn [res_msg res_f best_f]. rewrite N. split; discriminate. }
    rewrite N. exact I.
Qed.

Lemma reachable_not_reached (g : Rng) (c : control) (s : state) :
  reachable a g c s -> c = Tunnelling -> reached a (best_f s) = false.
Proof.
  intros R. induction R as [|c s c' s' R IH E]; [discriminate|].
  intros ->. destruct c; cbn [step] in E.
  - pose proof (minimization_verdict s) as V. rewrite E in V. exact V.
  - pose proof (tunnelling_verdict s (IH eq_refl)) as V. rewrite E in V.
    exact V.
Qed.

(** *** What holds at every loop head *)

Lemma reachable_counters (g : Rng) (c : control) (s : state) :
  reachable a g c s ->
  (evaluations s + st_maxfunevals s = initial_maxfunevals a)%Z /\
  (c = Tunnelling -> (0 < st_maxfunevals s)%Z) /\
  (0 <= success_tunnel s <= all_tunnel s)%Z /\
  (0 <= global_iter s < Z.max 1 (totaliter a))%Z /\
  match c with
  | Minimization =>
      (all_tunnel s <= global_iter s * Z.max 0 (maxiter a))%Z
  | Tunnelling =>
      (0 <= st_i s <= Z.max 0 (maxiter a))%Z /\
      (all_tunnel s <= global_iter s * Z.max 0 (maxiter a) + st_i s)%Z
  end /\
  is_nan (best_f s) = false.
Proof.
  intros R. induction R as [|c s c' s' R IH E].
  - cbn. repeat split; try lia. discriminate.
  - destruct IH as (B & P & S & G & T & N).
    destruct c; cbn [step] in E.
    + pose proof (minimization_counts s) as M. rewrite E in M.
      destruct M as (-> & B' & P' & A' & S' & G' & I' & N').
      rewrite A', S', G', I'. repeat split; try lia. exact (N' N).
    + pose proof (tunnelling_counts s) as M. rewrite E in M.
      destruct T as (I & T).
      destruct c'.
      * destruct M as (B' & P' & A' & S' & G' & L' & F').
        specialize (P eq_refl).
        rewrite B', P', A', S', G', F'.
        repeat split; try lia; try discriminate. exact N.
      * destruct M as (L' & B' & P' & A' & S' & G' & I' & N').
        rewrite A', G', I'. repeat split; try lia. exact (N' N).
Qed.

(** A run that returns does so from a loop head it has reached. *)
Lemma run_last_step (g : Rng) (fuel : nat) (c : control) (s : state)
    (r : result) (g' : Rng) :
  reachable a g c s ->
  run a fuel c s = Some (Returned r g') ->
  exists c1 s1, reachable a g c1 s1 /\ step a c1 s1 = Return r g'.
Proof.
  revert c s. induction fuel as [|fuel IH]; intros c s R E; [discriminate|].
  cbn [run] in E. destruct (step a c s) as [c' s'|r1 g1|e] eqn:St.
  - apply (IH c' s'); [|exact E]. exact (reach_step a g c s c' s' R St).
  - injection E as -> ->. exists c, s. split; [exact R | exact St].
  - discriminate.
Qed.

Lemma AMPGO_last_step (g : Rng) (fuel : nat) (r : result) (g' : Rng) :
  AMPGO a fuel g = Some (Returned r g') ->
  exists c1 s1, reachable a g c1 s1 /\ step a c1 s1 = Return r g'.
Proof.
  unfold AMPGO. destruct (check_args a); [discriminate|].
  apply run_last_step. constructor.
Qed.

(** X1.  The message of a return tells how the evaluation budget stands:
    under "Maximum number of function evaluations exceeded" the evaluations
    reported are at least the budget ([maxfunevals], or its default
    [max(100, 10*n)]); under "Maximum number of global iterations exceeded"
    they are fewer than the budget. *)
Theorem AMPGO_message_tells_budget (g : Rng) (fuel : nat) (r : result)
    (g' : Rng) :
  AMPGO a fuel g = Some (Returned r g') ->
  (res_msg r = msg_maxfunevals ->
   (initial_maxfunevals a <= res_evaluations r)%Z) /\
  (res_msg r = msg_totaliter ->
   (res_evaluations r < initial_maxfunevals a)%Z).
Proof.
  intros E. destruct (AMPGO_last_step g fuel r g' E) as (c & s & R & St).
  destruct (reachable_counters g c s R) as (B & P & _).
  destruct c; cbn [step] in St.
  - pose proof (minimization_counts s) as M. rewrite St in M.
    destruct M as (Mx & Nt & _).
    split; [intros Q; specialize (Mx Q); lia | contradiction].
  - pose proof (tunnelling_counts s) as M. rewrite St in M.
    destruct M as (Mx & Mt & _). specialize (P eq_refl).
    split; [intros Q; specialize (Mx Q); lia|].
    intros Q. rewrite (Mt Q). lia.
Qed.

(** X2.  The pair [tunnel_info] a call returns counts no more successful
    tunnelling phases than phases, and no more phases than [maxiter] in
    each of the [totaliter] rounds (one round, if [totaliter] is below
    one). *)
Theorem AMPGO_tunnel_info_bounds (g : Rng) (fuel : nat) (r : result)
    (g' : Rng) :
  AMPGO a fuel g = Some (Returned r g') ->
  (0 <= snd (res_tunnel r) <= fst (res_tunnel r))%Z /\
  (fst (res_tunnel r) <= Z.max 1 (totaliter a) * Z.max 0 (maxiter a))%Z.
Proof.
  intros E. destruct (AMPGO_last_step g fuel r g' E) as (c & s & R & St).
  destruct (reachable_counters g c s R) as (_ & _ & S & G & T & _).
  destruct c; cbn [step] in St.
  - pose proof (minimization_counts s) as M. rewrite St in M.
    destruct M as (_ & _ & -> & _). cbn [fst snd]. split; [lia | nia].
  - pose proof (tunnelling_counts s) as M. rewrite St in M.
    destruct M as (_ & _ & [->|(L & succ & -> & Sc)] & _);
      destruct T as (I & T); cbn [fst snd]; split; try lia; nia.
Qed.

(** X3.  The value [best_f] a call returns is never [NaN], whatever the
    objective function and the local solver hand back: [best_f] starts at
    infinity and is replaced only by a value that a comparison has found
    below, or at most, a bound. *)
Theorem AMPGO_best_value_is_a_number (g : Rng) (fuel : nat) (r : result)
    (g' : Rng) :
  AMPGO a fuel g = Some (Returned r g') -> is_nan (res_f r) = false.
Proof.
  intros E. destruct (AMPGO_last_step g fuel r g' E) as (c & s & R & St).
  destruct (reachable_counters g c s R) as (_ & _ & _ & _ & _ & N).
  destruct c; cbn [step] in St.
  - pose proof (minimization_counts s) as M. rewrite St in M.
    destruct M as (_ & _ & _ & F). exact (F N).
  - pose proof (tunnelling_counts s) as M. rewrite St in M.
    destruct M as (_ & _ & _ & F). exact (F N).
Qed.
(** X4.  A call that returns reports "Optimization terminated
    successfully" exactly when the value it returns is below
    [fmin + glbtol].  (So the last test of the outer loop, made after the
    cap on global iterations, never fires: every value [best_f] takes
    has been tested before.) *)
Theorem AMPGO_success_iff_below_target (g : Rng) (fuel : nat) (r : result)
    (g' : Rng) :
  AMPGO a fuel g = Some (Returned r g') ->
  res_msg r = msg_success <-> (res_f r <? fmin a + glbtol a)%float = true.
Proof.
  intros E. destruct (AMPGO_last_step g fuel r g' E) as (c & s & R & St).
  change ((res_f r <? fmin a + glbtol a)%float) with (reached a (res_f r)).
  destruct c; cbn [step] in St.
  - pose proof (minimization_verdict s) as V. rewrite St in V. exact V.
  - pose proof (tunnelling_verdict s (reachable_not_reached g _ s R eq_refl))
      as V.
    rewrite St in V. exact V.
Qed.
(** *** Every call ends *)

(** More fuel than a run needs changes nothing. *)
Lemma run_more_fuel (fuel extra : nat) (c : control) (s : state)
    (o : @outcome Rng) :
  run a fuel c s = Some o -> run a (fuel + extra) c s = Some o.
Proof.
  revert c s. induction fuel as [|fuel IH]; intros c s E; [discriminate|].
  cbn [run Nat.add] in *.
  destruct (step a c s) as [c' s'|r g|e]; [apply IH; exact E | exact E..].
Qed.

(** X5.  Every call of [AMPGO] ends, whatever the objective, the local
    solver and the random draws do: within [max(1, totaliter) * (max(0,
    maxiter) + 2)] passes through its two loop heads it either raises the
    exception of the first argument check that fails, or returns with one
    of its three messages; the tabu list is never popped when empty.
    Passes beyond that bound change nothing. *)
Theorem AMPGO_terminates (g : Rng) (fuel : nat) :
  (loop_bound a <= fuel)%nat ->
  exists o, AMPGO a fuel g = Some o /\
    AMPGO a (loop_bound a) g = Some o /\
    match o with
    | Raised e => check_args a = Some e
    | Returned r _ => check_args a = None /\ return_reason a r
    end.
Proof.
  intros B. unfold AMPGO.
  destruct (check_args a) as [e|] eqn:C.
  - exists (Raised e). repeat split.
  - destruct (run_returns a (loop_bound a) Minimization (initial a g)
                (check_args_size a C)) as (r & g' & R & P).
    { rewrite passes_left_initial. apply Nat.le_refl. }
    exists (Returned r g'). split; [|split; [exact R | split; auto]].
    replace fuel with (loop_bound a + (fuel - loop_bound a))%nat by lia.
    apply run_more_fuel. exact R.
Qed.
End Counters.

(** The default arguments, for the sum of squares of a two-vector and the
    stand-in solver: the budget of 100 evaluations is spent, in 83
    tunnelling phases of the 100 that 20 rounds of 5 allow, and the value
    reported is 5. *)
Lemma AMPGO_message_tells_budget_witness :
  AMPGO (default_args (fun x => vsum (map sqr x)) [1; 2]%float) 140 0%nat
  = Some (Returned
            {| res_x := [1; 2]%float; res_f := 5%float;
               res_evaluations := 100; res_msg := msg_maxfunevals;
               res_tunnel := (83%Z, 0%Z) |} 83%nat) /\
  (msg_maxfunevals = msg_maxfunevals ->
   (initial_maxfunevals
      (default_args (Opts := unit) (fun x => vsum (map sqr x)) [1; 2]%float)
    <= 100)%Z) /\
  (msg_maxfunevals = msg_totaliter ->
   (100 < initial_maxfunevals
      (default_args (Opts := unit) (fun x => vsum (map sqr x)) [1; 2]%float))%Z).
Proof.
  split; [vm_compute; reflexivity|].
  apply (AMPGO_message_tells_budget
           (default_args (fun x => vsum (map sqr x)) [1; 2]%float) 0%nat 140
           {| res_x := [1; 2]%float; res_f := 5%float;
              res_evaluations := 100; res_msg := msg_maxfunevals;
              res_tunnel := (83%Z, 0%Z) |} 83%nat).
  vm_compute. reflexivity.
Defined.

Lemma AMPGO_tunnel_info_bounds_witness :
  (0 <= 0 <= 83)%Z /\
  (83 <= Z.max 1 (totaliter (default_args (Opts := unit)
                               (fun x => vsum (map sqr x)) [1; 2]%float))
         * Z.max 0 (maxiter (default_args (Opts := unit)
                               (fun x => vsum (map sqr x)) [1; 2]%float)))%Z.
Proof.
  apply (AMPGO_tunnel_info_bounds
           (default_args (fun x => vsum (map sqr x)) [1; 2]%float) 0%nat 140
           {| res_x := [1; 2]%float; res_f := 5%float;
              res_evaluations := 100; res_msg := msg_maxfunevals;
              res_tunnel := (83%Z, 0%Z) |} 83%nat).
  vm_compute. reflexivity.
Defined.

(** An objective that is [NaN] everywhere: no value ever replaces the
    infinity [best_f] starts from. *)
Lemma AMPGO_best_value_is_a_number_witness :
  AMPGO (default_args (fun _ => nan) [1; 2]%float) 140 0%nat
  = Some (Returned
            {| res_x := [1; 2]%float; res_f := infinity;
               res_evaluations := 100; res_msg := msg_maxfunevals;
               res_tunnel := (83%Z, 0%Z) |} 83%nat) /\
  is_nan infinity = false.
Proof.
  split; [vm_compute; reflexivity|].
  apply (AMPGO_best_value_is_a_number
           (default_args (fun _ => nan) [1; 2]%float) 0%nat 140
           {| res_x := [1; 2]%float; res_f := infinity;
              res_evaluations := 100; res_msg := msg_maxfunevals;
              res_tunnel := (83%Z, 0%Z) |} 83%nat).
  vm_compute. reflexivity.
Defined.
(** A known optimum: the sum of squares from the origin is at its
    minimum 0 after the first local search. *)
Lemma AMPGO_success_iff_below_target_witness :
  AMPGO {| objfun := fun x => vsum (map sqr x); x0 := [0%float];
           local := "L-BFGS-B"; local_opts := @None unit; bounds := None;
           maxfunevals := None; totaliter := 20; maxiter := 5;
           glbtol := 1e-5; eps1 := 0.02; eps2 := 0.1; tabulistsize := 5;
           tabustrategy := "farthest"; fmin := 0; disp := None |} 140 0%nat
  = Some (Returned
            {| res_x := [0%float]; res_f := 0%float; res_evaluations := 1;
               res_msg := msg_success; res_tunnel := (0%Z, 0%Z) |} 0%nat) /\
  (msg_success = msg_success <-> (0 <? 0 + 1e-5)%float = true).
Proof.
  split; [vm_compute; reflexivity|].
  apply (AMPGO_success_iff_below_target
           {| objfun := fun x => vsum (map sqr x); x0 := [0%float];
              local := "L-BFGS-B"; local_opts := @None unit; bounds := None;
              maxfunevals := None; totaliter := 20; maxiter := 5;
              glbtol := 1e-5; eps1 := 0.02; eps2 := 0.1; tabulistsize := 5;
              tabustrategy := "farthest"; fmin := 0; disp := None |}
           0%nat 140
           {| res_x := [0%float]; res_f := 0%float; res_evaluations := 1;
              res_msg := msg_success; res_tunnel := (0%Z, 0%Z) |} 0%nat).
  vm_compute. reflexivity.
Defined.

(** The default arguments: at most [20 * 7 = 140] passes. *)
Lemma AMPGO_terminates_witness :
  exists o,
    AMPGO (default_args (fun x => vsum (map sqr x)) [1; 2]%float) 1000 0%nat
      = Some o /\
    AMPGO (default_args (fun x => vsum (map sqr x)) [1; 2]%float)
      (loop_bound (default_args (Opts := unit) (fun x => vsum (map sqr x))
                     [1; 2]%float)) 0%nat = Some o /\
    match o with
    | Raised e =>
        check_args (default_args (fun x => vsum (map sqr x)) [1; 2]%float)
          = Some e
    | Returned r _ =>
        check_args (default_args (fun x => vsum (map sqr x)) [1; 2]%float)
          = None /\
        return_reason
          (default_args (Opts := unit) (fun x => vsum (map sqr x))
             [1; 2]%float) r
    end.
Proof.
  apply (AMPGO_terminates
           (default_args (fun x => vsum (map sqr x)) [1; 2]%float) 0%nat 1000).
  apply Nat.leb_le. reflexivity.
Defined.

End CounterFacts.

(** ** The bounds and the start point of a tunnelling phase *)
Module BoundsFacts.
Import AMPGO FloatFacts Examples.

Lemma leb_refl (x : float) : is_nan x = false -> (x <=? x)%float = true.
Proof.
  intros N. apply ltb_false_leb; [exact N | exact N | apply ltb_irrefl].
Qed.

Lemma ltb_neg_infinity (x : float) : (x <? neg_infinity)%float = false.
Proof.
  rewrite ltb_spec. change (Prim2SF neg_infinity) with (S754_infinity true).
  destruct (Prim2SF x) as [[|]|[|]| |[|] ? ?]; reflexivity.
Qed.

Lemma infinity_ltb (x : float) : (infinity <? x)%float = false.
Proof.
  rewrite ltb_spec. change (Prim2SF infinity) with (S754_infinity false).
  destruct (Prim2SF x) as [[|]|[|]| |[|] ? ?]; reflexivity.
Qed.

Lemma ltb_nan_r (x y : float) :
  is_nan y = true -> (x <? y)%float = false.
Proof.
  unfold is_nan. rewrite eqb_spec, ltb_spec. intros E.
  apply negb_true_iff in E. revert E.
  generalize (Prim2SF x) (Prim2SF y). intros p q.
  sf_cases; try (intros; reflexivity); try discriminate; cmp_cases.
Qed.

(** Between zero and zero there are only the two zeros. *)
Lemma between_zeros (z : float) :
  (0 <=? z)%float = true -> (z <=? 0)%float = true -> (z =? 0)%float = true.
Proof.
  rewrite !leb_spec, eqb_spec. change (Prim2SF 0) with (S754_zero false).
  destruct (Prim2SF z) as [[|]|[|]| |[|] ? ?]; cbn; congruence.
Qed.

(** The two [numpy.where] calls, coordinate by coordinate. *)
Lemma clip_nth (x lo hi : list float) (i : nat) (z : float) :
  nth_error (clip_up (clip_low x lo) hi) i = Some z ->
  exists xi li ui,
    nth_error x i = Some xi /\ nth_error lo i = Some li /\
    nth_error hi i = Some ui /\
    z = (let y := if (xi <? li)%float then li else xi in
         if (ui <? y)%float then ui else y).
Proof.
  unfold clip_up, clip_low, vec_map2.
  revert lo hi i. induction x as [|xi x IH]; intros [|li lo] [|ui hi] [|i];
    cbn; try discriminate.
  - intros E; injection E as <-. exists xi, li, ui. auto.
  - intros E. destruct (IH lo hi i E) as (xi' & li' & ui' & P).
    exists xi', li', ui'. exact P.
Qed.

Lemma clip_id (x lo hi : list float) :
  List.length lo = List.length x -> List.length hi = List.length x ->
  Forall (fun l => l = neg_infinity) lo ->
  Forall (fun u => u = infinity) hi ->
  clip_up (clip_low x lo) hi = x.
Proof.
  unfold clip_up, clip_low, vec_map2.
  revert lo hi. induction x as [|xi x IH]; intros [|li lo] [|ui hi] Ll Lh Fl Fh;
    cbn in *; try discriminate; try reflexivity.
  inversion Fl as [|? ? -> Fl']. inversion Fh as [|? ? -> Fh']. subst.
  rewrite ltb_neg_infinity, infinity_ltb. f_equal.
  apply IH; try assumption; lia.
Qed.

Section Bounds.
Context {Opts Rng : Type} `{Solvers Opts Rng}.
Variable a : @Args Opts.

(** X6.  A coordinate of the start point of a tunnelling phase lies
    within its bounds, provided the bounds are numbers (infinities
    included) with [low <= up] and the coordinate of [xf + beta*r] is not
    [NaN]. *)
Theorem perturb_within_bounds (xf r : list float) (i : nat)
    (z xi li ui : float) :
  nth_error (perturb a xf r) i = Some z ->
  nth_error
    (vec_map2 PrimFloat.add xf (map (PrimFloat.mul (step_scale a xf r)) r)) i
    = Some xi ->
  nth_error (low a) i = Some li ->
  nth_error (up a) i = Some ui ->
  is_nan xi = false -> is_nan li = false -> is_nan ui = false ->
  (li <=? ui)%float = true ->
  (li <=? z)%float = true /\ (z <=? ui)%float = true.
Proof.
  unfold perturb. cbv zeta. intros P X L U Nx Nl Nu O.
  destruct (clip_nth _ _ _ _ _ P) as (xi' & li' & ui' & X' & L' & U' & ->).
  rewrite X in X'. rewrite L in L'. rewrite U in U'.
  injection X' as <-. injection L' as <-. injection U' as <-. cbv zeta.
  destruct (xi <? li)%float eqn:A.
  - destruct (ui <? li)%float eqn:B.
    + split; [exact O | apply leb_refl; exact Nu].
    + split; [apply leb_refl; exact Nl | exact O].
  - destruct (ui <? xi)%float eqn:B.
    + split; [exact O | apply leb_refl; exact Nu].
    + split; apply ltb_false_leb; assumption.
Qed.

(** X7.  Without [bounds] every coordinate is bounded by the two
    infinities and nothing is clipped: the start point of a tunnelling
    phase is [xf + beta*r] itself, [NaN] coordinates included. *)
Theorem perturb_unclipped_without_bounds (xf r : list float) :
  bounds a = None ->
  List.length xf = List.length (x0 a) ->
  List.length r = List.length (x0 a) ->
  perturb a xf r =
    vec_map2 PrimFloat.add xf (map (PrimFloat.mul (step_scale a xf r)) r).
Proof.
  intros B Lx Lr. unfold perturb. cbv zeta.
  assert (Len : List.length
                  (vec_map2 PrimFloat.add xf
                     (map (PrimFloat.mul (step_scale a xf r)) r))
                = List.length (x0 a)).
  { unfold vec_map2. rewrite length_map, length_combine, length_map. lia. }
  apply clip_id.
  - unfold low, the_bounds. rewrite B, length_map, repeat_length, Len.
    reflexivity.
  - unfold up, the_bounds. rewrite B, length_map, repeat_length, Len.
    reflexivity.
  - unfold low, the_bounds. rewrite B. apply Forall_forall. intros l I.
    apply in_map_iff in I. destruct I as (b & <- & I).
    apply repeat_spec in I. subst b. reflexivity.
  - unfold up, the_bounds. rewrite B. apply Forall_forall. intros u I.
    apply in_map_iff in I. destruct I as (b & <- & I).
    apply repeat_spec in I. subst b. reflexivity.
Qed.

(** X8.  An entry of [bounds] that is [None] itself, rather than a pair,
    leaves the zeros [low] and [up] are created with in place: the
    coordinate of every start point of a tunnelling phase is then a zero,
    unless it is [NaN]. *)
Theorem none_bound_pins_coordinate (xf r : list float) (i : nat) (z : float) :
  nth_error (the_bounds a) i = Some None ->
  nth_error (perturb a xf r) i = Some z ->
  (z =? 0)%float = true \/ is_nan z = true.
Proof.
  unfold perturb. cbv zeta. intros B P.
  destruct (clip_nth _ _ _ _ _ P) as (xi & li & ui & X & L & U & ->).
  unfold low in L. unfold up in U.
  rewrite nth_error_map, B in L. rewrite nth_error_map, B in U.
  cbn in L, U. injection L as <-. injection U as <-. cbv zeta.
  destruct (is_nan xi) eqn:N.
  - right. rewrite (is_nan_ltb xi 0 N), (ltb_nan_r 0 xi N). exact N.
  - left. apply between_zeros.
    + destruct (xi <? 0)%float eqn:A.
      * reflexivity.
      * destruct (0 <? xi)%float; [reflexivity|].
        apply ltb_false_leb; [exact N | reflexivity | exact A].
    + destruct (xi <? 0)%float eqn:A.
      * reflexivity.
      * destruct (0 <? xi)%float eqn:B'; [reflexivity|].
        apply ltb_false_leb; [reflexivity | exact N | exact B'].
Qed.
End Bounds.

(** One variable between 0 and 1: from the local minimum [[0.95]] the
    direction [[0.5]] leads to [1.045], which is clipped to the upper
    bound. *)
Lemma perturb_within_bounds_witness :
  (0 <=? 1)%float = true /\ (1 <=? 1)%float = true.
Proof.
  apply (perturb_within_bounds
           (bounded_args [Some (Some 0%float, Some 1%float)] [0.95%float])
           [0.95%float] [0.5%float] 0 1%float
           (0.95 + 0.1 * norm [0.95] / norm [0.5] * 0.5)%float
           0%float 1%float);
    reflexivity.
Defined.

(** The default arguments: the start point is [xf + beta*r] as it is. *)
Lemma perturb_unclipped_without_bounds_witness :
  perturb (default_args (Opts := unit) (fun x => vsum (map sqr x))
             [1; 2]%float) [1; 2]%float [0.5; 0.5]%float
  = vec_map2 PrimFloat.add [1; 2]%float
      (map (PrimFloat.mul
              (step_scale (default_args (Opts := unit)
                             (fun x => vsum (map sqr x)) [1; 2]%float)
                 [1; 2]%float [0.5; 0.5]%float))
         [0.5; 0.5]%float).
Proof.
  apply (perturb_unclipped_without_bounds
           (default_args (Opts := unit) (fun x => vsum (map sqr x))
              [1; 2]%float) [1; 2]%float [0.5; 0.5]%float);
    reflexivity.
Defined.

(** [bounds=[None]]: from the local minimum [[3.0]] the start point is
    [[0.0]]. *)
Lemma none_bound_pins_coordinate_witness :
  perturb (bounded_args [None] [3%float]) [3%float] [0.5%float] = [0%float] /\
  ((0 =? 0)%float = true \/ is_nan 0 = true).
Proof.
  split; [reflexivity|].
  apply (none_bound_pins_coordinate (bounded_args [None] [3%float])
           [3%float] [0.5%float] 0 0%float);
    reflexivity.
Defined.

End BoundsFacts.

(** ** The shape of the residual array *)
Module ResidualFacts.
Import BMNS Examples.
Local Open Scope float_scope.

Section Residuals.
Context {Rng : Type} `{Collaborators Rng}.
Variable gl : Global.

Lemma replace_bad_length (r : list float) :
  List.length (replace_bad r) = List.length r.
Proof.
  unfold replace_bad.
  destruct (existsb isnan r || existsb isinf r)%bool; [|reflexivity].
  apply length_map.
Qed.

Lemma residual_R1p_rows (Params : list float) (ob : Fits) :
  List.length (residual_R1p gl Params None ob) =
    if (String.eqb (gFitEqn gl) "bm" || String.eqb (gFitEqn gl) "lag")%bool
    then List.length (R1pD ob) else 0%nat.
Proof.
  unfold residual_R1p.
  assert (L : List.length (combine (R1pD ob) (map R1p (R1pD ob)))
              = List.length (R1pD ob)).
  { rewrite length_combine, length_map. apply Nat.min_id. }
  destruct (String.eqb (gFitEqn gl) "bm"); cbn [orb].
  { destruct (_ && true)%bool; rewrite length_map; exact L. }
  destruct (String.eqb (gFitEqn gl) "lag"); [|reflexivity].
  destruct (_ && true)%bool; rewrite length_map; exact L.
Qed.

(** X12.  In R1rho mode, on the measured rates, [residual] returns an
    array with one entry for each data point of each dataset when the fit
    equation is "bm" or "lag", and an empty array for any other fit
    equation. *)
Theorem residual_has_one_entry_per_point (Params : list float) :
  exists resid, residual gl Params None "R1p" = Some resid /\
    List.length resid =
      if (String.eqb (gFitEqn gl) "bm" || String.eqb (gFitEqn gl) "lag")%bool
      then list_sum (map (fun ob => List.length (R1pD ob)) (gObs gl))
      else 0%nat.
Proof.
  unfold residual, raw_residual. cbn [String.eqb Ascii.eqb Bool.eqb option_map].
  eexists. split; [reflexivity|].
  rewrite replace_bad_length, length_flat_map.
  rewrite (map_ext _ _ (residual_R1p_rows Params)).
  destruct (String.eqb (gFitEqn gl) "bm" || String.eqb (gFitEqn gl) "lag")%bool;
    [reflexivity|].
  induction (gObs gl) as [|ob obs IH]; [reflexivity | exact IH].
Qed.

Lemma forallb_length_false (n : nat) (rs : list (list float)) :
  forallb (fun r' => (List.length r' =? n)%nat) rs = false <->
  exists r', In r' rs /\ List.length r' <> n.
Proof.
  induction rs as [|r rs IH]; cbn.
  - split; [discriminate | intros (r' & [] & _)].
  - rewrite andb_false_iff, IH, Nat.eqb_neq. split.
    + intros [N|(r' & I & N)]; [exists r | exists r']; auto.
    + intros (r' & [<-|I] & N); [left | right; exists r']; auto.
Qed.

Lemma concat_length_uniform (n : nat) (rs : list (list float)) :
  forallb (fun r' => (List.length r' =? n)%nat) rs = true ->
  List.length (concat rs) = (List.length rs * n)%nat.
Proof.
  induction rs as [|r rs IH]; cbn; [reflexivity|].
  intros E. apply andb_true_iff in E. destruct E as [E1 E2].
  apply Nat.eqb_eq in E1. rewrite length_app, (IH E2), E1. reflexivity.
Qed.

(** X13.  In intensity mode [residual] raises exactly when the datasets
    hold no decay at all, or hold two decays whose residual rows differ
    in length; otherwise it returns the rows laid end to end, an array
    of the number of decays times the length of a row. *)
Theorem residual_Ints_needs_equal_decays (Params : list float)
    (R1p_MC : option bool) :
  let rows := flat_map (residual_Ints Params R1p_MC) (gObs gl) in
  (residual gl Params R1p_MC "Ints" = None <->
   rows = [] \/
   exists r r', In r rows /\ In r' rows /\ List.length r <> List.length r') /\
  (forall resid, residual gl Params R1p_MC "Ints" = Some resid ->
     List.length resid = (List.length rows * List.length (hd [] rows))%nat).
Proof.
  cbv zeta. unfold residual, raw_residual.
  cbn [String.eqb Ascii.eqb Bool.eqb].
  destruct (flat_map (residual_Ints Params R1p_MC) (gObs gl))
    as [|r rs]; cbn [reshape_flat hd].
  { split; [split; auto | discriminate]. }
  destruct (forallb (fun r' => (List.length r' =? List.length r)%nat) rs)
    eqn:F; cbn [option_map].
  - split.
    + split; [discriminate|].
      intros [E|(r1 & r2 & I1 & I2 & N)]; [discriminate|]. exfalso.
      assert (K : forall x, In x (r :: rs) ->
                    List.length x = List.length r).
      { intros x [<-|I]; [reflexivity|].
        rewrite forallb_forall in F. apply Nat.eqb_eq, F, I. }
      rewrite (K r1 I1), (K r2 I2) in N. apply N; reflexivity.
    + intros resid E. injection E as <-.
      rewrite replace_bad_length.
      change (concat (r :: rs)) with (r ++ concat rs).
      rewrite length_app, (concat_length_uniform _ _ F). cbn. lia.
  - split; [|discriminate].
    split; [|reflexivity]. intros _. right.
    apply forallb_length_false in F. destruct F as (r' & I & N).
    exists r', r. cbn. auto.
Qed.
End Residuals.

End ResidualFacts.

(** ** The records and the data of a run of the fitting loop *)
Module LoopFacts.
Import BMNS FitFacts Examples.
Local Open Scope float_scope.

(** What a dataset holds besides its Monte-Carlo attributes. *)
Local Notation "'measured'" :=
  (fun ob : Fits =>
     (FitNum ob, lf ob, time ob, AlignMag ob, R1pD ob, R1pD_ints ob)).

Section Loop.
Context {Opts Rng : Type} `{AMPGO.Solvers Opts Rng} `{Collaborators Rng}.

(** Two sessions hold the same data when their [Global] objects agree up
    to the Monte-Carlo attributes of the datasets. *)

Lemma for_rng_length {X Y : Type} (body : X -> Rng -> Y * Rng) (l : list X)
    (g : Rng) :
  List.length (fst (for_rng body l g)) = List.length l.
Proof.
  revert g. induction l as [|x l IH]; intros g; cbn; [reflexivity|].
  destruct (body x g) as [y g1]. specialize (IH g1).
  destruct (for_rng body l g1) as [ys g2]. cbn in *. rewrite IH. reflexivity.
Qed.

Lemma for_rng_keeps {X Y W : Type} (body : X -> Rng -> Y * Rng)
    (px : X -> W) (py : Y -> W) (l : list X) (g : Rng) :
  (forall x g', py (fst (body x g')) = px x) ->
  map py (fst (for_rng body l g)) = map px l.
Proof.
  intros K. revert g. induction l as [|x l IH]; intros g; cbn; [reflexivity|].
  pose proof (K x g) as Kx.
  destruct (body x g) as [y g1]. specialize (IH g1).
  destruct (for_rng body l g1) as [ys g2]. cbn in *. rewrite IH, Kx.
  reflexivity.
Qed.

Lemma corrupt_R1p_measured (ob : Fits) (g : Rng) :
  measured (fst (corrupt_R1p ob g)) = measured ob.
Proof.
  unfold corrupt_R1p. destruct (for_rng _ (R1pD ob) g). reflexivity.
Qed.

Lemma corrupt_Ints_measured (ob : Fits) (g : Rng) :
  measured (fst (corrupt_Ints ob g)) = measured ob.
Proof.
  unfold corrupt_Ints. destruct (for_rng _ (R1pD_ints ob) g). reflexivity.
Qed.

Lemma mc_round_local_data (start : list float) (s s' : @session Rng)
    (p : list float) :
  mc_round_local start s = Some (p, s') ->
  fits s' = fits s /\ written s' = written s /\
  set_gObs (s_gl s') [] = set_gObs (s_gl s) [] /\
  map measured (gObs (s_gl s')) = map measured (gObs (s_gl s)).
Proof.
  unfold mc_round_local.
  pose proof (for_rng_keeps corrupt_R1p measured measured (gObs (s_gl s))
                (rng s) corrupt_R1p_measured) as K.
  destruct (for_rng corrupt_R1p (gObs (s_gl s)) (rng s)) as [obs g].
  unfold bind. destruct (least_squares _ _ _ _); [|discriminate].
  intros E; injection E as _ <-. cbn. auto.
Qed.

Lemma mc_round_localint_data (start : list float) (s s' : @session Rng)
    (p : list float) :
  mc_round_localint start s = Some (p, s') ->
  fits s' = fits s /\ written s' = written s /\
  set_gObs (s_gl s') [] = set_gObs (s_gl s) [] /\
  map measured (gObs (s_gl s')) = map measured (gObs (s_gl s)).
Proof.
  unfold mc_round_localint.
  pose proof (for_rng_keeps corrupt_Ints measured measured (gObs (s_gl s))
                (rng s) corrupt_Ints_measured) as K.
  destruct (for_rng corrupt_Ints (gObs (s_gl s)) (rng s)) as [obs g].
  unfold bind. destruct (least_squares _ _ _ _); [|discriminate].
  intros E; injection E as _ <-. cbn. auto.
Qed.

(** The Monte-Carlo loop makes one refit for each of its rounds and
    leaves records and measured data as they are. *)
Lemma mc_loop_data (round : @session Rng -> option (list float * session))
    (fitMC : Z) (todo : list Z) (tpars tp : list (list float))
    (s s' : @session Rng) :
  (forall s1 s2 p, round s1 = Some (p, s2) ->
     fits s2 = fits s1 /\ written s2 = written s1 /\
     set_gObs (s_gl s2) [] = set_gObs (s_gl s1) [] /\
     map measured (gObs (s_gl s2)) = map measured (gObs (s_gl s1))) ->
  mc_loop round fitMC todo tpars s = Some (tp, s') ->
  List.length tp = (List.length tpars + List.length todo)%nat /\
  fits s' = fits s /\ written s' = written s /\
  set_gObs (s_gl s') [] = set_gObs (s_gl s) [] /\
  map measured (gObs (s_gl s')) = map measured (gObs (s_gl s)).
Proof.
  intros K. revert tpars s.
  induction todo as [|i todo IH]; intros tpars s E; cbn in E.
  - injection E as <- <-. rewrite Nat.add_0_r. auto.
  - unfold bind in E.
    destruct (round (print (MCProgress (i + 1) fitMC) s)) as [[p s1]|] eqn:R;
      [|discriminate].
    cbn [fst snd] in E.
    destruct (K _ _ _ R) as (F1 & W1 & G1 & D1).
    destruct (IH _ _ E) as (L & F2 & W2 & G2 & D2).
    rewrite length_app in L. cbn [List.length] in L |- *.
    repeat split; [lia | rewrite F2; exact F1 | rewrite W2; exact W1
                  | rewrite G2; exact G1 | rewrite D2; exact D1].
Qed.
(** *** The rows a local fit writes *)

Lemma map_fst_combine {X Y : Type} (l1 : list X) (l2 : list Y) :
  List.length l1 = List.length l2 -> map fst (combine l1 l2) = l1.
Proof.
  revert l2. induction l1 as [|x l1 IH]; intros [|y l2] L; cbn in *;
    try discriminate; [reflexivity|].
  rewrite IH by lia. reflexivity.
Qed.

Lemma map_flat_map {X Y W : Type} (h : Y -> W) (f : X -> list Y)
    (l : list X) :
  map h (flat_map f l) = flat_map (fun x => map h (f x)) l.
Proof.
  induction l as [|x l IH]; cbn; [reflexivity|].
  rewrite map_app, IH. reflexivity.
Qed.

Lemma flat_map_by_key {X K Y : Type} (k : X -> K) (f : K -> list Y)
    (l l' : list X) :
  map k l = map k l' ->
  flat_map (fun x => f (k x)) l = flat_map (fun x => f (k x)) l'.
Proof.
  revert l'. induction l as [|x l IH]; intros [|x' l'] E; cbn in *;
    try discriminate; [reflexivity|].
  injection E as -> E. rewrite (IH l' E). reflexivity.
Qed.

Lemma measured_FitNum (l l' : list Fits) :
  map measured l = map measured l' -> map FitNum l = map FitNum l'.
Proof.
  intros E.
  apply (f_equal (map (fun t : nat * float * list float * string
                                * list R1p_row * list Decay =>
                         fst (fst (fst (fst (fst t))))))) in E.
  rewrite !map_map in E. exact E.
Qed.

Lemma mc_records_rows (gl : Global) (ob : Fits) (fitted : OptimizeResult)
    (MCpars : list (list float)) (RCS_list fiterr : list float) :
  List.length RCS_list = List.length MCpars ->
  map (fun r => (rec_ob r, rec_idx r, rec_stage r))
      (mc_records gl ob fitted MCpars RCS_list fiterr)
  = map (fun i => (FitNum ob, (i + 1)%Z, "mcerr"%string))
        (range (Z.of_nat (List.length MCpars))).
Proof.
  intros L. unfold mc_records, range. rewrite Nat2Z.id, !map_map.
  rewrite <- (map_fst_combine (seq 0 (List.length MCpars))
                (combine MCpars RCS_list)) at 2
    by (rewrite length_seq, length_combine; lia).
  rewrite map_map. apply map_ext. intros [idx [f r]]. reflexivity.
Qed.

Lemma local_records_rows (gl : Global) (m : bool) (lp : Z)
    (fitted : OptimizeResult) (MCpars : list (list float)) (ob : Fits) :
  map (fun r => (rec_ob r, rec_idx r, rec_stage r))
      (local_records gl m lp fitted MCpars ob)
  = (if m
     then map (fun i => (FitNum ob, (i + 1)%Z, "mcerr"%string))
              (range (Z.of_nat (List.length MCpars)))
     else [])
    ++ [(FitNum ob, (lp + 1)%Z, "local"%string)].
Proof.
  unfold local_records. rewrite map_app. cbn [map rec_ob rec_idx rec_stage].
  f_equal. destruct m; cbn [negb]; [|reflexivity].
  apply mc_records_rows. rewrite length_map. reflexivity.
Qed.

Lemma range_length (n : Z) : List.length (range n) = Z.to_nat n.
Proof. unfold range. rewrite length_map, length_seq. reflexivity. Qed.

Lemma range_to_nat (n : Z) : range (Z.of_nat (Z.to_nat n)) = range n.
Proof. unfold range. rewrite Nat2Z.id. reflexivity. Qed.

(** The rows one local fit adds. *)
Lemma fit_local_rows (m : bool) (fitMC lp : Z) (s s' : @session Rng) :
  let rows :=
    flat_map (fun ob =>
      (if m
       then map (fun i => (FitNum ob, (i + 1)%Z, "mcerr"%string))
                (range fitMC)
       else [])
      ++ [(FitNum ob, (lp + 1)%Z, "local"%string)]) (gObs (s_gl s)) in
  fit_local m fitMC lp s = Some s' ->
  written s' = written s ++ rows /\
  map (fun r => (rec_ob r, rec_idx r, rec_stage r)) (fits s')
  = map (fun r => (rec_ob r, rec_idx r, rec_stage r)) (fits s) ++ rows.
Proof.
  cbv zeta. unfold fit_local.
  change (initial_guess (print (Banner "local" (lp + 1)) s))
    with (initial_guess s).
  destruct (initial_guess s) as [tP0 g1].
  set (s2 := with_rng g1 (print (Banner "local" (lp + 1)) s)).
  unfold bind at 1.
  destruct (least_squares _ tP0 _ _) as [fitted|]; [|discriminate].
  assert (M : forall MCpars (s3 : @session Rng),
    (if m then List.length MCpars = Z.to_nat fitMC else True) ->
    fits s3 = fits s -> written s3 = written s ->
    map measured (gObs (s_gl s3)) = map measured (gObs (s_gl s)) ->
    map (fun r => (rec_ob r, rec_idx r, rec_stage r))
        (flat_map (local_records (s_gl s3) m lp fitted MCpars)
           (gObs (s_gl s3)))
    = flat_map (fun ob =>
        (if m
         then map (fun i => (FitNum ob, (i + 1)%Z, "mcerr"%string))
                  (range fitMC)
         else [])
        ++ [(FitNum ob, (lp + 1)%Z, "local"%string)]) (gObs (s_gl s))).
  { intros MCpars s3 L F W D.
    rewrite map_flat_map.
    rewrite (@flat_map_ext _ _ _ _
               (fun ob => local_records_rows (s_gl s3) m lp fitted MCpars ob)).
    destruct m.
    - rewrite L, range_to_nat.
      apply (flat_map_by_key FitNum
               (fun k => map (fun i => (k, (i + 1)%Z, "mcerr"%string))
                             (range fitMC)
                         ++ [(k, (lp + 1)%Z, "local"%string)])).
      apply measured_FitNum. exact D.
    - apply (flat_map_by_key FitNum
               (fun k => [] ++ [(k, (lp + 1)%Z, "local"%string)])).
      apply measured_FitNum. exact D. }
  assert (K : forall MCpars (s3 : @session Rng),
    (if m then List.length MCpars = Z.to_nat fitMC else True) ->
    fits s3 = fits s -> written s3 = written s ->
    map measured (gObs (s_gl s3)) = map measured (gObs (s_gl s)) ->
    Some (store_all
            (flat_map (local_records (s_gl s3) m lp fitted MCpars)
               (gObs (s_gl s3))) s3) = Some s' ->
    written s' = written s ++
      flat_map (fun ob =>
        (if m
         then map (fun i => (FitNum ob, (i + 1)%Z, "mcerr"%string))
                  (range fitMC)
         else [])
        ++ [(FitNum ob, (lp + 1)%Z, "local"%string)]) (gObs (s_gl s)) /\
    map (fun r => (rec_ob r, rec_idx r, rec_stage r)) (fits s')
    = map (fun r => (rec_ob r, rec_idx r, rec_stage r)) (fits s) ++
      flat_map (fun ob =>
        (if m
         then map (fun i => (FitNum ob, (i + 1)%Z, "mcerr"%string))
                  (range fitMC)
         else [])
        ++ [(FitNum ob, (lp + 1)%Z, "local"%string)]) (gObs (s_gl s))).
  { intros MCpars s3 L F W D E. injection E as <-.
    destruct (store_all_fields
                (flat_map (local_records (s_gl s3) m lp fitted MCpars)
                   (gObs (s_gl s3))) s3) as (_ & F4 & W4 & _).
    rewrite F4, W4, F, W, map_app, (M MCpars s3 L F W D). auto. }
  destruct m.
  - destruct (mc_loop (mc_round_local (opt_x fitted)) fitMC (range fitMC) []
                s2) as [[MCpars s3]|] eqn:E; [|discriminate].
    cbn [bind].
    destruct (mc_loop_data _ _ _ _ _ _ _
                (fun s1 s2 p => mc_round_local_data (opt_x fitted) s1 s2 p) E)
      as (L & F & W & _ & D).
    apply K; try assumption. rewrite L, range_length. reflexivity.
  - cbn [bind]. apply (K [] s2); auto; reflexivity.
Qed.
(** *** The measured data are never written to *)

Lemma fit_local_data (m : bool) (fitMC lp : Z) (s s' : @session Rng) :
  fit_local m fitMC lp s = Some s' ->
  set_gObs (s_gl s') [] = set_gObs (s_gl s) [] /\
  map measured (gObs (s_gl s')) = map measured (gObs (s_gl s)).
Proof.
  unfold fit_local.
  change (initial_guess (print (Banner "local" (lp + 1)) s))
    with (initial_guess s).
  destruct (initial_guess s) as [tP0 g1].
  set (s2 := with_rng g1 (print (Banner "local" (lp + 1)) s)).
  unfold bind at 1.
  destruct (least_squares _ tP0 _ _) as [fitted|]; [|discriminate].
  destruct m.
  - destruct (mc_loop (mc_round_local (opt_x fitted)) fitMC (range fitMC) []
                s2) as [[MCpars s3]|] eqn:E; [|discriminate].
    cbn [bind]. intros R; injection R as <-.
    destruct (mc_loop_data _ _ _ _ _ _ _
                (fun s1 s2 p => mc_round_local_data (opt_x fitted) s1 s2 p) E)
      as (_ & _ & _ & G & D).
    rewrite (proj1 (store_all_fields _ _)). split; [exact G | exact D].
  - cbn [bind]. intros R; injection R as <-.
    rewrite (proj1 (store_all_fields _ _)). split; reflexivity.
Qed.

Lemma fit_localint_data (m : bool) (fitMC lp : Z) (s s' : @session Rng) :
  fit_localint m fitMC lp s = Some s' ->
  set_gObs (s_gl s') [] = set_gObs (s_gl s) [] /\
  map measured (gObs (s_gl s')) = map measured (gObs (s_gl s)).
Proof.
  unfold fit_localint.
  change (initial_guess (print (Banner "localint" (lp + 1)) s))
    with (initial_guess s).
  destruct (initial_guess s) as [tP0 g1].
  set (s2 := with_rng g1 (print (Banner "localint" (lp + 1)) s)).
  unfold bind at 1.
  destruct (hd_error (gObs (s_gl s2))); [|discriminate].
  unfold bind at 1.
  destruct (least_squares _ tP0 _ _) as [fitted|]; [|discriminate].
  destruct m.
  - destruct (mc_loop (mc_round_localint (opt_x fitted)) fitMC (range fitMC)
                [] s2) as [[MCpars s3]|] eqn:E; [|discriminate].
    cbn [bind]. intros R; injection R as <-.
    destruct (mc_loop_data _ _ _ _ _ _ _
                (fun s1 s2 p => mc_round_localint_data (opt_x fitted) s1 s2 p)
                E)
      as (_ & _ & _ & G & D).
    rewrite (proj1 (store_all_fields _ _)). split; [exact G | exact D].
  - cbn [bind]. intros R; injection R as <-.
    rewrite (proj1 (store_all_fields _ _)). split; reflexivity.
Qed.

Lemma fit_brute_gl (arrival : list nat) (lp : Z) (s s' : @session Rng) :
  fit_brute arrival lp s = Some s' -> s_gl s' = s_gl s.
Proof.
  unfold fit_brute, bind.
  destruct (brute_seed (s_gl s) arrival); [|discriminate].
  destruct (least_squares _ _ _ _); [|discriminate].
  intros R; injection R as <-.
  rewrite (proj1 (store_all_fields _ _)). reflexivity.
Qed.

Lemma fit_iteration_data (inp : run_inputs) (lp : Z) (s s' : @session Rng) :
  fit_iteration inp lp s = Some s' ->
  set_gObs (s_gl s') [] = set_gObs (s_gl s) [] /\
  map measured (gObs (s_gl s')) = map measured (gObs (s_gl s)).
Proof.
  unfold fit_iteration.
  destruct (String.eqb (FitType (s_gl s)) "global").
  { intros E. rewrite (fit_global_gl _ _ _ _ E). split; reflexivity. }
  destruct (String.eqb (FitType (s_gl s)) "local").
  { apply fit_local_data. }
  destruct (String.eqb (FitType (s_gl s)) "localint").
  { apply fit_localint_data. }
  destruct (String.eqb (FitType (s_gl s)) "bruteint"
            || String.eqb (FitType (s_gl s)) "bruteintp")%bool.
  { intros E; injection E as <-. split; reflexivity. }
  destruct (String.eqb (FitType (s_gl s)) "brute"
            || String.eqb (FitType (s_gl s)) "brutep")%bool.
  { intros E. rewrite (fit_brute_gl _ _ _ _ E). split; reflexivity. }
  intros E; injection E as <-. split; reflexivity.
Qed.

Lemma fit_loops_data (inp : run_inputs) (lps : list Z) (s s' : @session Rng) :
  fit_loops inp lps s = Some s' ->
  set_gObs (s_gl s') [] = set_gObs (s_gl s) [] /\
  map measured (gObs (s_gl s')) = map measured (gObs (s_gl s)).
Proof.
  revert s. induction lps as [|lp lps IH]; intros s E; cbn in E.
  - injection E as <-. split; reflexivity.
  - unfold bind in E.
    destruct (fit_iteration inp lp s) as [s1|] eqn:I; [|discriminate].
    destruct (fit_iteration_data _ _ _ _ I) as (G1 & D1).
    destruct (IH _ E) as (G2 & D2).
    split; [rewrite G2; exact G1 | rewrite D2; exact D1].
Qed.

(** X14.  Whatever the fit type, a run of the fitting loop that ends
    leaves the [Global] object as the set-up made it, up to the
    Monte-Carlo attributes [R1p_MC] and [R1pD_MC] of the datasets: the
    datasets are the same in number and order, each with its data, field,
    times and alignment, and the fit type, loop count, initial guess,
    bounds, degrees of freedom, fit equation and grid are unchanged. *)
Theorem Main_fit_keeps_measured_data (inp : run_inputs) (gl : Global)
    (g : Rng) (s : @session Rng) :
  Main_fit inp gl g = Some s ->
  map measured (gObs (s_gl s)) = map measured (gObs gl) /\
  set_gObs (s_gl s) (gObs gl) = gl.
Proof.
  unfold Main_fit. intros E.
  destruct (fit_loops_data _ _ _ _ E) as (G & D). cbn [s_gl] in G, D.
  split; [exact D|].
  destruct gl, (s_gl s). unfold set_gObs in *. cbn in *. congruence.
Qed.
(** *** Fit types the loop does not know *)

(** X15.  For a fit type other than "global", "local", "localint",
    "brute" and "brutep" the loop fits nothing: it ends, with no record
    unpacked, no row written, the [Global] object and the random generator
    untouched, having printed "Fit Type not declared properly (global or
    local)" once per fit loop, or nothing at all for "bruteint" and
    "bruteintp". *)
Theorem undeclared_fit_type_fits_nothing (inp : run_inputs) (gl : Global)
    (g : Rng) :
  (forall t, In t ["global"; "local"; "localint"; "brute"; "brutep"]%string ->
     FitType gl <> t) ->
  exists s, Main_fit inp gl g = Some s /\
    effects s = (gl, [], [], g) /\
    stdout s =
      if (String.eqb (FitType gl) "bruteint"
          || String.eqb (FitType gl) "bruteintp")%bool
      then []
      else repeat (Text "Fit Type not declared properly (global or local)")
             (Z.to_nat (FitLoops gl)).
Proof.
  intros U. unfold Main_fit, range.
  set (msg := Text "Fit Type not declared properly (global or local)").
  set (quiet := (String.eqb (FitType gl) "bruteint"
                 || String.eqb (FitType gl) "bruteintp")%bool).
  assert (K : forall (lps : list Z) (s : @session Rng),
    s_gl s = gl ->
    exists s', fit_loops inp lps s = Some s' /\ effects s' = effects s /\
      stdout s' = stdout s ++
        (if quiet then [] else repeat msg (List.length lps))).
  { induction lps as [|lp lps IH]; intros s G.
    - exists s. cbn. destruct quiet; rewrite app_nil_r; auto.
    - cbn [fit_loops]. unfold fit_iteration. rewrite G.
      destruct (String.eqb_spec (FitType gl) "global") as [E|_].
      { exfalso. apply (U "global"%string); cbn; auto. }
      destruct (String.eqb_spec (FitType gl) "local") as [E|_].
      { exfalso. apply (U "local"%string); cbn; auto. }
      destruct (String.eqb_spec (FitType gl) "localint") as [E|_].
      { exfalso. apply (U "localint"%string); cbn; auto. }
      fold quiet. destruct quiet eqn:Q.
      + cbn [bind]. destruct (IH s G) as (s' & L & E & O).
        exists s'. rewrite app_nil_r in *. auto.
      + destruct (String.eqb_spec (FitType gl) "brute") as [E|_].
        { exfalso. apply (U "brute"%string); cbn; auto. }
        destruct (String.eqb_spec (FitType gl) "brutep") as [E|_].
        { exfalso. apply (U "brutep"%string); cbn; auto 6. }
        cbn [orb bind].
        destruct (IH (print msg s) G) as (s' & L & E & O).
        exists s'. split; [exact L|]. split; [exact E|].
        rewrite O. cbn [print stdout List.length repeat].
        rewrite <- app_assoc. reflexivity. }
  destruct (K (map Z.of_nat (seq 0 (Z.to_nat (FitLoops gl))))
              {| s_gl := gl; fits := []; written := []; stdout := [];
                 rng := g |} eq_refl) as (s' & L & E & O).
  exists s'. split; [exact L|]. split; [exact E|].
  rewrite O, length_map, length_seq. reflexivity.
Qed.
(** *** When the global fit fails *)

Lemma ampgo_args_checked (gl : Global) (tP0 : list float) :
  AMPGO.check_args (ampgo_args (Opts := Opts) gl tP0) =
    if negb AMPGO.SCIPY then Some AMPGO.NoScipyInstallation
    else if negb (List.length (combine (fst (gBnds gl)) (snd (gBnds gl)))
                  =? List.length tP0)%nat
    then Some AMPGO.BoundsLengthMismatch
    else None.
Proof.
  unfold AMPGO.check_args, AMPGO.the_bounds. cbn.
  rewrite length_map. destruct AMPGO.SCIPY; cbn; [|reflexivity].
  destruct (List.length (combine (fst (gBnds gl)) (snd (gBnds gl)))
            =? List.length tP0)%nat; reflexivity.
Qed.

(** X16.  The global fit raises before any fitting when [AMPGO] finds
    no scipy, and, with scipy, when the bounds are not one pair for each
    parameter of the initial guess: [AMPGO] raises the exception of that
    check.  The other checks [AMPGO] makes on its arguments cannot fail
    on the call the global fit makes. *)
Theorem global_fit_failures (m : bool) (lp : Z) (s : @session Rng)
    (fuel : nat) :
  let gl := s_gl s in
  let tP0 := fst (initial_guess s) in
  let g1 := snd (initial_guess s) in
  let pairs := List.length (combine (fst (gBnds gl)) (snd (gBnds gl))) in
  (AMPGO.SCIPY = false ->
   AMPGO.AMPGO (ampgo_args (Opts := Opts) gl tP0) fuel g1
     = Some (AMPGO.Raised AMPGO.NoScipyInstallation) /\
   fit_global m lp s = None) /\
  (AMPGO.SCIPY = true -> pairs <> List.length tP0 ->
   AMPGO.AMPGO (ampgo_args (Opts := Opts) gl tP0) fuel g1
     = Some (AMPGO.Raised AMPGO.BoundsLengthMismatch) /\
   fit_global m lp s = None) /\
  (AMPGO.SCIPY = true -> pairs = List.length tP0 ->
   AMPGO.check_args (ampgo_args (Opts := Opts) gl tP0) = None).
Proof.
  cbv zeta. unfold fit_global.
  set (b := if m then _ else _).
  assert (B : initial_guess b = initial_guess s)
    by (unfold b; destruct m; reflexivity).
  rewrite B. clear B. clearbody b.
  destruct (initial_guess s) as [tP0 g1]. cbn [fst snd].
  unfold AMPGO.AMPGO. rewrite !ampgo_args_checked.
  split; [|split].
  - intros S. rewrite S. split; reflexivity.
  - intros S L. rewrite S. cbn [negb].
    apply Nat.eqb_neq in L. rewrite L. split; reflexivity.
  - intros S L. rewrite S. apply Nat.eqb_eq in L. rewrite L. reflexivity.
Qed.
(** *** The rows a local run writes *)

(** X17.  A run of the fit type "local" that ends has written, for each
    fit loop in turn and within it for each dataset in turn, first (under
    [-fitmc]) one row of stage "mcerr" for each of the [fitMC] Monte-Carlo
    refits, numbered from 1, and then the one row of stage "local"
    numbered by the fit loop; without [-fitmc], or with a count below
    one, the "local" rows only.  The records unpacked are the same, in
    the same order. *)
Theorem local_run_rows (inp : run_inputs) (gl : Global) (g : Rng)
    (s : @session Rng) :
  let rows :=
    flat_map (fun lp =>
      flat_map (fun ob =>
        (if mcerr inp
         then map (fun i => (FitNum ob, (i + 1)%Z, "mcerr"%string))
                  (range (fitMC inp))
         else [])
        ++ [(FitNum ob, (lp + 1)%Z, "local"%string)]) (gObs gl))
      (range (FitLoops gl)) in
  FitType gl = "local"%string ->
  Main_fit inp gl g = Some s ->
  written s = rows /\
  map (fun r => (rec_ob r, rec_idx r, rec_stage r)) (fits s) = rows.
Proof.
  cbv zeta. intros T. unfold Main_fit.
  assert (K : forall (lps : list Z) (s0 s' : @session Rng),
    FitType (s_gl s0) = "local"%string ->
    map FitNum (gObs (s_gl s0)) = map FitNum (gObs gl) ->
    fit_loops inp lps s0 = Some s' ->
    written s' = written s0 ++
      flat_map (fun lp =>
        flat_map (fun ob =>
          (if mcerr inp
           then map (fun i => (FitNum ob, (i + 1)%Z, "mcerr"%string))
                    (range (fitMC inp))
           else [])
          ++ [(FitNum ob, (lp + 1)%Z, "local"%string)]) (gObs gl)) lps /\
    map (fun r => (rec_ob r, rec_idx r, rec_stage r)) (fits s')
    = map (fun r => (rec_ob r, rec_idx r, rec_stage r)) (fits s0) ++
      flat_map (fun lp =>
        flat_map (fun ob =>
          (if mcerr inp
           then map (fun i => (FitNum ob, (i + 1)%Z, "mcerr"%string))
                    (range (fitMC inp))
           else [])
          ++ [(FitNum ob, (lp + 1)%Z, "local"%string)]) (gObs gl)) lps).
  { induction lps as [|lp lps IH]; intros s0 s' T0 N0 E; cbn in E.
    - injection E as <-. cbn. rewrite !app_nil_r. auto.
    - unfold bind in E.
      destruct (fit_iteration inp lp s0) as [s1|] eqn:I; [|discriminate].
      unfold fit_iteration in I. rewrite T0 in I. cbn in I.
      destruct (fit_local_rows _ _ _ _ _ I) as (W1 & F1).
      destruct (fit_local_data _ _ _ _ _ I) as (G1 & D1).
      assert (T1 : FitType (s_gl s1) = "local"%string).
      { apply (f_equal FitType) in G1. cbn in G1. rewrite G1. exact T0. }
      assert (N1 : map FitNum (gObs (s_gl s1)) = map FitNum (gObs gl)).
      { rewrite (measured_FitNum _ _ D1). exact N0. }
      destruct (IH s1 s' T1 N1 E) as (W2 & F2).
      assert (R : flat_map (fun ob =>
                    (if mcerr inp
                     then map (fun i => (FitNum ob, (i + 1)%Z, "mcerr"%string))
                              (range (fitMC inp))
                     else [])
                    ++ [(FitNum ob, (lp + 1)%Z, "local"%string)])
                    (gObs (s_gl s0))
                  = flat_map (fun ob =>
                    (if mcerr inp
                     then map (fun i => (FitNum ob, (i + 1)%Z, "mcerr"%string))
                              (range (fitMC inp))
                     else [])
                    ++ [(FitNum ob, (lp + 1)%Z, "local"%string)]) (gObs gl)).
      { apply (flat_map_by_key FitNum
                 (fun k =>
                    (if mcerr inp
                     then map (fun i => (k, (i + 1)%Z, "mcerr"%string))
                              (range (fitMC inp))
                     else [])
                    ++ [(k, (lp + 1)%Z, "local"%string)])).
        exact N0. }
      rewrite W2, F2, W1, F1, R. cbn [flat_map].
      rewrite <- !app_assoc. auto. }
  intros E.
  destruct (K (range (FitLoops gl))
              {| s_gl := gl; fits := []; written := []; stdout := [];
                 rng := g |} s T eq_refl E) as (W & F).
  cbn in W, F. auto.
Qed.
(** *** The reduced chi-square of the Monte-Carlo rows of an intensity fit *)

(** X18.  All the records one intensity fit unpacks carry one and the
    same reduced chi-square: that of [fitted.x], the parameters fitted to
    the measured intensities, evaluated on the data as they stand after
    the refits, whose measured columns are those the fit started with.
    The "mcerr" record of a Monte-Carlo refit does not report the
    chi-square of its own parameters. *)
Theorem intensity_fit_rows_share_chi_square (m : bool) (fitMC lp : Z)
    (s s' : @session Rng) :
  fit_localint m fitMC lp s = Some s' ->
  exists fitted new,
    least_squares (fun x => residual (s_gl s) x None "Ints")
      (fst (initial_guess s)) (gBnds (s_gl s)) 10000 = Some fitted /\
    fits s' = fits s ++ new /\
    map measured (gObs (s_gl s')) = map measured (gObs (s_gl s)) /\
    forall r, In r new ->
      rec_redChiSq r
      = chi2 (s_gl s') (opt_x fitted) (dataType (s_gl s')) / dof (s_gl s').
Proof.
  intros E0. pose proof (fit_localint_data _ _ _ _ _ E0) as [_ D0].
  revert E0. unfold fit_localint.
  change (initial_guess (print (Banner "localint" (lp + 1)) s))
    with (initial_guess s).
  destruct (initial_guess s) as [tP0 g1]. cbn [fst].
  set (s2 := with_rng g1 (print (Banner "localint" (lp + 1)) s)).
  change (s_gl s2) with (s_gl s).
  unfold bind at 1.
  destruct (hd_error (gObs (s_gl s))); [|discriminate].
  unfold bind at 1.
  destruct (least_squares _ tP0 _ _) as [fitted|]; [|discriminate].
  assert (K : forall MCpars (s3 : @session Rng),
    fits s3 = fits s ->
    Some (store_all
            (flat_map (localint_records (s_gl s3) m lp fitted MCpars)
               (gObs (s_gl s3))) s3) = Some s' ->
    exists new, fits s' = fits s ++ new /\
      forall r, In r new ->
        rec_redChiSq r
        = chi2 (s_gl s') (opt_x fitted) (dataType (s_gl s'))
          / dof (s_gl s')).
  { intros MCpars s3 F E. injection E as <-.
    exists (flat_map (localint_records (s_gl s3) m lp fitted MCpars)
              (gObs (s_gl s3))).
    rewrite (proj1 (proj2 (store_all_fields _ _))), F.
    rewrite (proj1 (store_all_fields _ _)).
    split; [reflexivity|].
    intros r I. apply in_flat_map in I. destruct I as (ob & _ & I).
    unfold localint_records in I. apply in_app_or in I.
    destruct I as [I|[<-|[]]]; [|reflexivity].
    destruct m; cbn [negb] in I; [|destruct I].
    unfold mc_records in I. apply in_map_iff in I.
    destruct I as ([idx [pars c]] & <- & I). cbn [rec_redChiSq].
    apply in_combine_r, in_combine_r, in_map_iff in I.
    destruct I as (x & <- & _). reflexivity. }
  intros E0. exists fitted.
  assert (N : exists new, fits s' = fits s ++ new /\
      forall r, In r new ->
        rec_redChiSq r
        = chi2 (s_gl s') (opt_x fitted) (dataType (s_gl s'))
          / dof (s_gl s')).
  { destruct m.
    - destruct (mc_loop (mc_round_localint (opt_x fitted)) fitMC
                  (range fitMC) [] s2) as [[MCpars s3]|] eqn:E;
        [|discriminate].
      cbn [bind] in E0.
      destruct (mc_loop_data _ _ _ _ _ _ _
                  (fun s1 s2 p =>
                     mc_round_localint_data (opt_x fitted) s1 s2 p) E)
        as (_ & F & _).
      apply (K MCpars s3); [exact F | exact E0].
    - cbn [bind] in E0. apply (K [] s2); [reflexivity | exact E0]. }
  destruct N as (new & F & R).
  exists new. split; [reflexivity|]. split; [exact F|].
  split; [exact D0 | exact R].
Qed.
End Loop.

(** The stand-in set-up, fitted locally under [-fitmc] with a count of
    two. *)
Lemma local_run_rows_witness :
  exists s,
    Main_fit {| mcerr := true; fitMC := 2; arrival := fun _ => [] |}
      (setup "local" [two_points]) 0%nat = Some s /\
    written s = [(0%nat, 1%Z, "mcerr"%string); (0%nat, 2%Z, "mcerr"%string);
                 (0%nat, 1%Z, "local"%string)].
Proof.
  eexists. split.
  - vm_compute. reflexivity.
  - refine (proj1 (@local_run_rows unit nat stay_put root_model
                     {| mcerr := true; fitMC := 2; arrival := fun _ => [] |}
                     (setup "local" [two_points]) 0%nat _ eq_refl _)).
    vm_compute. reflexivity.
Defined.

(** The same run: the dataset comes out with its two points. *)
Lemma Main_fit_keeps_measured_data_witness :
  exists s,
    Main_fit {| mcerr := true; fitMC := 2; arrival := fun _ => [] |}
      (setup "local" [two_points]) 0%nat = Some s /\
    map R1pD (gObs (s_gl s)) = [R1pD two_points] /\
    map R1p_MC (gObs (s_gl s)) = [[1; 1]].
Proof.
  eexists. split; [vm_compute; reflexivity|]. split; [|reflexivity].
  pose proof (proj1 (@Main_fit_keeps_measured_data unit nat stay_put
                       root_model
                       {| mcerr := true; fitMC := 2; arrival := fun _ => [] |}
                       (setup "local" [two_points]) 0%nat _
                       ltac:(vm_compute; reflexivity))) as D.
  apply (f_equal (map (fun t : nat * float * list float * string
                                * list R1p_row * list Decay =>
                         snd (fst t)))) in D.
  rewrite !map_map in D. exact D.
Defined.

(** A fit type that is none of the five, for one fit loop. *)
Lemma undeclared_fit_type_fits_nothing_witness :
  exists s,
    Main_fit plain_run (setup "globel" [two_points]) 0%nat = Some s /\
    effects s = (setup "globel" [two_points], [], [], 0%nat) /\
    stdout s = [Text "Fit Type not declared properly (global or local)"].
Proof.
  apply (undeclared_fit_type_fits_nothing plain_run
           (setup "globel" [two_points]) 0%nat).
  intros t [<-|[<-|[<-|[<-|[<-|[]]]]]]; discriminate.
Defined.

(** Bounds for one parameter and a guess of two: the global fit raises;
    on the stand-in set-up it ends. *)
Example global_fit_needs_bounds_for_each_parameter :
  fit_global false 0
    (fresh {| gObs := [two_points]; FitType := "global"; FitLoops := 1;
              rndStart := false; gP0 := [4; 4]; gBnds := ([0], [100]);
              dof := 1; gFitEqn := "bm"; brutegP0 := [] |}) = None /\
  option_map (fun s => List.length (fits s))
    (fit_global false 0 (fresh (setup "global" [two_points]))) = Some 2%nat.
Proof. split; vm_compute; reflexivity. Qed.
(** An intensity fit under [-fitmc] with a count of two: the stand-in
    fit stays at the initial guess [[4]], which predicts the intensity 2
    where 3 was measured, twice; the three records carry its reduced
    chi-square, 2. *)
Lemma intensity_fit_rows_share_chi_square_witness :
  exists s',
    fit_localint true 2 0 (fresh (setup "localint" [one_decay])) = Some s' /\
    map rec_redChiSq (fits s') = [2; 2; 2] /\
    exists fitted new,
      least_squares
        (fun x => residual (setup "localint" [one_decay]) x None "Ints")
        [4] ([0], [100]) 10000 = Some fitted /\
      fits s' = new /\
      map R1pD_ints (gObs (s_gl s')) = [R1pD_ints one_decay] /\
      forall r, In r new ->
        rec_redChiSq r
        = chi2 (s_gl s') (opt_x fitted) (dataType (s_gl s')) / dof (s_gl s').
Proof.
  eexists. split; [vm_compute; reflexivity|]. split; [reflexivity|].
  destruct (@intensity_fit_rows_share_chi_square nat root_model
              true 2 0 (fresh (setup "localint" [one_decay])) _ eq_refl)
    as (fitted & new & L & F & D & R).
  exists fitted, new. split; [exact L|]. split; [exact F|].
  split; [reflexivity | exact R].
Defined.

End LoopFacts.

(** ** The brute-force pass *)
Module GridFacts.
Import BMNS FitFacts Examples.
Local Open Scope float_scope.

Lemma eqb_number (k : float) : is_nan k = false -> (k =? k) = true.
Proof. unfold is_nan. intros E. apply negb_false_iff in E. exact E. Qed.

Lemma eqb_nan_r (k' k : float) : is_nan k = true -> (k' =? k) = false.
Proof.
  unfold is_nan. rewrite !eqb_spec. intros E. apply negb_true_iff in E.
  revert E. generalize (Prim2SF k') (Prim2SF k). intros p q.
  sf_cases; try (intros; reflexivity); try discriminate; cmp_cases.
Qed.

(** Setting one key over and over: a number is set once, [NaN], equal
    to no key, is added every time. *)
Lemma dict_set_again (k : float) (v : list float) (X : Type) (l : list X)
    (n : nat) :
  fold_left (fun allfits (_ : X) => dict_set allfits k v) l (repeat (k, v) n)
  = if is_nan k then repeat (k, v) (n + List.length l)
    else match n, l with
         | O, [] => []
         | O, _ => [(k, v)]
         | _, _ => repeat (k, v) n
         end.
Proof.
  revert n. induction l as [|x l IH]; intros n; cbn [fold_left List.length].
  - rewrite Nat.add_0_r. destruct (is_nan k), n; reflexivity.
  - destruct (is_nan k) eqn:N.
    + assert (D : dict_set (repeat (k, v) n) k v = repeat (k, v) (S n)).
      { induction n as [|n IHn]; cbn; [reflexivity|].
        rewrite (eqb_nan_r k k N). cbn in IHn. rewrite IHn. reflexivity. }
      rewrite D, IH. f_equal. lia.
    + assert (D : dict_set (repeat (k, v) n) k v
                  = repeat (k, v) (match n with O => 1 | _ => n end)).
      { destruct n as [|n]; cbn; [reflexivity|].
        rewrite (eqb_number k N). reflexivity. }
      rewrite D, IH. destruct n; reflexivity.
Qed.

Section Grid.
Context {Opts Rng : Type} `{AMPGO.Solvers Opts Rng} `{Collaborators Rng}.

(** X19.  The dictionary a worker of the brute-force pass sends back for
    a grid point holds, when there is a dataset, exactly one entry: the
    reduced chi-square of the one-evaluation fit, mapped to the grid
    point.  Only if that score is [NaN], which is equal to no key, it
    holds one such entry for each dataset. *)
Theorem Brute_loop_one_entry (gl : Global) (idx : nat) (d : dict) :
  Brute_loop gl idx = Some d ->
  gObs gl <> [] ->
  exists gf fitted,
    nth_error (brutegP0 gl) idx = Some gf /\
    least_squares (fun x => residual gl x None "R1p") gf (gBnds gl) 1
      = Some fitted /\
    d = if is_nan (chi2 gl (opt_x fitted) "R1p" / dof gl)
        then map (fun _ => (chi2 gl (opt_x fitted) "R1p" / dof gl, gf))
                 (gObs gl)
        else [(chi2 gl (opt_x fitted) "R1p" / dof gl, gf)].
Proof.
  unfold Brute_loop, bind. intros E NE.
  destruct (nth_error (brutegP0 gl) idx) as [gf|]; [|discriminate].
  destruct (least_squares _ gf _ _) as [fitted|] eqn:L; [|discriminate].
  injection E as <-. exists gf, fitted. split; [reflexivity|].
  split; [exact L|].
  rewrite (dict_set_again (chi2 gl (opt_x fitted) "R1p" / dof gl) gf Fits
             (gObs gl) 0).
  destruct (is_nan _).
  - cbn [Nat.add]. clear NE.
    induction (gObs gl) as [|ob obs IH]; cbn; [reflexivity|].
    rewrite IH. reflexivity.
  - destruct (gObs gl); [congruence | reflexivity].
Qed.
(** *** [parmap] puts the results back in order *)

Lemma insert_by_index_perm {Y : Type} (p : nat * Y) (l : list (nat * Y)) :
  Permutation (insert_by_index p l) (p :: l).
Proof.
  induction l as [|q l IH]; cbn; [reflexivity|].
  destruct (fst p <=? fst q)%nat; [reflexivity|].
  rewrite IH. apply perm_swap.
Qed.

Lemma sorted_perm {Y : Type} (res : list (nat * Y)) :
  Permutation (sorted res) res.
Proof.
  induction res as [|r res IH]; [reflexivity|].
  change (sorted (r :: res)) with (insert_by_index r (sorted res)).
  rewrite insert_by_index_perm, IH. reflexivity.
Qed.

Lemma insert_by_index_sorted {Y : Type} (p : nat * Y) (l : list (nat * Y)) :
  StronglySorted le (map fst l) ->
  StronglySorted le (map fst (insert_by_index p l)).
Proof.
  induction l as [|q l IH]; cbn; intros S.
  - repeat constructor.
  - inversion S as [|? ? S' F]; subst.
    destruct (Nat.leb_spec (fst p) (fst q)) as [Le|Gt]; cbn.
    + constructor; [exact S|]. constructor; [exact Le|].
      eapply Forall_impl; [|exact F]. intros x Q. lia.
    + constructor; [apply IH; exact S'|].
      apply Forall_forall. intros x I. apply in_map_iff in I.
      destruct I as (e & <- & I). apply in_insert_by_index in I.
      destruct I as [->|I]; [lia|].
      rewrite Forall_forall in F. apply F. apply in_map. exact I.
Qed.

Lemma sorted_sorted {Y : Type} (res : list (nat * Y)) :
  StronglySorted le (map fst (sorted res)).
Proof.
  induction res as [|r res IH]; [constructor|].
  change (sorted (r :: res)) with (insert_by_index r (sorted res)).
  apply insert_by_index_sorted. exact IH.
Qed.

Lemma seq_sorted (a n : nat) : StronglySorted le (seq a n).
Proof.
  revert a. induction n as [|n IH]; intros a; cbn; constructor.
  - apply IH.
  - apply Forall_forall. intros x I. apply in_seq in I. lia.
Qed.

(** Two sorted lists with the same elements are one list. *)
Lemma sorted_unique (l1 l2 : list nat) :
  StronglySorted le l1 -> StronglySorted le l2 -> Permutation l1 l2 ->
  l1 = l2.
Proof.
  revert l2. induction l1 as [|a l1 IH]; intros l2 S1 S2 P.
  - apply Permutation_nil in P. subst. reflexivity.
  - destruct l2 as [|b l2].
    { apply Permutation_sym, Permutation_nil in P. discriminate. }
    inversion S1 as [|? ? S1' F1]; subst.
    inversion S2 as [|? ? S2' F2]; subst.
    rewrite Forall_forall in F1, F2.
    assert (a = b).
    { assert (I1 : In a (b :: l2))
        by (apply (Permutation_in _ P); left; reflexivity).
      assert (I2 : In b (a :: l1))
        by (apply (Permutation_in _ (Permutation_sym P)); left; reflexivity).
      destruct I1 as [->|I1]; [reflexivity|].
      destruct I2 as [->|I2]; [reflexivity|].
      specialize (F1 b I2). specialize (F2 a I1). lia. }
    subst b. f_equal. apply IH; try assumption.
    exact (Permutation_cons_inv P).
Qed.

Lemma sorted_indices {Y : Type} (res : list (nat * Y)) (n : nat) :
  Permutation (map fst res) (seq 0 n) -> map fst (sorted res) = seq 0 n.
Proof.
  intros P. apply sorted_unique.
  - apply sorted_sorted.
  - apply seq_sorted.
  - rewrite <- P. apply Permutation_map, sorted_perm.
Qed.

(** Results that carry the indices of [Xs] in order are the values of
    [f] on [Xs]. *)
Lemma aligned {X Y : Type} (f : X -> option Y) (X_ Xs : list X)
    (L : list (nat * Y)) (k : nat) :
  map fst L = seq k (List.length Xs) ->
  (forall i y, In (i, y) L ->
     exists x, nth_error X_ i = Some x /\ f x = Some y) ->
  (forall j x, nth_error Xs j = Some x -> nth_error X_ (k + j) = Some x) ->
  Forall2 (fun x y => f x = Some y) Xs (map snd L).
Proof.
  revert L k. induction Xs as [|x Xs IH]; intros L k I C S; cbn in I.
  - destruct L; [constructor | discriminate].
  - destruct L as [|[i y] L]; [discriminate|]. cbn in I.
    injection I as -> I. cbn [map snd]. constructor.
    + destruct (C k y) as (x' & N & F); [left; reflexivity|].
      specialize (S 0%nat x eq_refl). rewrite Nat.add_0_r in S.
      rewrite S in N. injection N as <-. exact F.
    + apply (IH L (Datatypes.S k)); [exact I | |].
      * intros i' y' In'. apply C. right. exact In'.
      * intros j x' N. specialize (S (Datatypes.S j) x' N).
        rewrite <- plus_n_Sm in S. exact S.
Qed.

Lemma Forall2_functional {X Y : Type} (f : X -> option Y) (Xs : list X)
    (ys ys' : list Y) :
  Forall2 (fun x y => f x = Some y) Xs ys ->
  Forall2 (fun x y => f x = Some y) Xs ys' -> ys = ys'.
Proof.
  intros A. revert ys'. induction A as [|x y Xs ys E A IH]; intros ys' B.
  - inversion B. reflexivity.
  - inversion B as [|? y' ? ys'' E' B']; subst.
    rewrite E in E'. injection E' as <-. f_equal. apply IH. exact B'.
Qed.

Lemma Forall2_at {X Y : Type} (P : X -> Y -> Prop) (Xs : list X)
    (ys : list Y) :
  Forall2 P Xs ys ->
  forall i x, nth_error Xs i = Some x -> exists y, P x y.
Proof.
  induction 1 as [|x0 y0 Xs ys E A IH]; intros [|i] x N; cbn in N;
    try discriminate.
  - injection N as <-. exists y0. exact E.
  - exact (IH i x N).
Qed.

Lemma collect_succeeds {X Y : Type} (f : X -> option Y) (X_ : list X)
    (arrival : list nat) :
  (forall i, In i arrival ->
     exists x y, nth_error X_ i = Some x /\ f x = Some y) ->
  exists res, collect f X_ arrival = Some res.
Proof.
  induction arrival as [|i rest IH]; intros K; cbn.
  - eexists; reflexivity.
  - destruct (K i) as (x & y & N & F); [left; reflexivity|].
    destruct IH as (res & C); [intros j I; apply K; right; exact I|].
    rewrite N. cbn [bind]. rewrite F. cbn [bind]. rewrite C. cbn [bind].
    eexists; reflexivity.
Qed.

(** X20.  In whatever order the workers finish, as long as each index
    comes back once, [parmap(f, X)] returns the values of [f] on the
    elements of [X] in the order of [X]; and it returns only if [f] has
    returned on every element. *)
Theorem parmap_restores_order {X Y : Type} (f : X -> option Y)
    (X_ : list X) (arrival : list nat) (ys : list Y) :
  Permutation arrival (seq 0 (List.length X_)) ->
  parmap f X_ arrival = Some ys <->
  Forall2 (fun x y => f x = Some y) X_ ys.
Proof.
  intros P.
  assert (A : forall res, collect f X_ arrival = Some res ->
            Forall2 (fun x y => f x = Some y) X_ (map snd (sorted res))).
  { intros res C. apply (aligned f X_ X_ (sorted res) 0).
    - apply sorted_indices. rewrite (collect_indices _ _ _ _ C). exact P.
    - intros i y I. apply (proj1 (in_sorted _ _)) in I.
      exact (collect_in _ _ _ _ i y C I).
    - intros j x N. exact N. }
  unfold parmap, bind. split.
  - destruct (collect f X_ arrival) as [res|] eqn:C; [|discriminate].
    intros E; injection E as <-. apply A. reflexivity.
  - intros F.
    destruct (collect_succeeds f X_ arrival) as (res & C).
    { intros i I. apply (Permutation_in _ P), in_seq in I.
      destruct (nth_error X_ i) as [x|] eqn:N.
      - destruct (Forall2_at _ _ _ F i x N) as (y & Fy). exists x, y. auto.
      - apply nth_error_None in N. lia. }
    rewrite C. f_equal.
    exact (Forall2_functional f X_ _ _ (A res C) F).
Qed.
End Grid.

(** The first grid point of the stand-in set-up scores 8. *)
Lemma Brute_loop_one_entry_witness :
  exists gf fitted,
    nth_error (brutegP0 (setup "brute" [two_points])) 0 = Some gf /\
    least_squares
      (fun x => residual (setup "brute" [two_points]) x None "R1p") gf
      (gBnds (setup "brute" [two_points])) 1 = Some fitted /\
    [(8, [9])] =
      if is_nan (chi2 (setup "brute" [two_points]) (opt_x fitted) "R1p"
                 / dof (setup "brute" [two_points]))
      then map (fun _ =>
                  (chi2 (setup "brute" [two_points]) (opt_x fitted) "R1p"
                   / dof (setup "brute" [two_points]), gf))
               (gObs (setup "brute" [two_points]))
      else [(chi2 (setup "brute" [two_points]) (opt_x fitted) "R1p"
             / dof (setup "brute" [two_points]), gf)].
Proof.
  apply (Brute_loop_one_entry (setup "brute" [two_points]) 0
           [(8, [9])]).
  - reflexivity.
  - discriminate.
Defined.

(** With no degree of freedom and a perfect fit the score is [0/0]: the
    dictionary has an entry for each of the two datasets. *)
Example Brute_loop_nan_entries :
  option_map (@List.length _)
    (Brute_loop
       {| gObs := [two_points; two_points]; FitType := "brute";
          FitLoops := 1; rndStart := false; gP0 := [4];
          gBnds := ([0], [100]); dof := 0; gFitEqn := "bm";
          brutegP0 := [[1]] |} 0) = Some 2%nat.
Proof. reflexivity. Qed.

(** Three workers that finish in the order 2, 0, 1. *)
Lemma parmap_restores_order_witness :
  parmap (fun x => Some (x + 1)%nat) [10; 20; 30]%nat [2; 0; 1]%nat
  = Some [11; 21; 31]%nat.
Proof.
  apply (parmap_restores_order (fun x => Some (x + 1)%nat) [10; 20; 30]%nat
           [2; 0; 1]%nat [11; 21; 31]%nat).
  - cbn. eapply perm_trans; [apply perm_swap | apply perm_skip, perm_swap].
  - repeat constructor.
Defined.
End GridFacts.

(** ** The checks on the command line *)
Module ErrorsFacts.
Import Errors Examples.

Section Checks.
Context `{FileSystem}.

(** X21.  Called as [Main] calls it, with [sys.argv] and its length, of
    at least two, [CheckArgs] never indexes past the arguments.  It
    returns, silently, exactly when there are at least four arguments,
    the second names a file and the third a directory, both under
    [curDir]; in every other case it prints what is wrong and exits with
    code -1. *)
Theorem CheckArgs_guards_the_fit (curDir : string) (argv : list string) :
  (2 <= List.length argv)%nat ->
  (CheckArgs argv curDir (Z.of_nat (List.length argv)) argv = ([], Returns) <->
   exists par data,
     nth_error argv 2 = Some par /\ nth_error argv 3 = Some data /\
     isfile (join curDir par) = true /\ isdir (join curDir data) = true) /\
  (CheckArgs argv curDir (Z.of_nat (List.length argv)) argv = ([], Returns) \/
   exists out, out <> [] /\
     CheckArgs argv curDir (Z.of_nat (List.length argv)) argv
       = (out, Exits (-1))).
Proof.
  intros L. unfold CheckArgs.
  destruct (Z.leb_spec 2 (Z.of_nat (List.length argv))) as [_|]; [|lia].
  cbn [andb].
  destruct (Z.leb_spec (Z.of_nat (List.length argv)) 3) as [Le|Gt].
  - split.
    + split; [discriminate|]. intros (par & data & _ & N & _).
      assert (3 < List.length argv)%nat
        by (apply nth_error_Some; rewrite N; discriminate).
      lia.
    + right. eexists. split; [|reflexivity]. discriminate.
  - destruct (nth_error argv 2) as [par|] eqn:N2.
    2:{ apply nth_error_None in N2. lia. }
    destruct (nth_error argv 3) as [data|] eqn:N3.
    2:{ apply nth_error_None in N3. lia. }
    destruct (isfile (join curDir par)) eqn:F;
      destruct (isdir (join curDir data)) eqn:D; cbn.
    + split; [|left; reflexivity].
      split; [|reflexivity]. intros _. exists par, data. auto.
    + split; [|right; eexists; split; [|reflexivity]; discriminate].
      split; [discriminate|]. intros (p & d & P & Q & _ & R).
      injection Q as <-. congruence.
    + split; [|right; eexists; split; [|reflexivity]; discriminate].
      split; [discriminate|]. intros (p & d & P & Q & R & _).
      injection P as <-. congruence.
    + split; [|right; eexists; split; [|reflexivity]; discriminate].
      split; [discriminate|]. intros (p & d & P & Q & R & _).
      injection P as <-. congruence.
Qed.

(** X22.  Called with [sys.argv] and its length, [CheckErrArgs] exits
    with code -1 exactly when the number of arguments is not six, having
    printed the usage with "Too few" or "Too many".  With six arguments
    it returns, silently, when the two input files exist and the output
    path is not a file; otherwise it prints an error for each failed
    check and is left by an [UnboundLocalError], its closing
    [print(tstr)] reading a variable that was never assigned. *)
Theorem CheckErrArgs_outcomes (curDir : string) (argv : list string) :
  match CheckErrArgs argv curDir (Z.of_nat (List.length argv)) argv with
  | (out, Exits code) =>
      code = (-1)%Z /\ List.length argv <> 6%nat /\
      out = [WrongArgumentCount
               (if (List.length argv <? 6)%nat then "Too few"
                else "Too many")%string]
  | (out, Returns) =>
      out = [] /\ List.length argv = 6%nat /\
      isfile (join curDir (nth 2 argv ""%string)) = true /\
      isfile (join curDir (nth 3 argv ""%string)) = true /\
      isfile (join curDir (nth 4 argv ""%string)) = false
  | (out, Raises e) =>
      e = UnboundLocalError /\ out <> [] /\ List.length argv = 6%nat /\
      (isfile (join curDir (nth 2 argv ""%string)) = false \/
       isfile (join curDir (nth 3 argv ""%string)) = false \/
       isfile (join curDir (nth 4 argv ""%string)) = true)
  end.
Proof.
  unfold CheckErrArgs.
  destruct (Z.eqb_spec (Z.of_nat (List.length argv)) 6) as [E|NE]; cbn [negb].
  - assert (L : List.length argv = 6%nat) by lia.
    destruct argv as [|a0 [|a1 [|a2 [|a3 [|a4 [|a5 [|a6 rest]]]]]]];
      cbn in L; try discriminate.
    cbn [nth_error nth].
    destruct (isfile (join curDir a2)); destruct (isfile (join curDir a3));
      destruct (isfile (join curDir a4)); cbn;
      repeat split; auto; discriminate.
  - split; [reflexivity|]. split; [lia|].
    destruct (Z.ltb_spec (Z.of_nat (List.length argv)) 6);
      destruct (Nat.ltb_spec (List.length argv) 6); try lia; reflexivity.
Qed.
End Checks.

(** [BMNS.py -fit pars.txt data], run in [/home] where both exist. *)
Lemma CheckArgs_guards_the_fit_witness :
  CheckArgs ["BMNS.py"; "-fit"; "pars.txt"; "data"]%string "/home"
    (Z.of_nat (List.length ["BMNS.py"; "-fit"; "pars.txt"; "data"]%string))
    ["BMNS.py"; "-fit"; "pars.txt"; "data"]%string = ([], Returns) <->
  exists par data,
    nth_error ["BMNS.py"; "-fit"; "pars.txt"; "data"]%string 2 = Some par /\
    nth_error ["BMNS.py"; "-fit"; "pars.txt"; "data"]%string 3 = Some data /\
    isfile (join "/home" par) = true /\ isdir (join "/home" data) = true.
Proof.
  apply (CheckArgs_guards_the_fit "/home"
           ["BMNS.py"; "-fit"; "pars.txt"; "data"]%string).
  cbn. lia.
Defined.

(** Six arguments of which the fit file does not exist: one error is
    printed, then the exception. *)
Example CheckErrArgs_missing_file :
  CheckErrArgs ["BMNS.py"; "-error"; "fit.csv"; "pars.txt"; "out"; "1"]%string
    "/home" 6 ["BMNS.py"; "-error"; "fit.csv"; "pars.txt"; "out"; "1"]%string
  = ([FitFileMissing "/home/fit.csv"], Raises UnboundLocalError).
Proof. reflexivity. Qed.

End ErrorsFacts.
